(** * VibeVoice multi-GPU demo: scheduler and streaming coordinator

    A shallow embedding of [demo/gradio_demo_multigpu.py]: the [GPUStatus]
    record, the [GPUManager] scheduler ([select_best_gpu],
    [_check_gpu_health], [_handle_gpu_error], [generate_podcast_streaming])
    and the per-device [VibeVoiceDemo.generate_podcast_streaming] generator
    (validation, script formatting, the drain loop with its flush policy and
    the finalisation); further, the manager's start-up ([_initialize_gpus])
    and monitor cycle, the interface's [generate_podcast_wrapper], the
    loading of example scripts, [convert_to_16_bit_wav] and the progress bar
    of the status display.

    Modelling conventions.
    - Python [float] values (memory sizes, utilisation, scores, clock
      readings) are exact rationals [Q]; Python [int] values are [Z].
    - Python [str] is a list of Unicode code points ([pystr]).
    - A generator is the list of the actions it performs in order: its
      [yield]s together with the side effects the properties talk about
      (queue operations, thread start, sleeps, joins, streamer end).
    - What other threads decide (the stop flag read at each polling point,
      the chunks the engine emits, the clock, device probes) is supplied as
      an explicit environment argument.
    - An audio chunk is the 1-D int16 array that [convert_to_16_bit_wav]
      returns for it, as a list of samples; that conversion keeps the number
      of samples, and it is taken not to raise.
    - Log strings are kept by kind ([log_text]) with the integers they are
      formatted from; [print] calls are left out.
    - The instance attributes [is_generating] and [current_streamer] are
      written by the session but never read by it and are left out; the
      attribute [stop_generation] is written by other threads, so each read
      of it is an input of its own.
    - A consumer may close a generator while it is suspended at a [yield]
      (Python then raises [GeneratorExit] there, which [except Exception]
      does not catch and [finally] still sees): [close_at].
    - What the host offers at start-up (whether CUDA is there, the number of
      devices, whether loading a model on a device succeeds) and what a
      monitor cycle measures are arguments as well.
    - The two regular expressions of the example loader are not modelled:
      what they extract from a line or a file name is an argument.
    - The six outputs the interface's wrapper yields are a record of what
      each sets: the audio values, the log and the [visible] flags. *)

From Stdlib Require Import ZArith NArith QArith List Bool Lia String Ascii DecimalString.
From Stdlib Require Import Sorting.Sorted Qabs.
From stdpp Require Import base gmap list.
Import ListNotations.
Open Scope Z_scope.

(** ** Python strings *)

Module PyStr.

Definition pystr := list N.

(** An ASCII literal as a Python string. *)
Definition lit (s : string) : pystr := map N_of_ascii (list_ascii_of_string s).

(** [str.isspace] on one code point (CPython's [_PyUnicode_IsWhitespace]). *)
Definition is_space (c : N) : bool :=
  ((9 <=? c) && (c <=? 13) || (28 <=? c) && (c <=? 32) || (c =? 133)
   || (c =? 160) || (c =? 5760) || (8192 <=? c) && (c <=? 8202)
   || (c =? 8232) || (c =? 8233) || (c =? 8239) || (c =? 8287)
   || (c =? 12288))%N.

Fixpoint lstrip (s : pystr) : pystr :=
  match s with
  | c :: s' => if is_space c then lstrip s' else s
  | [] => []
  end.

Definition rstrip (s : pystr) : pystr := rev (lstrip (rev s)).

(** [s.strip()] *)
Definition strip (s : pystr) : pystr := rstrip (lstrip s).

(** [s.split(sep)] for a one-character separator: never the empty list. *)
Fixpoint split (sep : N) (s : pystr) : list pystr :=
  match s with
  | [] => [[]]
  | c :: s' =>
      if (c =? sep)%N then [] :: split sep s'
      else match split sep s' with
           | l :: ls => (c :: l) :: ls
           | [] => [[c]]
           end
  end.

(** [s.startswith(p)] *)
Fixpoint startswith (p s : pystr) : bool :=
  match p, s with
  | [], _ => true
  | a :: p', b :: s' => (a =? b)%N && startswith p' s'
  | _ :: _, [] => false
  end.

(** [c in s] for a one-character [c]. *)
Definition contains (c : N) (s : pystr) : bool := existsb (N.eqb c) s.

(** [s.replace(a, b)] for one-character [a] and [b]. *)
Definition replace (a b : N) (s : pystr) : pystr :=
  map (fun c => if (c =? a)%N then b else c) s.

(** [sep.join(ls)] for a one-character [sep]. *)
Fixpoint join (sep : N) (ls : list pystr) : pystr :=
  match ls with
  | [] => []
  | [l] => l
  | l :: ls' => l ++ sep :: join sep ls'
  end.

(** [str(n)] for an [int]. *)
Definition of_int (n : Z) : pystr := lit (NilZero.string_of_int (Z.to_int n)).

Definition eqb (a b : pystr) : bool := bool_decide (a = b).

End PyStr.

Import PyStr.

(** ** Device status *)

Definition Qltb (a b : Q) : bool := negb (Qle_bool b a).

Record GPUStatus := {
  gpu_id : Z;
  device_name : pystr;
  memory_used : Q;      (* GB *)
  memory_total : Q;     (* GB *)
  utilization : Q;      (* percent *)
  queue_length : Z;
  is_available : bool;
  last_updated : Q
}.

Definition memory_free (s : GPUStatus) : Q :=
  (memory_total s - memory_used s)%Q.

Definition memory_usage_percent (s : GPUStatus) : Q :=
  if Qltb 0 (memory_total s)
  then ((memory_used s / memory_total s) * 100)%Q
  else 0%Q.

Definition with_available (b : bool) (s : GPUStatus) : GPUStatus :=
  {| gpu_id := gpu_id s; device_name := device_name s;
     memory_used := memory_used s; memory_total := memory_total s;
     utilization := utilization s; queue_length := queue_length s;
     is_available := b; last_updated := last_updated s |}.

(** ** Exceptions, yielded tuples and generator actions *)

Inductive input_error :=
| NoScript                       (* "Please provide a script." *)
| BadSpeakerCount                (* "Number of speakers must be between 1 and 4." *)
| BadSpeaker (i : Z)             (* "Please select a valid speaker for Speaker i." *)
| VoiceLoadFailed (name : pystr) (* "Failed to load audio for name" *).

Inductive exn :=
| RuntimeError                   (* select_best_gpu: no GPU is available *)
| KeyError (k : Z)               (* a dict has no entry for device k *)
| GrError (e : input_error)      (* gr.Error *)
| OtherError.                    (* any other Exception of a collaborator *)

(** The log strings, by kind, with the integers they are formatted from. *)
Inductive log_text :=
| LogStopped
| LogStreaming (total_samples chunk_count : Z)
| LogStreamingFinal (total_samples : Z)
| LogCompleted (final_samples chunk_count : Z)
| LogNoChunks
| LogNotStreamed (chunk_count : Z)
| LogNoAudio
| LogInputError (e : input_error)
| LogUnexpected (e : exn)
| LogGPUFailed (e : exn).

Definition audio := (Z * list Z)%type.   (* (sample_rate, samples) *)

Inductive result :=
| Tuple4 (streaming_audio complete_audio : option audio)
         (log : log_text) (streaming_visible : bool)
| Tuple3 (log : log_text).   (* (None, text, gr.update(visible=False)) *)

Inductive action :=
| Yield (r : result)
| HealthCheck
| QueuePut (g : Z)
| QueueGet (g : Z)
| QueueEmpty (g : Z)             (* get_nowait raised queue.Empty: swallowed *)
| MarkUnavailable (g : Z)
| EmptyCache (g : Z)
| SpawnRecovery (g : Z) (delay : Q)
| ThreadStart
| Sleep (secs : Q)
| StreamerEnd
| Join (timeout : Q)
| Raise (e : exn).               (* the generator ends by raising e *)

Inductive outcome (A : Type) :=
| Ok (a : A)
| Raised (e : exn).
Arguments Ok {A} a.
Arguments Raised {A} e.

Definition is_yield (a : action) : bool :=
  match a with Yield _ => true | _ => false end.

(** The tuples a generator yields, in order. *)
Definition yields (tr : list action) : list result :=
  flat_map (fun a => match a with Yield r => [r] | _ => [] end) tr.

(** ** One device's demo instance and its streaming generator *)

Module VibeVoiceDemo.

Record t := {
  available_voices : list (pystr * pystr);   (* dict: name -> path *)
  inference_steps : Z
}.

(** The arguments of [generate_podcast_streaming]. *)
Record request := {
  num_speakers : Z;
  script : pystr;
  speaker_1 : option pystr;
  speaker_2 : option pystr;
  speaker_3 : option pystr;
  speaker_4 : option pystr;
  cfg_scale : Q
}.

(** One item of [audio_stream] as the drain loop meets it: the chunk, the
    value of [self.stop_generation] read at the top of the iteration and the
    clock read as [current_time]. *)
Record stream_item := {
  chunk : list Z;
  stop_seen : bool;
  current_time : Q
}.

(** Everything the session reads from outside itself. *)
Record env := {
  stop_after_log : bool;          (* self.stop_generation, first check *)
  stop_after_voices : bool;       (* second check *)
  stop_before_processing : bool;  (* third check *)
  stop_after_start : bool;        (* check after the thread started *)
  stop_at_end : bool;             (* check after the final join *)
  read_audio : pystr -> Z;        (* len(self.read_audio(path)) *)
  processor_raises : pystr -> bool; (* self.processor(text=[s], ...) raises *)
  audio_stream : list stream_item;
  loop_start_time : Q;            (* time.time() stored in last_yield_time *)
  alive_after_join : bool         (* generation_thread.is_alive() *)
}.

Definition sample_rate : Z := 24000.
Definition min_yield_interval : Q := 15%Q.
Definition min_chunk_size : Z := sample_rate * 30.

(** [name in d] and [d[name]] on a dict keyed by strings. *)
Fixpoint voice_get (name : pystr) (d : list (pystr * pystr)) : option pystr :=
  match d with
  | [] => None
  | (k, v) :: d' => if PyStr.eqb k name then Some v else voice_get name d'
  end.

(** The validation loop over [enumerate(selected_speakers)], from index [i]. *)
Fixpoint validate_speakers (self : t) (i : Z) (selected : list (option pystr))
  : outcome (list pystr) :=
  match selected with
  | [] => Ok []
  | speaker :: rest =>
      match speaker with
      | Some (c :: name) =>
          match voice_get (c :: name) (available_voices self) with
          | Some _ =>
              match validate_speakers self (i + 1) rest with
              | Ok names => Ok ((c :: name) :: names)
              | Raised e => Raised e
              end
          | None => Raised (GrError (BadSpeaker (i + 1)))
          end
      | _ => Raised (GrError (BadSpeaker (i + 1)))
      end
  end.

(** The input checks at the head of the generator. *)
Definition validate (self : t) (req : request) : outcome (list pystr) :=
  match strip (script req) with
  | [] => Raised (GrError NoScript)
  | _ =>
      if (num_speakers req <? 1) || (4 <? num_speakers req)
      then Raised (GrError BadSpeakerCount)
      else
        let selected_speakers :=
          firstn (Z.to_nat (num_speakers req))
                 [speaker_1 req; speaker_2 req; speaker_3 req; speaker_4 req] in
        validate_speakers self 0 selected_speakers
  end.

(** The voice loading loop. *)
Fixpoint load_voices (self : t) (e : env) (names : list pystr)
  : outcome (list Z) :=
  match names with
  | [] => Ok []
  | speaker_name :: rest =>
      match voice_get speaker_name (available_voices self) with
      | None => Raised OtherError     (* KeyError on the voices dict *)
      | Some audio_path =>
          if read_audio e audio_path =? 0
          then Raised (GrError (VoiceLoadFailed speaker_name))
          else match load_voices self e rest with
               | Ok vs => Ok (read_audio e audio_path :: vs)
               | Raised x => Raised x
               end
      end
  end.

(** [line.startswith('Speaker ') and ':' in line] *)
Definition has_speaker_format (line : pystr) : bool :=
  startswith (lit "Speaker ") line && contains 58%N line.

(** The loop that fills [formatted_script_lines]. *)
Fixpoint format_loop (num_speakers : Z) (lines : list pystr)
    (formatted_script_lines : list pystr) : list pystr :=
  match lines with
  | [] => formatted_script_lines
  | line :: rest =>
      match strip line with
      | [] => format_loop num_speakers rest formatted_script_lines
      | c :: l =>
          let line := c :: l in
          if has_speaker_format line
          then format_loop num_speakers rest (formatted_script_lines ++ [line])
          else
            let speaker_id :=
              Z.of_nat (length formatted_script_lines) mod num_speakers in
            format_loop num_speakers rest
              (formatted_script_lines
                 ++ [lit "Speaker " ++ of_int speaker_id ++ lit ": " ++ line])
      end
  end.

Definition format_script_lines (num_speakers : Z) (script : pystr) : list pystr :=
  format_loop num_speakers (split 10%N (strip script)) [].

Definition formatted_script (num_speakers : Z) (script : pystr) : pystr :=
  join 10%N (format_script_lines num_speakers script).

(** [sum(len(chunk) for chunk in chunks)] *)
Definition sum_len (chunks : list (list Z)) : Z :=
  fold_right (fun c acc => Z.of_nat (length c) + acc) 0 chunks.

(** The local variables of the drain loop. *)
Record drain_state := {
  all_audio_chunks : list (list Z);
  pending_chunks : list (list Z);
  chunk_count : Z;
  last_yield_time : Q;
  has_yielded_audio : bool;
  has_received_chunks : bool
}.

Definition initial_drain_state (now : Q) : drain_state :=
  {| all_audio_chunks := []; pending_chunks := []; chunk_count := 0;
     last_yield_time := now; has_yielded_audio := false;
     has_received_chunks := false |}.

Definition nonempty {A} (l : list A) : bool :=
  match l with [] => false | _ => true end.

(** One iteration of the drain loop, past the stop check. *)
Definition drain_step (st : drain_state) (it : stream_item)
  : drain_state * list action :=
  let chunk_count' := chunk_count st + 1 in
  let all' := all_audio_chunks st ++ [chunk it] in
  let pending := pending_chunks st ++ [chunk it] in
  let pending_audio_size := sum_len pending in
  let time_since_last_yield := (current_time it - last_yield_time st)%Q in
  let '(should_yield, yielded) :=
    if negb (has_yielded_audio st) && (min_chunk_size <=? pending_audio_size)
    then (true, true)
    else if has_yielded_audio st
              && ((min_chunk_size <=? pending_audio_size)
                  || Qle_bool min_yield_interval time_since_last_yield)
         then (true, has_yielded_audio st)
         else (false, has_yielded_audio st) in
  if should_yield && nonempty pending
  then
    let new_audio := concat pending in
    let total := sum_len all' in
    ({| all_audio_chunks := all'; pending_chunks := [];
        chunk_count := chunk_count'; last_yield_time := current_time it;
        has_yielded_audio := yielded; has_received_chunks := true |},
     [Yield (Tuple4 (Some (sample_rate, new_audio)) None
                    (LogStreaming total chunk_count') true)])
  else
    ({| all_audio_chunks := all'; pending_chunks := pending;
        chunk_count := chunk_count'; last_yield_time := last_yield_time st;
        has_yielded_audio := yielded; has_received_chunks := true |},
     []).

(** [for audio_chunk in audio_stream: ...] *)
Fixpoint drain_loop (st : drain_state) (items : list stream_item)
  : drain_state * list action :=
  match items with
  | [] => (st, [])
  | it :: rest =>
      if stop_seen it
      then (st, [StreamerEnd])     (* audio_streamer.end(); break *)
      else
        let '(st1, tr1) := drain_step st it in
        let '(st2, tr2) := drain_loop st1 rest in
        (st2, tr1 ++ tr2)
  end.

(** What follows the drain loop, down to the last [yield]. *)
Definition finalize (e : env) (st : drain_state) : list action :=
  let '(flush, yielded) :=
    if nonempty (pending_chunks st)
    then ([Yield (Tuple4 (Some (sample_rate, concat (pending_chunks st))) None
                         (LogStreamingFinal (sum_len (all_audio_chunks st)))
                         true)],
          true)
    else ([], has_yielded_audio st) in
  let joins :=
    Join 5%Q :: (if alive_after_join e then [StreamerEnd; Join 5%Q] else []) in
  let complete :=
    Yield (Tuple4 None (Some (sample_rate, concat (all_audio_chunks st)))
                  (LogCompleted (sum_len (all_audio_chunks st)) (chunk_count st))
                  false) in
  let last :=
    if stop_at_end e
    then Yield (Tuple4 None None LogStopped false)
    else if has_received_chunks st && negb yielded
              && nonempty (all_audio_chunks st)
    then complete
    else if negb (has_received_chunks st)
    then Yield (Tuple4 None None LogNoChunks false)
    else if negb yielded
    then Yield (Tuple4 None None (LogNotStreamed (chunk_count st)) false)
    else if nonempty (all_audio_chunks st)
    then complete
    else Yield (Tuple4 None None LogNoAudio false) in
  flush ++ joins ++ [last].

(** The drain loop followed by the finalisation. *)
Definition stream_session (e : env) : list action :=
  let '(st, tr) :=
    drain_loop (initial_drain_state (loop_start_time e)) (audio_stream e) in
  tr ++ finalize e st.

(** The [try] block of the generator: its actions and how it ended. *)
Definition body (self : t) (req : request) (e : env)
  : list action * outcome unit :=
  match validate self req with
  | Raised x => ([], Raised x)
  | Ok selected_speakers =>
      if stop_after_log e then ([Yield (Tuple3 LogStopped)], Ok tt)
      else
        match load_voices self e selected_speakers with
        | Raised x => ([], Raised x)
        | Ok _ =>
            if stop_after_voices e then ([Yield (Tuple3 LogStopped)], Ok tt)
            else if stop_before_processing e
            then ([Yield (Tuple3 LogStopped)], Ok tt)
            else if processor_raises e
                      (formatted_script (num_speakers req)
                                        (replace 8217%N 39%N (script req)))
            then ([], Raised OtherError)
            else if stop_after_start e
            then ([ThreadStart; Sleep 1%Q; StreamerEnd; Join 5%Q;
                   Yield (Tuple3 LogStopped)], Ok tt)
            else ([ThreadStart; Sleep 1%Q] ++ stream_session e, Ok tt)
        end
  end.

(** [generate_podcast_streaming]: the [try] block and its two handlers. *)
Definition generate_podcast_streaming (self : t) (req : request) (e : env)
  : list action :=
  match body self req e with
  | (tr, Ok _) => tr
  | (tr, Raised (GrError x)) =>
      tr ++ [Yield (Tuple4 None None (LogInputError x) false)]
  | (tr, Raised x) =>
      tr ++ [Yield (Tuple4 None None (LogUnexpected x) false)]
  end.

(** [stop_audio_generation]: sets the flag; ends the current streamer if any. *)
Definition stop_audio_generation (current_streamer : bool) : bool * list action :=
  (true, if current_streamer then [StreamerEnd] else []).

End VibeVoiceDemo.

(** ** The GPU manager *)

Module GPUManager.

Record t := {
  gpu_instances : list (Z * VibeVoiceDemo.t);  (* dict, insertion order *)
  gpu_status : list (Z * GPUStatus);         (* dict, insertion order *)
  gpu_queues : gmap Z (list Z);              (* the items of each Queue *)
  gpu_locks : gset Z
}.

Definition with_status (st : list (Z * GPUStatus)) (m : t) : t :=
  {| gpu_instances := gpu_instances m; gpu_status := st;
     gpu_queues := gpu_queues m; gpu_locks := gpu_locks m |}.

Definition with_queues (qs : gmap Z (list Z)) (m : t) : t :=
  {| gpu_instances := gpu_instances m; gpu_status := gpu_status m;
     gpu_queues := qs; gpu_locks := gpu_locks m |}.

(** [d[k]] on a dict kept as an association list. *)
Fixpoint dict_get {V} (k : Z) (d : list (Z * V)) : option V :=
  match d with
  | [] => None
  | (k', v) :: d' => if k' =? k then Some v else dict_get k d'
  end.

(** [if g in self.gpu_status: self.gpu_status[g].is_available = b] *)
Definition set_available (g : Z) (b : bool) (st : list (Z * GPUStatus))
  : list (Z * GPUStatus) :=
  map (fun kv => if fst kv =? g then (fst kv, with_available b (snd kv)) else kv) st.

(** [_check_gpu_health]: [probe g] tells whether the test operation on
    device [g] succeeds this time. *)
Definition _check_gpu_health (probe : Z -> bool) (m : t) : t :=
  with_status
    (fold_left (fun st g => set_available g (probe g) st)
               (map fst (gpu_instances m)) (gpu_status m))
    m.

Definition available_gpus (m : t) : list Z :=
  map fst (List.filter (fun kv => is_available (snd kv)) (gpu_status m)).

Definition total_score (status : GPUStatus) : Q :=
  let queue_score := inject_Z (queue_length status * 10) in
  let memory_score := (memory_usage_percent status * 0.5)%Q in
  let util_score := (utilization status * 0.3)%Q in
  (queue_score + memory_score + util_score)%Q.

(** [total_score < best_score], where [None] is [float('inf')]. *)
Definition score_lt (s : Q) (best_score : option Q) : bool :=
  match best_score with
  | None => true
  | Some b => Qltb s b
  end.

(** The scoring loop of [select_best_gpu]. *)
Fixpoint best_loop (st : list (Z * GPUStatus)) (gpus : list Z)
    (best_gpu : option Z) (best_score : option Q) : outcome (option Z) :=
  match gpus with
  | [] => Ok best_gpu
  | g :: rest =>
      match dict_get g st with
      | None => Raised (KeyError g)
      | Some status =>
          if score_lt (total_score status) best_score
          then best_loop st rest (Some g) (Some (total_score status))
          else best_loop st rest best_gpu best_score
      end
  end.

Definition select_best_gpu (probe : Z -> bool) (m : t)
  : t * list action * outcome Z :=
  let '(m1, tr, avail) :=
    match available_gpus m with
    | [] => let m1 := _check_gpu_health probe m in
            (m1, [HealthCheck], available_gpus m1)
    | a => (m, [], a)
    end in
  match avail with
  | [] => (m1, tr, Raised RuntimeError)
  | first :: _ =>
      match best_loop (gpu_status m1) avail None None with
      | Raised e => (m1, tr, Raised e)
      | Ok (Some g) => (m1, tr, Ok g)
      | Ok None => (m1, tr, Ok first)
      end
  end.

(** [_handle_gpu_error]: mark the device unavailable, clear its cache and
    start one recovery thread. *)
Definition _handle_gpu_error (g : Z) (m : t) : t * list action :=
  (with_status (set_available g false (gpu_status m)) m,
   [MarkUnavailable g; EmptyCache g; SpawnRecovery g 30%Q]).

(** The body of the recovery thread, once its [time.sleep(30)] is over. *)
Definition recover_gpu (probe : Z -> bool) (m : t) : t * list action :=
  (_check_gpu_health probe m, [HealthCheck]).

(** One refresh cycle of [_monitor_gpu_status]: [readings g] is the pair
    (max of allocated and reserved memory, utilisation) measured for [g],
    or [None] when measuring raises. *)
Definition refresh (g : Z) (mem util : Q) (qlen : Z) (now : Q)
    (st : list (Z * GPUStatus)) : list (Z * GPUStatus) :=
  map (fun kv =>
         if fst kv =? g
         then (fst kv,
               {| gpu_id := gpu_id (snd kv); device_name := device_name (snd kv);
                  memory_used := mem; memory_total := memory_total (snd kv);
                  utilization := util; queue_length := qlen;
                  is_available := is_available (snd kv); last_updated := now |})
         else kv) st.

Fixpoint monitor_cycle (readings : Z -> option (Q * Q)) (now : Q)
    (gpus : list Z) (m : t) : t :=
  match gpus with
  | [] => m
  | g :: rest =>
      match dict_get g (gpu_status m) with
      | None => monitor_cycle readings now rest m
      | Some _ =>
          match readings g, gpu_queues m !! g with
          | Some (mem, util), Some q =>
              monitor_cycle readings now rest
                (with_status
                   (refresh g mem util (Z.of_nat (length q)) now (gpu_status m))
                   m)
          | _, _ => m       (* an exception: caught, the cycle is abandoned *)
          end
      end
  end.

Definition _monitor_gpu_status (readings : Z -> option (Q * Q)) (now : Q) (m : t)
  : t :=
  monitor_cycle readings now (map fst (gpu_instances m)) m.

(** [self.gpu_queues[g].qsize()]: the device's pending-work counter. *)
Definition qsize (m : t) (g : Z) : option nat :=
  length <$> (gpu_queues m !! g).

(** How the [try] block of the dispatching generator ended. *)
Inductive ending :=
| Exhausted            (* ran to its end *)
| Closed               (* the consumer closed the generator at a yield *)
| Threw (e : exn).

(** [for result in inner: yield result]: the inner generator's actions are
    passed on until it ends, raises, or the consumer closes the generator
    while it is suspended at yield number [close_at]. *)
Fixpoint forward (close_at : option nat) (inner : list action)
  : list action * ending :=
  match inner with
  | [] => ([], Exhausted)
  | Raise e :: _ => ([], Threw e)
  | Yield r :: rest =>
      match close_at with
      | Some O => ([Yield r], Closed)
      | _ =>
          let '(tr, en) := forward (pred <$> close_at) rest in
          (Yield r :: tr, en)
      end
  | a :: rest =>
      let '(tr, en) := forward close_at rest in
      (a :: tr, en)
  end.

Section Dispatch.

(** [demo_instance.generate_podcast_streaming] on the caller's arguments: the actions
    of the chosen instance's generator; a final [Raise] stands for an
    exception that leaves it. *)
Variable demo_generate : VibeVoiceDemo.t -> list action.
Variable probe : Z -> bool.

(** The [try] block: the state it leaves, [selected_gpu], its actions and
    its ending. *)
Definition try_block (close_at : option nat) (m : t)
  : t * option Z * list action * ending :=
  let '(m1, tr0, sel) := select_best_gpu probe m in
  match sel with
  | Raised e => (m1, None, tr0, Threw e)
  | Ok selected_gpu =>
      if negb (bool_decide (selected_gpu ∈ gpu_locks m1))
      then (m1, Some selected_gpu, tr0, Threw (KeyError selected_gpu))
      else
        match gpu_queues m1 !! selected_gpu with
        | None => (m1, Some selected_gpu, tr0, Threw (KeyError selected_gpu))
        | Some q =>
            let m2 := with_queues (<[selected_gpu := q ++ [1]]> (gpu_queues m1)) m1 in
            let tr1 := tr0 ++ [QueuePut selected_gpu] in
            match dict_get selected_gpu (gpu_instances m2) with
            | None => (m2, Some selected_gpu, tr1, Threw (KeyError selected_gpu))
            | Some demo_instance =>
                let '(tr, en) := forward close_at (demo_generate demo_instance) in
                (m2, Some selected_gpu, tr1 ++ tr, en)
            end
        end
  end.

(** [except Exception as e] *)
Definition except_block (selected_gpu : option Z) (e : exn) (m : t)
  : t * list action :=
  let '(m1, tr) :=
    match selected_gpu with
    | Some g => _handle_gpu_error g m
    | None => (m, [])
    end in
  (m1, tr ++ [Yield (Tuple4 None None (LogGPUFailed e) false)]).

(** [finally] *)
Definition finally_block (selected_gpu : option Z) (m : t) : t * list action :=
  match selected_gpu with
  | None => (m, [])
  | Some g =>
      if negb (bool_decide (g ∈ gpu_locks m))
      then (m, [Raise (KeyError g)])
      else
        match gpu_queues m !! g with
        | None => (m, [Raise (KeyError g)])
        | Some [] => (m, [QueueEmpty g])
        | Some (_ :: q) => (with_queues (<[g := q]> (gpu_queues m)) m, [QueueGet g])
        end
  end.

Definition generate_podcast_streaming_with (close_at : option nat) (m : t)
  : t * list action :=
  let '(m1, selected_gpu, tr1, en) := try_block close_at m in
  let '(m2, tr2) :=
    match en with
    | Threw e => except_block selected_gpu e m1
    | _ => (m1, [])
    end in
  let '(m3, tr3) := finally_block selected_gpu m2 in
  (m3, tr1 ++ tr2 ++ tr3).

End Dispatch.

(** [GPUManager.generate_podcast_streaming(num_speakers, script, ...)] *)
Definition generate_podcast_streaming (probe : Z -> bool)
    (req : VibeVoiceDemo.request) (e : VibeVoiceDemo.env)
    (close_at : option nat) (m : t) : t * list action :=
  generate_podcast_streaming_with
    (fun demo_instance =>
       VibeVoiceDemo.generate_podcast_streaming demo_instance req e)
    probe close_at m.

(** The operations that run against one manager, in some interleaving. *)
Inductive op :=
| OpSelect (probe : Z -> bool)            (* select_best_gpu *)
| OpRecover (probe : Z -> bool)           (* a recovery thread wakes up *)
| OpHandleError (g : Z)                   (* _handle_gpu_error *)
| OpMonitor (readings : Z -> option (Q * Q)) (now : Q)   (* one monitor cycle *)
| OpGenerate (probe : Z -> bool) (req : VibeVoiceDemo.request)
             (e : VibeVoiceDemo.env) (close_at : option nat).

(** The health probes an operation performs. *)
Definition op_probe (o : op) : option (Z -> bool) :=
  match o with
  | OpSelect p | OpRecover p | OpGenerate p _ _ _ => Some p
  | _ => None
  end.

(** One operation: the new state and the device [select_best_gpu] returned,
    when the operation selects one. *)
Definition run_op (o : op) (m : t) : t * option Z :=
  match o with
  | OpSelect p =>
      match select_best_gpu p m with
      | (m1, _, Ok g) => (m1, Some g)
      | (m1, _, Raised _) => (m1, None)
      end
  | OpRecover p => (fst (recover_gpu p m), None)
  | OpHandleError g => (fst (_handle_gpu_error g m), None)
  | OpMonitor r now => (_monitor_gpu_status r now m, None)
  | OpGenerate p req e c =>
      (fst (generate_podcast_streaming p req e c m),
       match select_best_gpu p m with
       | (_, _, Ok g) => Some g
       | _ => None
       end)
  end.

(** A run: the devices selected along it, in order. *)
Fixpoint run_ops (ops : list op) (m : t) : t * list Z :=
  match ops with
  | [] => (m, [])
  | o :: rest =>
      let '(m1, sel) := run_op o m in
      let '(m2, sels) := run_ops rest m1 in
      (m2, match sel with Some g => g :: sels | None => sels end)
  end.

End GPUManager.

(** ** Concrete states used by the examples below *)

Definition mk_status (g : Z) (used total util : Q) (qlen : Z) (avail : bool)
  : Z * GPUStatus :=
  (g, {| gpu_id := g; device_name := lit "GPU"; memory_used := used;
         memory_total := total; utilization := util; queue_length := qlen;
         is_available := avail; last_updated := 0%Q |}).

Definition demo_alice : VibeVoiceDemo.t :=
  {| VibeVoiceDemo.available_voices := [(lit "Alice", lit "voices/Alice.wav")];
     VibeVoiceDemo.inference_steps := 5 |}.

(** A manager over the given status registry, with a queue, a lock and an
    instance for each listed device. *)
Definition mk_manager (st : list (Z * GPUStatus)) (devices : list Z)
  : GPUManager.t :=
  {| GPUManager.gpu_instances := map (fun g => (g, demo_alice)) devices;
     GPUManager.gpu_status := st;
     GPUManager.gpu_queues := list_to_map (map (fun g => (g, [])) devices);
     GPUManager.gpu_locks := list_to_set devices |}.

(** A status whose used memory exceeds its total. *)
Definition over_status : GPUStatus := snd (mk_status 0 2%Q 1%Q 0%Q 0 true).

(** Half of the memory in use. *)
Definition half_status : GPUStatus := snd (mk_status 0 40%Q 80%Q 0%Q 0 true).

(** Devices A, B, C = 0, 1, 2 with scores 5, 2, 9. *)
Definition m_529 : GPUManager.t :=
  mk_manager [mk_status 0 0%Q 80%Q (50 # 3)%Q 0 true;
              mk_status 1 0%Q 80%Q (20 # 3)%Q 0 true;
              mk_status 2 0%Q 80%Q 30%Q 0 true] [0; 1; 2].

(** Devices A, B = 0, 1 with scores 5, 5. *)
Definition m_55 : GPUManager.t :=
  mk_manager [mk_status 0 0%Q 80%Q (50 # 3)%Q 0 true;
              mk_status 1 0%Q 80%Q (50 # 3)%Q 0 true] [0; 1].


(** ** Predicates used in the statements *)

(** The samples an action delivers in the streaming slot of its tuple. *)
Definition streamed_samples (a : action) : list Z :=
  match a with
  | Yield (Tuple4 (Some (_, samples)) _ _ _) => samples
  | _ => []
  end.

(** All audio delivered in the streaming slot, in order. *)
Definition streamed (tr : list action) : list Z := flat_map streamed_samples tr.

(** The samples an action delivers in the complete-audio slot. *)
Definition completed_samples (a : action) : list Z :=
  match a with
  | Yield (Tuple4 _ (Some (_, samples)) _ _) => samples
  | _ => []
  end.

Definition completed (tr : list action) : list Z := flat_map completed_samples tr.

(** The chunks the drain loop takes in: those before the first item at
    which it sees the stop flag set. *)
Fixpoint received (items : list VibeVoiceDemo.stream_item) : list (list Z) :=
  match items with
  | [] => []
  | it :: rest =>
      if VibeVoiceDemo.stop_seen it then []
      else VibeVoiceDemo.chunk it :: received rest
  end.

Definition no_stop_seen (items : list VibeVoiceDemo.stream_item) : Prop :=
  forall it, In it items -> VibeVoiceDemo.stop_seen it = false.

(** The session passes validation, voice loading, the processor and the four
    stop checks that precede the drain loop. *)
Definition starts_streaming (self : VibeVoiceDemo.t)
    (req : VibeVoiceDemo.request) (e : VibeVoiceDemo.env) : Prop :=
  exists names voices,
    VibeVoiceDemo.validate self req = Ok names
    /\ VibeVoiceDemo.load_voices self e names = Ok voices
    /\ VibeVoiceDemo.stop_after_log e = false
    /\ VibeVoiceDemo.stop_after_voices e = false
    /\ VibeVoiceDemo.stop_before_processing e = false
    /\ VibeVoiceDemo.processor_raises e
         (VibeVoiceDemo.formatted_script (VibeVoiceDemo.num_speakers req)
            (replace 8217%N 39%N (VibeVoiceDemo.script req))) = false
    /\ VibeVoiceDemo.stop_after_start e = false.


(** [g] is the first device of [l] whose score is least:
    [l = l1 ++ g :: l2], every device of [l1] scores strictly more than [g]
    and every device of [l2] at least as much. *)
Definition first_min (st : list (Z * GPUStatus)) (l : list Z) (g : Z) : Prop :=
  exists l1 l2 s,
    l = l1 ++ g :: l2 /\ GPUManager.dict_get g st = Some s /\
    (forall g' s', In g' l1 -> GPUManager.dict_get g' st = Some s' ->
                   (GPUManager.total_score s < GPUManager.total_score s')%Q) /\
    (forall g' s', In g' l2 -> GPUManager.dict_get g' st = Some s' ->
                   (GPUManager.total_score s <= GPUManager.total_score s')%Q).

(** The invariant of the scoring loop: [best_gpu], [best_score] are the
    running best of the devices [seen] so far. *)
Definition best_so_far (st : list (Z * GPUStatus)) (seen : list Z)
    (best_gpu : option Z) (best_score : option Q) : Prop :=
  match best_gpu, best_score with
  | None, None => seen = []
  | Some g, Some q =>
      first_min st seen g /\
      exists s, GPUManager.dict_get g st = Some s /\ q = GPUManager.total_score s
  | _, _ => False
  end.

(** Once a chunk was received, it is pending or audio was yielded. *)
Definition drained_ok (st : VibeVoiceDemo.drain_state) : Prop :=
  VibeVoiceDemo.has_received_chunks st = true ->
  VibeVoiceDemo.pending_chunks st <> []
  \/ VibeVoiceDemo.has_yielded_audio st = true.

(** The script's lines as the formatting step sees them: stripped, blank
    ones dropped. *)
Definition script_lines (script : pystr) : list pystr :=
  List.filter VibeVoiceDemo.nonempty (map strip (split 10%N (strip script))).

(** The formatting step in the claim's words: the line at position [k] of
    the output is kept when it has the speaker format and is prefixed with
    [Speaker (k mod num_speakers): ] otherwise. *)
Fixpoint format_from (num_speakers : Z) (k : nat) (ls : list pystr) : list pystr :=
  match ls with
  | [] => []
  | l :: rest =>
      (if VibeVoiceDemo.has_speaker_format l then l
       else lit "Speaker " ++ of_int (Z.of_nat k mod num_speakers) ++ lit ": " ++ l)
      :: format_from num_speakers (S k) rest
  end.

(** A four-line script with a blank line and one line already in speaker
    format. *)
Definition script_demo : pystr :=
  lit "hello" ++ [10%N] ++ lit "Speaker 1: hi" ++ [10%N; 10%N]
      ++ lit "  world  " ++ [10%N] ++ lit "again".

(** Every entry of the registry for device [g] is flagged unavailable. *)
Definition unavailable (g : Z) (m : GPUManager.t) : Prop :=
  forall s, In (g, s) (GPUManager.gpu_status m) -> is_available s = false.

(** Every health probe that the operations [ops] perform fails on [g]. *)
Definition probes_fail (g : Z) (ops : list GPUManager.op) : Prop :=
  forall o p, In o ops -> GPUManager.op_probe o = Some p -> p g = false.

(** The queue operations of a trace. *)
Definition queue_ops (tr : list action) : list action :=
  List.filter (fun a => match a with
                        | QueuePut _ | QueueGet _ | QueueEmpty _ => true
                        | _ => false
                        end) tr.

(** A speaker slot that fails validation. *)
Definition invalid_speaker (self : VibeVoiceDemo.t) (s : option pystr) : Prop :=
  match s with
  | Some (c :: name) =>
      VibeVoiceDemo.voice_get (c :: name) (VibeVoiceDemo.available_voices self) = None
  | _ => True
  end.

(** The request violates one of the three validation rules. *)
Definition violates (self : VibeVoiceDemo.t) (req : VibeVoiceDemo.request) : Prop :=
  strip (VibeVoiceDemo.script req) = []
  \/ VibeVoiceDemo.num_speakers req < 1
  \/ 4 < VibeVoiceDemo.num_speakers req
  \/ exists i s,
       (i < Z.to_nat (VibeVoiceDemo.num_speakers req))%nat
       /\ [VibeVoiceDemo.speaker_1 req; VibeVoiceDemo.speaker_2 req;
           VibeVoiceDemo.speaker_3 req; VibeVoiceDemo.speaker_4 req] !! i = Some s
       /\ invalid_speaker self s.

(** ** Concrete sessions used by the examples below *)

Definition req_hi : VibeVoiceDemo.request :=
  {| VibeVoiceDemo.num_speakers := 1; VibeVoiceDemo.script := lit "hi";
     VibeVoiceDemo.speaker_1 := Some (lit "Alice");
     VibeVoiceDemo.speaker_2 := None; VibeVoiceDemo.speaker_3 := None;
     VibeVoiceDemo.speaker_4 := None; VibeVoiceDemo.cfg_scale := 1.3%Q |}.

(** The same request with an empty script. *)
Definition req_empty : VibeVoiceDemo.request :=
  {| VibeVoiceDemo.num_speakers := 1; VibeVoiceDemo.script := lit "";
     VibeVoiceDemo.speaker_1 := Some (lit "Alice");
     VibeVoiceDemo.speaker_2 := None; VibeVoiceDemo.speaker_3 := None;
     VibeVoiceDemo.speaker_4 := None; VibeVoiceDemo.cfg_scale := 1.3%Q |}.

Definition item (c : list Z) (stop : bool) (now : Q) : VibeVoiceDemo.stream_item :=
  {| VibeVoiceDemo.chunk := c; VibeVoiceDemo.stop_seen := stop;
     VibeVoiceDemo.current_time := now |}.

(** An environment in which the voices load, the processor succeeds, no stop
    is seen before the drain loop and the thread ends within the first join;
    [stop_end] is the flag read after that join. *)
Definition mk_env (items : list VibeVoiceDemo.stream_item) (stop_end : bool)
  : VibeVoiceDemo.env :=
  {| VibeVoiceDemo.stop_after_log := false;
     VibeVoiceDemo.stop_after_voices := false;
     VibeVoiceDemo.stop_before_processing := false;
     VibeVoiceDemo.stop_after_start := false;
     VibeVoiceDemo.stop_at_end := stop_end;
     VibeVoiceDemo.read_audio := fun _ => 1;
     VibeVoiceDemo.processor_raises := fun _ => false;
     VibeVoiceDemo.audio_stream := items;
     VibeVoiceDemo.loop_start_time := 0%Q;
     VibeVoiceDemo.alive_after_join := false |}.

(** No chunk at all. *)
Definition env_empty : VibeVoiceDemo.env := mk_env [] false.

(** Two chunks, no stop. *)
Definition env_two : VibeVoiceDemo.env :=
  mk_env [item [1; 2; 3] false 1%Q; item [4; 5] false 2%Q] false.

(** Stop is set when the first chunk arrives. *)
Definition env_stop_first : VibeVoiceDemo.env :=
  mk_env [item [1; 2; 3] true 1%Q] true.


(** [n] chunks of one second of audio each, arriving one second apart. *)
Definition one_second_chunks (first : nat) (n : nat) : list VibeVoiceDemo.stream_item :=
  map (fun i => item (repeat 0 (Z.to_nat VibeVoiceDemo.sample_rate)) false
                     (inject_Z (Z.of_nat i)))
      (seq first n).

(** For each yielded 4-tuple, the number of samples in its streaming slot
    and in its complete-audio slot ([-1] for [None]). *)
Definition slot_sizes (a : action) : list (Z * Z) :=
  let size (x : option audio) :=
    match x with Some (_, samples) => Z.of_nat (length samples) | None => -1 end in
  match a with
  | Yield (Tuple4 s c _ _) => [(size s, size c)]
  | _ => []
  end.

(** Five speakers requested. *)
Definition req_five : VibeVoiceDemo.request :=
  {| VibeVoiceDemo.num_speakers := 5; VibeVoiceDemo.script := lit "hi";
     VibeVoiceDemo.speaker_1 := Some (lit "Alice");
     VibeVoiceDemo.speaker_2 := None; VibeVoiceDemo.speaker_3 := None;
     VibeVoiceDemo.speaker_4 := None; VibeVoiceDemo.cfg_scale := 1.3%Q |}.

(** One idle device. *)
Definition m_one : GPUManager.t :=
  mk_manager [mk_status 0 0%Q 80%Q 0%Q 0 true] [0].

(** A status with no memory at all, as recorded for a device whose
    initialisation failed. *)
Definition zero_status : GPUStatus := snd (mk_status 0 0%Q 0%Q 0%Q 0 false).

(** Operations during which every health probe fails. *)
Definition ops_demo : list GPUManager.op :=
  [GPUManager.OpSelect (fun _ => false);
   GPUManager.OpMonitor (fun _ => Some (1%Q, 50%Q)) 5%Q;
   GPUManager.OpGenerate (fun _ => false) req_hi env_two None;
   GPUManager.OpRecover (fun _ => false);
   GPUManager.OpSelect (fun _ => false)].

(** ** Start-up of the manager *)

Module Startup.

Import GPUManager.

(** [d[k] = v] on a dict kept as an association list: an existing key keeps
    its place, a new key goes to the end. *)
Fixpoint dict_set {V} (k : Z) (v : V) (d : list (Z * V)) : list (Z * V) :=
  match d with
  | [] => [(k, v)]
  | (k', v') :: d' =>
      if k' =? k then (k', v) :: d' else (k', v') :: dict_set k v d'
  end.

(** The manager before [_initialize_gpus] runs. *)
Definition empty_manager : t :=
  {| gpu_instances := []; gpu_status := []; gpu_queues := ∅; gpu_locks := ∅ |}.

(** [list(range(n))] *)
Definition range (n : Z) : list Z := map Z.of_nat (seq 0 (Z.to_nat n)).

(** The ids of [target_gpu_ids] that name an existing device, in order. *)
Definition valid_targets (gpu_count : Z) (target_gpu_ids : list Z) : list Z :=
  List.filter (fun gpu_id => (0 <=? gpu_id) && (gpu_id <? gpu_count))
              target_gpu_ids.

(** The loop over [target_gpus]. [create i g] is what the [try] block of
    attempt number [i] obtains for device [g]: the device name, the total
    memory and the instance, or [None] when something in it raises;
    [now i] is the clock read in that attempt. *)
Fixpoint init_loop (create : nat -> Z -> option (pystr * Q * VibeVoiceDemo.t))
    (now : nat -> Q) (i : nat) (target_gpus : list Z) (m : t) : t :=
  match target_gpus with
  | [] => m
  | gpu_id :: rest =>
      let m1 :=
        match create i gpu_id with
        | Some (name, memory_total, demo_instance) =>
            {| gpu_instances := dict_set gpu_id demo_instance (gpu_instances m);
               gpu_status :=
                 dict_set gpu_id
                   {| gpu_id := gpu_id; device_name := name;
                      memory_used := 0%Q; memory_total := memory_total;
                      utilization := 0%Q; queue_length := 0;
                      is_available := true; last_updated := now i |}
                   (gpu_status m);
               gpu_queues := <[gpu_id := []]> (gpu_queues m);
               gpu_locks := {[gpu_id]} ∪ gpu_locks m |}
        | None =>
            with_status
              (dict_set gpu_id
                 {| gpu_id := gpu_id;
                    device_name := lit "GPU " ++ of_int gpu_id ++ lit " (Error)";
                    memory_used := 0%Q; memory_total := 0%Q;
                    utilization := 0%Q; queue_length := 0;
                    is_available := false; last_updated := now i |}
                 (gpu_status m))
              m
        end in
      init_loop create now (S i) rest m1
  end.

(** [_initialize_gpus] *)
Definition _initialize_gpus (cuda_available : bool) (gpu_count : Z)
    (target_gpu_ids : option (list Z))
    (create : nat -> Z -> option (pystr * Q * VibeVoiceDemo.t))
    (now : nat -> Q) : outcome t :=
  if negb cuda_available then Raised RuntimeError
  else
    match target_gpu_ids with
    | None => Ok (init_loop create now 0 (range gpu_count) empty_manager)
    | Some ids =>
        match valid_targets gpu_count ids with
        | [] => Raised RuntimeError
        | target_gpus => Ok (init_loop create now 0 target_gpus empty_manager)
        end
    end.

End Startup.

(** The invariant of the manager's four dicts: the registry and the
    instance dict have no repeated key, every device with an instance has a
    lock and a queue, and every device flagged available has an instance. *)
Definition well_formed (m : GPUManager.t) : Prop :=
  NoDup (map fst (GPUManager.gpu_status m))
  /\ NoDup (map fst (GPUManager.gpu_instances m))
  /\ (forall g, In g (map fst (GPUManager.gpu_instances m)) ->
        g ∈ GPUManager.gpu_locks m /\ is_Some (GPUManager.gpu_queues m !! g))
  /\ (forall g s, In (g, s) (GPUManager.gpu_status m) ->
        is_available s = true -> In g (map fst (GPUManager.gpu_instances m))).

(** The part of the invariant that speaks of the registry, for a registry
    [st] against fixed instances. *)
Definition registry_ok (keys : list Z) (st : list (Z * GPUStatus)) : Prop :=
  NoDup (map fst st)
  /\ forall g s, In (g, s) st -> is_available s = true -> In g keys.


(** What an operation leaves alone, and what it keeps. *)
Definition same_frame (m m' : GPUManager.t) : Prop :=
  GPUManager.gpu_instances m' = GPUManager.gpu_instances m
  /\ GPUManager.gpu_locks m' = GPUManager.gpu_locks m
  /\ (forall g, GPUManager.qsize m' g = GPUManager.qsize m g)
  /\ map fst (GPUManager.gpu_status m') = map fst (GPUManager.gpu_status m)
  /\ (registry_ok (map fst (GPUManager.gpu_instances m)) (GPUManager.gpu_status m) ->
      registry_ok (map fst (GPUManager.gpu_instances m)) (GPUManager.gpu_status m')).


(** The actions an instance's generator performs itself. *)
Definition inner_action (a : action) : Prop :=
  match a with
  | Yield _ | ThreadStart | Sleep _ | StreamerEnd | Join _ => True
  | _ => False
  end.

(** The actions of the fault path: marking a device unavailable, clearing
    its cache, starting a recovery thread, or ending by an exception. *)
Definition fault_action (a : action) : Prop :=
  match a with
  | MarkUnavailable _ | EmptyCache _ | SpawnRecovery _ _ | Raise _ => True
  | _ => False
  end.

(** ** Conversion to 16-bit samples and the status display *)

Module Audio.

(** [int(x)] and [x.astype(np.int16)] on a value in range: truncation
    towards zero. *)
Definition Qtrunc (q : Q) : Z := Z.quot (Qnum q) (Zpos (Qden q)).

Definition Qmaxb (a b : Q) : Q := if Qle_bool a b then b else a.

(** [np.max(np.abs(data))]; [None] when the array is empty (NumPy raises
    [ValueError] for the maximum of a zero-size array). *)
Definition max_abs (data : list Q) : option Q :=
  match data with
  | [] => None
  | x :: rest => Some (fold_left (fun m y => Qmaxb m (Qabs y)) rest (Qabs x))
  end.

(** [convert_to_16_bit_wav] on a 1-D array of samples; [None] when it
    raises. *)
Definition convert_to_16_bit_wav (data : list Q) : option (list Z) :=
  match max_abs data with
  | None => None
  | Some peak =>
      let data := if Qltb 1 peak then map (fun x => x / peak)%Q data else data in
      Some (map (fun x => Qtrunc (x * 32767)) data)
  end.

End Audio.

Module Display.



End Display.

(** ** The interface's generation wrapper *)

Module Interface.

(** What an event does to the complete-audio player. *)
Inductive complete_update :=
| CompleteReset                  (* gr.update(value=None, visible=False) *)
| CompleteHidden                 (* gr.update(visible=False) *)
| CompleteVisible (a : audio).     (* gr.update(value=a, visible=True) *)

Inductive wrapper_log :=
| LogStarting                    (* "Starting generation..." *)
| LogFrom (l : log_text)         (* the log of the manager's tuple *)
| LogWrapperError.               (* "A critical error occurred in the wrapper" *)

(** One 6-tuple of [generate_podcast_wrapper], by output component; the
    last three are the [visible] flags. *)
Record ui_event := {
  audio_output : option audio;
  complete_audio_output : complete_update;
  log_output : wrapper_log;
  streaming_status : bool;
  generate_btn : bool;
  stop_btn : bool
}.

Definition start_event : ui_event :=
  {| audio_output := None; complete_audio_output := CompleteReset;
     log_output := LogStarting; streaming_status := true;
     generate_btn := false; stop_btn := true |}.

(** The event of the [except] block. *)
Definition error_event : ui_event :=
  {| audio_output := None; complete_audio_output := CompleteReset;
     log_output := LogWrapperError; streaming_status := false;
     generate_btn := true; stop_btn := false |}.

(** The event for one 4-tuple of the manager's generator. *)
Definition tuple_event (streaming_audio complete_audio : option audio)
    (log : log_text) (streaming_visible : bool) : ui_event :=
  match complete_audio with
  | Some a =>
      {| audio_output := None; complete_audio_output := CompleteVisible a;
         log_output := LogFrom log; streaming_status := false;
         generate_btn := true; stop_btn := false |}
  | None =>
      {| audio_output := streaming_audio; complete_audio_output := CompleteHidden;
         log_output := LogFrom log; streaming_status := streaming_visible;
         generate_btn := false; stop_btn := true |}
  end.

(** The loop over the manager's generator: a 3-tuple cannot be unpacked
    into four names, and an exception leaving the generator is caught just
    the same; either ends the loop with the [except] block's event. *)
Fixpoint wrap (tr : list action) : list ui_event :=
  match tr with
  | [] => []
  | Yield (Tuple4 s c log vis) :: rest => tuple_event s c log vis :: wrap rest
  | Yield (Tuple3 _) :: _ => [error_event]
  | Raise _ :: _ => [error_event]
  | _ :: rest => wrap rest
  end.

(** The same loop on the tuples alone. *)
Fixpoint wrap_results (rs : list result) : list ui_event :=
  match rs with
  | [] => []
  | Tuple4 s c log vis :: rest => tuple_event s c log vis :: wrap_results rest
  | Tuple3 _ :: _ => [error_event]
  end.

(** The position, among the tuples yielded, of the first 3-tuple. *)
Fixpoint first_tuple3 (rs : list result) : option nat :=
  match rs with
  | [] => None
  | Tuple3 _ :: _ => Some 0%nat
  | Tuple4 _ _ _ _ :: rest => S <$> first_tuple3 rest
  end.

(** [generate_podcast_wrapper]: the start event, then the loop over the
    manager's generator, which is abandoned, and so closed, at the first
    3-tuple it yields. The slicing of [speakers_and_params] and
    [int(num_speakers)] are taken not to raise: the interface passes the
    four speaker selections and the scale, and a number. *)
Definition generate_podcast_wrapper (probe : Z -> bool)
    (req : VibeVoiceDemo.request) (e : VibeVoiceDemo.env) (m : GPUManager.t)
  : GPUManager.t * list ui_event :=
  let free := GPUManager.generate_podcast_streaming probe req e None m in
  let close_at := first_tuple3 (yields free.2) in
  let r := GPUManager.generate_podcast_streaming probe req e close_at m in
  (r.1, start_event :: wrap r.2).

End Interface.

(** The session ends at one of the four stop checks that precede the drain
    loop. *)
Definition stopped_early (self : VibeVoiceDemo.t) (req : VibeVoiceDemo.request)
    (e : VibeVoiceDemo.env) : Prop :=
  exists names,
    VibeVoiceDemo.validate self req = Ok names
    /\ (VibeVoiceDemo.stop_after_log e = true
        \/ exists voices,
             VibeVoiceDemo.load_voices self e names = Ok voices
             /\ (VibeVoiceDemo.stop_after_voices e = true
                 \/ VibeVoiceDemo.stop_before_processing e = true
                 \/ (VibeVoiceDemo.processor_raises e
                       (VibeVoiceDemo.formatted_script
                          (VibeVoiceDemo.num_speakers req)
                          (replace 8217%N 39%N (VibeVoiceDemo.script req)))
                     = false
                     /\ VibeVoiceDemo.stop_after_start e = true))).

(** Every tuple of the list is a 4-tuple. *)
Definition all_tuple4 (rs : list result) : Prop :=
  forall r, In r rs -> exists s c log vis, r = Tuple4 s c log vis.

(** An event of a running session: the generate button hidden, the stop
    button shown, the complete-audio player hidden. *)
Definition running_event (ev : Interface.ui_event) : Prop :=
  Interface.generate_btn ev = false
  /\ Interface.stop_btn ev = true
  /\ Interface.complete_audio_output ev = Interface.CompleteHidden.

(** An action of the instance's generator that is no tuple with complete
    audio and no 3-tuple. *)
Definition progress_action (a : action) : Prop :=
  match a with
  | Yield (Tuple4 _ None _ _) | ThreadStart | Sleep _ | StreamerEnd | Join _ => True
  | _ => False
  end.

(** ** Example scripts *)

Module Examples.

Section Matcher.

(** [re.match(r'^Speaker\s+(\d+)\s*:', s, re.IGNORECASE)] followed by
    [int(match.group(1))]: the speaker id a line announces, if any. *)
Variable speaker_id : pystr -> option Z.

(** The ids added to the set [speakers], in the order of the lines. *)
Definition speaker_ids (script : pystr) : list Z :=
  omap (fun line => speaker_id (strip line)) (split 10%N (strip script)).

(** [_get_num_speakers_from_script] *)
Definition _get_num_speakers_from_script (script : pystr) : Z :=
  let found := speaker_ids script in
  let speakers : gset Z := list_to_set found in
  match found with
  | [] => 1
  | x :: xs =>
      let max_speaker := fold_right Z.max x xs in
      let min_speaker := fold_right Z.min x xs in
      if min_speaker =? 0 then max_speaker + 1
      else Z.of_nat (size speakers)
  end.

(** A [.txt] file of the examples directory. *)
Record example_file := {
  (* int(group(1)) of re.search(r'(\d+)min', name.lower()), if it matches *)
  file_minutes : option Z;
  (* f.read(); None when opening, reading or decoding raises *)
  file_content : option pystr
}.

(** The content stripped, and then its blank lines dropped. *)
Definition clean_script (content : pystr) : pystr :=
  join 10%N
    (List.filter (fun line => VibeVoiceDemo.nonempty (strip line))
                 (split 10%N (strip content))).

(** The loop over [txt_files], the sorted listing. *)
Fixpoint load_loop (txt_files : list example_file)
    (example_scripts : list (Z * pystr)) : list (Z * pystr) :=
  match txt_files with
  | [] => example_scripts
  | f :: rest =>
      let too_long :=
        match file_minutes f with
        | Some minutes => 15 <? minutes
        | None => false
        end in
      if too_long then load_loop rest example_scripts
      else
        match file_content f with
        | None => load_loop rest example_scripts
        | Some content =>
            match clean_script content with
            | [] => load_loop rest example_scripts
            | script_content =>
                let num_speakers :=
                  _get_num_speakers_from_script script_content in
                load_loop rest
                  (example_scripts ++ [(num_speakers, script_content)])
            end
        end
  end.

(** [load_example_scripts]: the value of [self.example_scripts] after it. *)
Definition load_example_scripts (examples_dir_exists : bool)
    (txt_files : list example_file) : list (Z * pystr) :=
  if negb examples_dir_exists then [] else load_loop txt_files [].

End Matcher.

End Examples.

(** [f] applied to the first element of a list. *)
Definition map_hd {A} (f : A -> A) (l : list A) : list A :=
  match l with
  | [] => []
  | x :: l' => f x :: l'
  end.

(** [f] applied to the last element of a list. *)
Definition map_last {A} (f : A -> A) (l : list A) : list A :=
  rev (map_hd f (rev l)).

(** A line with something other than whitespace on it. *)
Definition nonblank (line : pystr) : bool := VibeVoiceDemo.nonempty (strip line).

(** ** Concrete inputs for start-up, monitoring, the wrapper and the examples *)


(** Device 1 fails to initialise. *)
Definition create_but_1 : nat -> Z -> option (pystr * Q * VibeVoiceDemo.t) :=
  fun _ g => if g =? 1 then None else Some (lit "A100", 80%Q, demo_alice).

Definition clock0 : nat -> Q := fun _ => 0%Q.

(** One device, flagged unavailable. *)
Definition m_down : GPUManager.t :=
  mk_manager [mk_status 0 0%Q 80%Q 0%Q 0 false] [0].

(** Measurements that fail on device 1. *)
Definition readings_but_1 : Z -> option (Q * Q) :=
  fun g => if g =? 1 then None else Some (1%Q, 50%Q).

(** Stop is set before the voices are loaded. *)
Definition env_stop_early : VibeVoiceDemo.env :=
  {| VibeVoiceDemo.stop_after_log := true;
     VibeVoiceDemo.stop_after_voices := false;
     VibeVoiceDemo.stop_before_processing := false;
     VibeVoiceDemo.stop_after_start := false;
     VibeVoiceDemo.stop_at_end := false;
     VibeVoiceDemo.read_audio := fun _ => 1;
     VibeVoiceDemo.processor_raises := fun _ => false;
     VibeVoiceDemo.audio_stream := [];
     VibeVoiceDemo.loop_start_time := 0%Q;
     VibeVoiceDemo.alive_after_join := false |}.

(** The speaker pattern on lines that begin with [Speaker 0:] or
    [Speaker 1:]. *)
Definition speaker_0_or_1 (s : pystr) : option Z :=
  if startswith (lit "Speaker 0:") s then Some 0
  else if startswith (lit "Speaker 1:") s then Some 1
  else None.

(** A 45-minute example, skipped, and a short one with a blank line. *)
Definition files_demo : list Examples.example_file :=
  [ {| Examples.file_minutes := Some 45;
       Examples.file_content := Some (lit "Speaker 0: long") |};
    {| Examples.file_minutes := None;
       Examples.file_content :=
         Some (lit "Speaker 0: hi" ++ [10%N; 10%N] ++ lit "Speaker 1: yo") |} ].

(** * Properties *)

(** ** Order on scores *)

Lemma Qltb_true a b : Qltb a b = true <-> (a < b)%Q.
Proof.
  unfold Qltb. rewrite negb_true_iff. split.
  - intros H. apply Qnot_le_lt. intros Hle. apply Qle_bool_iff in Hle. congruence.
  - intros H. destruct (Qle_bool b a) eqn:E; [|done].
    apply Qle_bool_iff in E. exfalso. eapply Qlt_not_le; eauto.
Qed.

Lemma Qltb_false a b : Qltb a b = false <-> (b <= a)%Q.
Proof. unfold Qltb. rewrite negb_false_iff. apply Qle_bool_iff. Qed.

(** ** Usage percentage *)

(** C9, as the claim states it, fails: a status record whose used memory is
    twice its total has a usage percentage of 200. *)
Lemma memory_usage_percent_over :
  (memory_usage_percent over_status == 200)%Q /\
  ~ (memory_usage_percent over_status <= 100)%Q.
Proof. split; [reflexivity | intros H; vm_compute in H; congruence]. Qed.

(** C9 (amended): for every status with [0 <= memory_used <= memory_total]
    the usage percentage lies in [0,100]; for every status whose total
    memory is 0 the usage percentage is 0. *)
Theorem memory_usage_percent_range (s : GPUStatus) :
  ((0 <= memory_used s)%Q -> (memory_used s <= memory_total s)%Q ->
   (0 <= memory_usage_percent s)%Q /\ (memory_usage_percent s <= 100)%Q)
  /\ ((memory_total s == 0)%Q -> memory_usage_percent s = 0%Q).
Proof.
  split.
  - intros H0 H1. unfold memory_usage_percent.
    destruct (Qltb 0 (memory_total s)) eqn:E.
    + apply Qltb_true in E. split.
      * apply Qmult_le_0_compat; [|discriminate].
        apply Qle_shift_div_l; [done|]. by rewrite Qmult_0_l.
      * apply Qle_trans with (1 * 100)%Q; [|discriminate].
        apply Qmult_le_compat_r; [|discriminate].
        apply Qle_shift_div_r; [done|]. by rewrite Qmult_1_l.
    + split; discriminate.
  - intros Ht. unfold memory_usage_percent.
    destruct (Qltb 0 (memory_total s)) eqn:E; [|done].
    apply Qltb_true in E. rewrite Ht in E. discriminate.
Qed.

Lemma memory_usage_percent_range_witness :
  ((0 <= memory_usage_percent half_status)%Q /\
   (memory_usage_percent half_status <= 100)%Q)
  /\ memory_usage_percent zero_status = 0%Q.
Proof.
  split.
  - apply (proj1 (memory_usage_percent_range half_status)); discriminate.
  - apply (proj2 (memory_usage_percent_range zero_status)); reflexivity.
Defined.

(** ** Device selection *)

Section Scoring.

Import GPUManager.
Variable st : list (Z * GPUStatus).

Lemma best_loop_first_min gpus :
  forall seen best_gpu best_score,
    (forall g, In g gpus -> is_Some (dict_get g st)) ->
    best_so_far st seen best_gpu best_score ->
    exists r, best_loop st gpus best_gpu best_score = Ok r /\
      match r with
      | None => seen ++ gpus = []
      | Some g => first_min st (seen ++ gpus) g
      end.
Proof.
  induction gpus as [|g rest IH]; intros seen best_gpu best_score Hkeys Hinv.
  - exists best_gpu. split; [done|]. rewrite app_nil_r.
    destruct best_gpu, best_score; simpl in Hinv; try done. by destruct Hinv.
  - destruct (Hkeys g) as [status Hst]; [by left|].
    simpl. rewrite Hst.
    replace (seen ++ g :: rest) with ((seen ++ [g]) ++ rest)
      by (by rewrite <- app_assoc).
    destruct (score_lt (total_score status) best_score) eqn:Hlt.
    + apply IH; [intros; apply Hkeys; by right|].
      simpl. split; [|eauto].
      exists seen, [], status. split; [done|]. split; [done|].
      split; [|intros ? ? []].
      intros g' s' Hin Hg'.
      destruct best_gpu as [b|], best_score as [q|]; simpl in Hinv; try done;
        [|subst; destruct Hin].
      destruct Hinv as [(l1 & l2 & sb & -> & Hb & Hl1 & Hl2) (sb' & Hb' & ->)].
      assert (sb' = sb) by congruence. subst sb'.
      simpl in Hlt. apply Qltb_true in Hlt.
      apply in_app_or in Hin. destruct Hin as [Hin|[<-|Hin]].
      * eapply Qlt_trans; [exact Hlt|]. eauto.
      * assert (s' = sb) by congruence. by subst.
      * eapply Qlt_le_trans; [exact Hlt|]. eauto.
    + destruct best_gpu as [b|], best_score as [q|]; simpl in Hinv, Hlt; try done.
      apply IH; [intros; apply Hkeys; by right|].
      destruct Hinv as [(l1 & l2 & sb & -> & Hb & Hl1 & Hl2) (sb' & Hb' & ->)].
      assert (sb' = sb) by congruence. subst sb'.
      apply Qltb_false in Hlt.
      simpl. split; [|eauto].
      exists l1, (l2 ++ [g]), sb. split; [by rewrite <- app_assoc|].
      split; [done|]. split; [done|].
      intros g' s' Hin Hg'. apply in_app_or in Hin. destruct Hin as [Hin|[<-|[]]].
      * eauto.
      * assert (s' = status) by congruence. by subst.
Qed.

End Scoring.

Lemma dict_get_in_keys {V} k (d : list (Z * V)) :
  In k (map fst d) -> is_Some (GPUManager.dict_get k d).
Proof.
  induction d as [|[k' v] d IH]; simpl; [done|].
  intros H. destruct (k' =? k) eqn:E; [eauto|].
  destruct H as [->|H]; [lia|auto].
Qed.

Lemma available_gpus_keys m g :
  In g (GPUManager.available_gpus m) -> In g (map fst (GPUManager.gpu_status m)).
Proof.
  unfold GPUManager.available_gpus. rewrite !in_map_iff.
  intros ([k s] & <- & Hin). apply filter_In in Hin. exists (k, s). tauto.
Qed.




(** The spec's two examples: with scores 5, 2, 9 on devices 0, 1, 2 the
    scheduler picks device 1, and with scores 5, 5 on devices 0, 1 it picks
    device 0. *)
Example scores_529 :
  map (fun kv => Qred (GPUManager.total_score (snd kv)))
      (GPUManager.gpu_status m_529) = [5%Q; 2%Q; 9%Q].
Proof. reflexivity. Qed.

Example select_best_gpu_529 :
  snd (GPUManager.select_best_gpu (fun _ => true) m_529) = Ok 1.
Proof. reflexivity. Qed.

Example select_best_gpu_55 :
  snd (GPUManager.select_best_gpu (fun _ => true) m_55) = Ok 0.
Proof. reflexivity. Qed.




(** ** The drain loop and the flush policy *)

Section Drain.

Import VibeVoiceDemo.

Lemma sum_len_app a b : sum_len (a ++ b) = sum_len a + sum_len b.
Proof. induction a as [|c a IH]; simpl; lia. Qed.

Lemma sum_len_nonneg a : 0 <= sum_len a.
Proof. induction a as [|c a IH]; simpl; lia. Qed.

Lemma sum_len_concat a : sum_len a = Z.of_nat (length (concat a)).
Proof.
  induction a as [|c a IH]; simpl; [done|].
  rewrite length_app. lia.
Qed.

Lemma streamed_app a b : streamed (a ++ b) = streamed a ++ streamed b.
Proof. apply flat_map_app. Qed.

Lemma completed_app a b : completed (a ++ b) = completed a ++ completed b.
Proof. apply flat_map_app. Qed.

Lemma received_no_stop items :
  no_stop_seen items -> received items = map chunk items.
Proof.
  induction items as [|it rest IH]; simpl; [done|].
  intros H. rewrite (H it) by (by left). f_equal. apply IH.
  intros x Hx. apply H. by right.
Qed.


(** What one iteration does to the loop variables and to the caller. *)
Lemma drain_step_spec st it :
  let st' := fst (drain_step st it) in
  let tr := snd (drain_step st it) in
  all_audio_chunks st' = all_audio_chunks st ++ [chunk it]
  /\ streamed tr ++ concat (pending_chunks st')
     = concat (pending_chunks st) ++ chunk it
  /\ completed tr = []
  /\ chunk_count st' = chunk_count st + 1
  /\ has_received_chunks st' = true
  /\ (has_yielded_audio st = true -> has_yielded_audio st' = true)
  /\ (pending_chunks st' <> [] \/ has_yielded_audio st' = true).
Proof.
  unfold drain_step.
  set (pending := pending_chunks st ++ [chunk it]).
  assert (Hne : nonempty pending = true).
  { subst pending. by destruct (pending_chunks st). }
  assert (Hc : concat pending = concat (pending_chunks st) ++ chunk it).
  { subst pending. rewrite concat_app. simpl. by rewrite app_nil_r. }
  assert (Hp : pending <> []).
  { subst pending. by destruct (pending_chunks st). }
  destruct (has_yielded_audio st) eqn:Hy; simpl;
    destruct (min_chunk_size <=? sum_len pending) eqn:Hs; simpl;
    try destruct (Qle_bool _ _) eqn:Hq; simpl;
    rewrite ?Hne; simpl; rewrite ?app_nil_r; auto 10.
Qed.

(** The same for the whole loop: every chunk taken in is either already
    streamed or still pending, in order. *)
Lemma drain_loop_spec items : forall st,
  let st' := fst (drain_loop st items) in
  let tr := snd (drain_loop st items) in
  all_audio_chunks st' = all_audio_chunks st ++ received items
  /\ streamed tr ++ concat (pending_chunks st')
     = concat (pending_chunks st) ++ concat (received items)
  /\ completed tr = []
  /\ chunk_count st' = chunk_count st + Z.of_nat (length (received items))
  /\ (has_received_chunks st' = has_received_chunks st || nonempty (received items))
  /\ (has_yielded_audio st = true -> has_yielded_audio st' = true)
  /\ (drained_ok st -> drained_ok st').
Proof.
  induction items as [|it rest IH]; intros st; simpl.
  - rewrite !app_nil_r, orb_false_r. split_and!; auto; lia.
  - destruct (stop_seen it); simpl.
    + rewrite !app_nil_r, orb_false_r. split_and!; auto; lia.
    + pose proof (drain_step_spec st it) as Hstep.
      destruct (drain_step st it) as [st1 tr1]. simpl in Hstep.
      specialize (IH st1).
      destruct (drain_loop st1 rest) as [st2 tr2]. simpl in IH |- *.
      destruct Hstep as (Ha & Hs & Hc & Hn & Hr & Hy & Hp).
      destruct IH as (Ha' & Hs' & Hc' & Hn' & Hr' & Hy' & Hp').
      split_and!.
      * rewrite Ha', Ha, <- app_assoc. done.
      * rewrite streamed_app, <- app_assoc, Hs', app_assoc, Hs, <- app_assoc. done.
      * by rewrite completed_app, Hc, Hc'.
      * lia.
      * by rewrite Hr', Hr, orb_true_r.
      * auto.
      * intros _. apply Hp'. intros _. exact Hp.
Qed.

Lemma drain_loop_app l1 : forall st l2,
  no_stop_seen l1 ->
  drain_loop st (l1 ++ l2) =
    let '(st1, tr1) := drain_loop st l1 in
    let '(st2, tr2) := drain_loop st1 l2 in
    (st2, tr1 ++ tr2).
Proof.
  induction l1 as [|it l1 IH]; intros st l2 Hns; simpl.
  - by destruct (drain_loop st l2).
  - rewrite (Hns it) by (by left).
    destruct (drain_step st it) as [st1 tr1].
    rewrite IH by (intros x Hx; apply Hns; by right).
    destruct (drain_loop st1 l1) as [st2 tr2].
    destruct (drain_loop st2 l2) as [st3 tr3].
    by rewrite app_assoc.
Qed.

(** Below the threshold, and before any flush, nothing is yielded,
    whatever the clock says. *)
Lemma drain_loop_below items : forall st,
  has_yielded_audio st = false ->
  no_stop_seen items ->
  sum_len (pending_chunks st) + sum_len (map chunk items) < min_chunk_size ->
  snd (drain_loop st items) = []
  /\ pending_chunks (fst (drain_loop st items))
     = pending_chunks st ++ map chunk items
  /\ all_audio_chunks (fst (drain_loop st items))
     = all_audio_chunks st ++ map chunk items
  /\ chunk_count (fst (drain_loop st items))
     = chunk_count st + Z.of_nat (length items)
  /\ has_yielded_audio (fst (drain_loop st items)) = false.
Proof.
  induction items as [|it rest IH]; intros st Hy Hns Hlt.
  - simpl. rewrite !app_nil_r. split_and!; auto; lia.
  - simpl in Hlt |- *. rewrite (Hns it) by (by left).
    pose proof (sum_len_nonneg (map chunk rest)) as Hnn.
    unfold drain_step. rewrite Hy. simpl.
    assert (Hb : (min_chunk_size <=? sum_len (pending_chunks st ++ [chunk it])) = false).
    { apply Z.leb_gt. rewrite sum_len_app. simpl. lia. }
    rewrite Hb. simpl.
    match goal with |- context [drain_loop ?s rest] => specialize (IH s) end.
    simpl in IH. rewrite sum_len_app in IH. simpl in IH.
    destruct IH as (Ht & Hp & Ha & Hc & Hy'); [done| |lia|].
    { intros x Hx. apply Hns. by right. }
    destruct (drain_loop _ rest) as [st2 tr2]. simpl in *.
    rewrite Ht, Hp, Ha, Hc, <- !app_assoc. split_and!; auto; lia.
Qed.

Lemma finalize_streamed e st :
  streamed (finalize e st) = concat (pending_chunks st).
Proof.
  unfold finalize.
  destruct (pending_chunks st) as [|c cs] eqn:Hp; simpl;
    destruct (alive_after_join e), (stop_at_end e), (has_received_chunks st),
      (has_yielded_audio st), (nonempty (all_audio_chunks st));
    simpl; rewrite ?app_nil_r; done.
Qed.

Lemma stream_session_streamed e :
  streamed (stream_session e) = concat (received (audio_stream e)).
Proof.
  unfold stream_session.
  pose proof (drain_loop_spec (audio_stream e)
                (initial_drain_state (loop_start_time e))) as H.
  destruct (drain_loop _ _) as [st tr]. simpl in H.
  destruct H as (_ & Hs & _).
  by rewrite streamed_app, finalize_streamed, Hs.
Qed.

Lemma stream_session_completed e :
  completed (stream_session e)
  = if stop_at_end e then [] else concat (received (audio_stream e)).
Proof.
  unfold stream_session.
  pose proof (drain_loop_spec (audio_stream e)
                (initial_drain_state (loop_start_time e))) as H.
  destruct (drain_loop _ _) as [st tr]. simpl in H.
  destruct H as (Ha & _ & Hc & _ & Hr & _ & Hd).
  rewrite completed_app, Hc. simpl.
  specialize (Hd ltac:(done)).
  unfold finalize, drained_ok in *. rewrite Hr, Ha in *.
  destruct (received (audio_stream e)) as [|c cs] eqn:Hrec; simpl in *.
  - destruct (nonempty (pending_chunks st)), (alive_after_join e),
      (stop_at_end e), (has_yielded_audio st); simpl; done.
  - destruct Hd as [Hd|Hd]; [done| |].
    + destruct (pending_chunks st); [done|]. simpl.
      destruct (alive_after_join e), (stop_at_end e); simpl;
        rewrite ?app_nil_r; done.
    + rewrite Hd.
      destruct (nonempty (pending_chunks st)), (alive_after_join e),
        (stop_at_end e); simpl; rewrite ?app_nil_r; done.
Qed.

(** A session that passes the checks before the drain loop starts the
    thread, sleeps one second and then drains and finalises. *)
Lemma generate_streaming self req e :
  starts_streaming self req e ->
  generate_podcast_streaming self req e
  = [ThreadStart; Sleep 1%Q] ++ stream_session e.
Proof.
  intros (names & voices & Hv & Hl & H1 & H2 & H3 & Hp & H4).
  unfold generate_podcast_streaming, body.
  by rewrite Hv, H1, Hl, H2, H3, Hp, H4.
Qed.

Lemma starts_streaming_alice items stop_end :
  starts_streaming demo_alice req_hi (mk_env items stop_end).
Proof. exists [lit "Alice"], [1]. vm_compute. split_and!; reflexivity. Qed.

Lemma one_second_chunks_no_stop first n : no_stop_seen (one_second_chunks first n).
Proof.
  intros it Hin. unfold one_second_chunks in Hin.
  apply in_map_iff in Hin. by destruct Hin as (i & <- & _).
Qed.

End Drain.

Section Streaming.

Import VibeVoiceDemo.

(** The spec's scenario: 40 one-second chunks, one second apart.  The first
    flush comes with the 30th chunk and carries 30 seconds of audio; the
    remaining 10 seconds are flushed when the stream ends, and the last
    tuple carries the complete audio. *)
Example forty_chunks_29 :
  snd (drain_loop (initial_drain_state 0%Q) (one_second_chunks 1 29)) = [].
Proof. vm_compute. reflexivity. Qed.

Example forty_chunks_30 :
  flat_map slot_sizes
    (snd (drain_loop (initial_drain_state 0%Q) (one_second_chunks 1 30)))
  = [(720000, -1)].
Proof. vm_compute. reflexivity. Qed.

Example forty_chunks_session :
  flat_map slot_sizes (stream_session (mk_env (one_second_chunks 1 40) false))
  = [(720000, -1); (240000, -1); (-1, 960000)].
Proof. vm_compute. reflexivity. Qed.

(** C5: in the drain loop, as long as the chunks received so far hold less
    than [min_chunk_size] samples (30 seconds at the sample rate) nothing is
    yielded, whatever the arrival times; and the chunk with which the
    pending buffer first reaches [min_chunk_size] triggers the first flush,
    which carries every chunk received so far. *)
Theorem first_flush_at_threshold now items it rest :
  no_stop_seen (items ++ [it]) ->
  sum_len (map chunk items) < min_chunk_size ->
  min_chunk_size <= sum_len (map chunk (items ++ [it])) ->
  snd (drain_loop (initial_drain_state now) items) = []
  /\ exists tr,
       snd (drain_loop (initial_drain_state now) (items ++ it :: rest))
       = Yield (Tuple4 (Some (sample_rate, concat (map chunk (items ++ [it]))))
                       None
                       (LogStreaming (sum_len (map chunk (items ++ [it])))
                                     (Z.of_nat (length items) + 1))
                       true) :: tr.
Proof.
  intros Hns Hlt Hge.
  assert (Hns1 : no_stop_seen items).
  { intros x Hx. apply Hns. apply in_or_app. by left. }
  assert (Hit : stop_seen it = false).
  { apply Hns. apply in_or_app. right. by left. }
  destruct (drain_loop_below items (initial_drain_state now))
    as (Ht & Hp & Ha & Hc & Hy); [done|done|simpl; lia|].
  split; [done|].
  rewrite drain_loop_app by done.
  destruct (drain_loop (initial_drain_state now) items) as [st1 tr1].
  simpl in Ht, Hp, Ha, Hc, Hy. subst tr1.
  simpl. rewrite Hit. unfold drain_step. rewrite Hy, Hp, Ha, Hc. simpl.
  rewrite map_app in Hge. simpl in Hge.
  apply Z.leb_le in Hge. rewrite Hge. simpl.
  assert (Hne : nonempty (map chunk items ++ [chunk it]) = true).
  { by destruct (map chunk items). }
  rewrite Hne.
  destruct (drain_loop _ rest) as [st2 tr2]. simpl.
  rewrite map_app. simpl. eauto.
Qed.

Lemma first_flush_at_threshold_witness :
  snd (drain_loop (initial_drain_state 0%Q) (one_second_chunks 1 29)) = []
  /\ exists tr,
       snd (drain_loop (initial_drain_state 0%Q)
              (one_second_chunks 1 29
                 ++ item (repeat 0 (Z.to_nat sample_rate)) false 30%Q
                 :: one_second_chunks 31 10))
       = Yield (Tuple4
                  (Some (sample_rate,
                         concat (map chunk
                                   (one_second_chunks 1 29
                                      ++ [item (repeat 0 (Z.to_nat sample_rate))
                                               false 30%Q]))))
                  None
                  (LogStreaming
                     (sum_len (map chunk
                                 (one_second_chunks 1 29
                                    ++ [item (repeat 0 (Z.to_nat sample_rate))
                                             false 30%Q])))
                     (Z.of_nat (length (one_second_chunks 1 29)) + 1))
                  true) :: tr.
Proof.
  apply (first_flush_at_threshold 0%Q (one_second_chunks 1 29)
           (item (repeat 0 (Z.to_nat sample_rate)) false 30%Q)
           (one_second_chunks 31 10)).
  - intros x Hx. apply in_app_or in Hx. destruct Hx as [Hx|[<-|[]]].
    + exact (one_second_chunks_no_stop 1 29 x Hx).
    + reflexivity.
  - vm_compute. reflexivity.
  - vm_compute. discriminate.
Defined.

(** C1, as the claim states it, fails: when the stop flag is set as the
    first chunk arrives, that chunk (3 samples) is taken from the stream and
    dropped; nothing is delivered in either audio slot. *)
Lemma stopped_session_drops_chunk :
  streamed (generate_podcast_streaming demo_alice req_hi env_stop_first) = []
  /\ completed (generate_podcast_streaming demo_alice req_hi env_stop_first) = []
  /\ sum_len (map chunk (audio_stream env_stop_first)) = 3.
Proof. vm_compute. split_and!; reflexivity. Qed.

(** C1 (amended): in every session that reaches the drain loop, the audio
    delivered in the streaming slot (the incremental flushes and the flush
    of the remaining buffer after the loop) is, in order and each sample
    once, the audio of the chunks the loop took in before it saw the stop
    flag; when the loop never sees the flag that is the audio of all chunks
    of the stream. The complete-audio slot carries the same audio once more
    in the last tuple, unless the flag is set after the final join. *)
Theorem streamed_audio_exactly_once self req e :
  starts_streaming self req e ->
  streamed (generate_podcast_streaming self req e)
  = concat (received (audio_stream e))
  /\ (no_stop_seen (audio_stream e) ->
      streamed (generate_podcast_streaming self req e)
      = concat (map chunk (audio_stream e))
      /\ Z.of_nat (length (streamed (generate_podcast_streaming self req e)))
         = sum_len (map chunk (audio_stream e)))
  /\ completed (generate_podcast_streaming self req e)
     = if stop_at_end e then [] else concat (received (audio_stream e)).
Proof.
  intros Hs. rewrite (generate_streaming _ _ _ Hs).
  rewrite streamed_app, completed_app. simpl.
  rewrite stream_session_streamed, stream_session_completed.
  split_and!; [done| |done].
  intros Hns. rewrite (received_no_stop _ Hns).
  by rewrite sum_len_concat.
Qed.

Lemma streamed_audio_exactly_once_witness :
  streamed (generate_podcast_streaming demo_alice req_hi env_two)
  = [1; 2; 3; 4; 5].
Proof.
  exact (proj1 (streamed_audio_exactly_once demo_alice req_hi env_two
                  (starts_streaming_alice _ _))).
Defined.

(** C7: a session that reaches the drain loop, receives no chunk and sees
    no stop flag after the final join yields exactly one tuple: the
    "No audio chunks were received" error, with no audio in either slot. *)
Theorem no_chunks_is_an_error self req e :
  starts_streaming self req e ->
  audio_stream e = [] ->
  stop_at_end e = false ->
  yields (generate_podcast_streaming self req e)
  = [Tuple4 None None LogNoChunks false].
Proof.
  intros Hs Hnil Hstop. rewrite (generate_streaming _ _ _ Hs).
  unfold stream_session, finalize. rewrite Hnil, Hstop. simpl.
  by destruct (alive_after_join e).
Qed.

Lemma no_chunks_is_an_error_witness :
  yields (generate_podcast_streaming demo_alice req_hi env_empty)
  = [Tuple4 None None LogNoChunks false].
Proof.
  apply (no_chunks_is_an_error demo_alice req_hi env_empty).
  - apply starts_streaming_alice.
  - reflexivity.
  - reflexivity.
Defined.




End Streaming.

(** ** Script formatting *)

Section Formatting.

Import VibeVoiceDemo.

Lemma format_loop_spec n lines : forall acc,
  format_loop n lines acc
  = acc ++ format_from n (length acc)
             (List.filter nonempty (map strip lines)).
Proof.
  induction lines as [|line rest IH]; intros acc; simpl.
  - by rewrite app_nil_r.
  - destruct (strip line) as [|c l] eqn:Hs; simpl; [apply IH|].
    destruct (has_speaker_format (c :: l)) eqn:Hf; rewrite IH, length_app;
      simpl; rewrite <- app_assoc; simpl;
      replace (length acc + 1)%nat with (S (length acc)) by lia; done.
Qed.

Lemma startswith_app p s : startswith p (p ++ s) = true.
Proof. induction p as [|a p IH]; simpl; [done|]. by rewrite N.eqb_refl. Qed.

Lemma contains_app c a b : contains c (a ++ b) = contains c a || contains c b.
Proof. apply existsb_app. Qed.

Lemma format_from_length n ls : forall k, length (format_from n k ls) = length ls.
Proof. induction ls as [|l ls IH]; intros k; simpl; [done|]. by rewrite IH. Qed.

Lemma format_from_lookup n ls : forall k i l,
  ls !! i = Some l ->
  format_from n k ls !! i
  = Some (if has_speaker_format l then l
          else lit "Speaker " ++ of_int (Z.of_nat (k + i) mod n) ++ lit ": " ++ l).
Proof.
  induction ls as [|x ls IH]; intros k i l Hl; [done|].
  destruct i as [|i]; simpl in *.
  - injection Hl as ->. by rewrite Nat.add_0_r.
  - rewrite (IH (S k) i l Hl). by replace (S k + i)%nat with (k + S i)%nat by lia.
Qed.

Lemma format_from_prefixed n ls : forall k line,
  In line (format_from n k ls) ->
  startswith (lit "Speaker ") line = true /\ contains 58%N line = true.
Proof.
  induction ls as [|x ls IH]; intros k line Hin; cbn [format_from In] in Hin;
    [done|].
  destruct Hin as [<-|Hin]; [|eauto].
  destruct (has_speaker_format x) eqn:Hf.
  - unfold has_speaker_format in Hf. by apply andb_true_iff in Hf.
  - split; [apply startswith_app|].
    rewrite !contains_app.
    replace (contains 58%N (lit ": ")) with true by reflexivity.
    by rewrite !orb_true_r.
Qed.

Lemma contains_false_iff c s : contains c s = false <-> ~ In c s.
Proof.
  unfold contains. split.
  - intros H Hin. assert (existsb (N.eqb c) s = true); [|congruence].
    apply existsb_exists. exists c. split; [done|apply N.eqb_refl].
  - intros H. destruct (existsb (N.eqb c) s) eqn:E; [|done].
    apply existsb_exists in E. destruct E as (x & Hx & Heq).
    apply N.eqb_eq in Heq. by subst.
Qed.

Lemma split_nosep sep l : ~ In sep l -> split sep l = [l].
Proof.
  induction l as [|c l IH]; intros H; simpl; [done|].
  destruct (N.eqb_spec c sep) as [->|Hne]; [exfalso; apply H; by left|].
  rewrite IH; [done|]. intros Hin. apply H. by right.
Qed.

Lemma split_app_sep sep l r :
  ~ In sep l -> split sep (l ++ sep :: r) = l :: split sep r.
Proof.
  induction l as [|c l IH]; intros H; simpl.
  - by rewrite N.eqb_refl.
  - destruct (N.eqb_spec c sep) as [->|Hne]; [exfalso; apply H; by left|].
    rewrite IH; [done|]. intros Hin. apply H. by right.
Qed.

Lemma split_join sep ls :
  ls <> [] -> (forall l, In l ls -> ~ In sep l) -> split sep (join sep ls) = ls.
Proof.
  induction ls as [|l ls IH]; intros Hne H; [done|].
  destruct ls as [|l2 ls].
  - simpl. apply split_nosep. apply H. by left.
  - change (join sep (l :: l2 :: ls)) with (l ++ sep :: join sep (l2 :: ls)).
    rewrite split_app_sep by (apply H; by left).
    rewrite IH; [done|done|]. intros x Hx. apply H. by right.
Qed.

Lemma split_no_sep sep s : forall l, In l (split sep s) -> ~ In sep l.
Proof.
  induction s as [|c s IH]; simpl; intros l Hl.
  - destruct Hl as [<-|[]]. by intros [].
  - destruct (N.eqb_spec c sep) as [->|Hne].
    + destruct Hl as [<-|Hl]; [by intros []|auto].
    + destruct (split sep s) as [|l0 ls] eqn:Hs.
      * destruct Hl as [<-|[]]. intros [?|[]]. congruence.
      * destruct Hl as [<-|Hl].
        -- intros [?|Hin]; [congruence|]. apply (IH l0); [by left|done].
        -- apply IH. by right.
Qed.

Lemma lstrip_incl s : forall x, In x (lstrip s) -> In x s.
Proof.
  induction s as [|c s IH]; simpl; [done|].
  intros x Hx. destruct (is_space c); [right; auto|done].
Qed.

Lemma strip_incl s : forall x, In x (strip s) -> In x s.
Proof.
  intros x Hx. unfold strip, rstrip in Hx.
  apply in_rev in Hx. apply lstrip_incl in Hx. apply in_rev in Hx.
  by apply lstrip_incl.
Qed.

Lemma format_from_no_newline n ls : forall k,
  1 <= n <= 4 ->
  (forall l, In l ls -> ~ In 10%N l) ->
  forall line, In line (format_from n k ls) -> ~ In 10%N line.
Proof.
  induction ls as [|x ls IH]; intros k Hn H line Hin;
    cbn [format_from In] in Hin; [done|].
  destruct Hin as [<-|Hin]; [|eapply IH; eauto; intros; apply H; by right].
  destruct (has_speaker_format x); [apply H; by left|].
  intros Hin. apply in_app_or in Hin. destruct Hin as [Hin|Hin].
  { revert Hin. apply contains_false_iff. reflexivity. }
  apply in_app_or in Hin. destruct Hin as [Hin|Hin].
  { pose proof (Z.mod_pos_bound (Z.of_nat k) n ltac:(lia)) as Hb.
    revert Hin. apply contains_false_iff.
    assert (Hk : Z.of_nat k mod n = 0 \/ Z.of_nat k mod n = 1
                 \/ Z.of_nat k mod n = 2 \/ Z.of_nat k mod n = 3) by lia.
    destruct Hk as [-> |[-> |[-> | ->]]]; reflexivity. }
  apply in_app_or in Hin. destruct Hin as [Hin|Hin].
  { revert Hin. apply contains_false_iff. reflexivity. }
  revert Hin. apply H. by left.
Qed.

Lemma script_lines_no_newline script :
  forall l, In l (script_lines script) -> ~ In 10%N l.
Proof.
  intros l Hl. unfold script_lines in Hl.
  apply filter_In in Hl. destruct Hl as [Hl _].
  apply in_map_iff in Hl. destruct Hl as (l0 & <- & Hl0).
  intros Hin. apply strip_incl in Hin. by apply split_no_sep in Hl0.
Qed.
Example format_script_demo :
  format_script_lines 2 script_demo
  = [lit "Speaker 0: hello"; lit "Speaker 1: hi"; lit "Speaker 0: world";
     lit "Speaker 1: again"].
Proof. reflexivity. Qed.

(** C10: for every script and every [num_speakers] in [1,4], the formatting
    loop drops the blank lines and, for the remaining (stripped) lines in
    order, keeps a line that starts with "Speaker " and contains ':' and
    turns any other line, at position [i] of the output, into
    "Speaker k: line" with [k = i mod num_speakers], so [0 <= k <=
    num_speakers - 1]; every output line starts with "Speaker " and
    contains ':', and these are the lines of the formatted script. *)
Theorem format_script_lines_spec n script :
  1 <= n <= 4 ->
  format_script_lines n script = format_from n 0 (script_lines script)
  /\ length (format_script_lines n script) = length (script_lines script)
  /\ (forall l, In l (script_lines script) -> l <> [])
  /\ (forall i l, script_lines script !! i = Some l ->
        (has_speaker_format l = true ->
         format_script_lines n script !! i = Some l)
        /\ (has_speaker_format l = false ->
            0 <= Z.of_nat i mod n <= n - 1
            /\ format_script_lines n script !! i
               = Some (lit "Speaker " ++ of_int (Z.of_nat i mod n)
                         ++ lit ": " ++ l)))
  /\ (forall line, In line (format_script_lines n script) ->
        startswith (lit "Speaker ") line = true
        /\ contains 58%N line = true)
  /\ (script_lines script <> [] ->
      split 10%N (formatted_script n script) = format_script_lines n script).
Proof.
  intros Hn.
  assert (Heq : format_script_lines n script = format_from n 0 (script_lines script)).
  { unfold format_script_lines, script_lines. by rewrite format_loop_spec. }
  unfold formatted_script. rewrite Heq. split_and!; cycle 5.
  { intros Hne. apply split_join.
    - destruct (script_lines script); [done|]. simpl. done.
    - apply format_from_no_newline; [done|]. apply script_lines_no_newline. }
  - done.
  - apply format_from_length.
  - intros l Hl. unfold script_lines in Hl. apply filter_In in Hl.
    destruct Hl as [_ Hl]. by destruct l.
  - intros i l Hl.
    pose proof (format_from_lookup n _ 0 i l Hl) as Hf. cbn [Nat.add] in Hf.
    split; intros Hfmt; rewrite Hfmt in Hf; [done|]. split; [|done].
    pose proof (Z.mod_pos_bound (Z.of_nat i) n). lia.
  - apply format_from_prefixed.
Qed.

Lemma format_script_lines_spec_witness :
  format_script_lines 2 script_demo = format_from 2 0 (script_lines script_demo).
Proof.
  refine (proj1 (format_script_lines_spec 2 script_demo _)). lia.
Defined.

End Formatting.

(** ** The dispatching generator *)

Section Dispatching.
Import GPUManager.

Lemma set_available_unavailable g g' b st :
  (g' <> g \/ b = false) ->
  (forall s, In (g, s) st -> is_available s = false) ->
  forall s, In (g, s) (set_available g' b st) -> is_available s = false.
Proof.
  intros Hor H s Hin. unfold set_available in Hin.
  apply in_map_iff in Hin. destruct Hin as ([k s0] & Heq & Hin). simpl in Heq.
  destruct (k =? g') eqn:E.
  - injection Heq as -> <-. apply Z.eqb_eq in E. simpl.
    destruct Hor as [Hne| ->]; [congruence|done].
  - injection Heq as -> ->. auto.
Qed.

Lemma check_gpu_health_unavailable probe g m :
  probe g = false -> unavailable g m -> unavailable g (_check_gpu_health probe m).
Proof.
  intros Hp. unfold unavailable, _check_gpu_health. simpl.
  generalize (gpu_status m). generalize (map fst (gpu_instances m)).
  induction l as [|k ks IH]; intros st H; simpl; [done|].
  apply IH. apply set_available_unavailable; [|done].
  destruct (Z.eq_dec k g) as [->|Hne]; auto.
Qed.

Lemma unavailable_not_listed g m :
  unavailable g m -> ~ In g (available_gpus m).
Proof.
  intros H Hin. unfold available_gpus in Hin.
  apply in_map_iff in Hin. destruct Hin as ([k s] & Hk & Hin). simpl in Hk. subst k.
  apply filter_In in Hin. destruct Hin as [Hin Ha]. simpl in Ha.
  rewrite (H s Hin) in Ha. done.
Qed.

Lemma best_loop_member st gpus : forall best_gpu best_score r,
  best_loop st gpus best_gpu best_score = Ok (Some r) ->
  In r gpus \/ best_gpu = Some r.
Proof.
  induction gpus as [|g rest IH]; intros bg bs r H; simpl in H.
  - injection H as ->. by right.
  - destruct (dict_get g st) as [status|]; [|done].
    destruct (score_lt (total_score status) bs).
    + apply IH in H. destruct H as [H|H]; [left; by right|].
      injection H as ->. left. by left.
    + apply IH in H. destruct H as [H|H]; [left; by right|by right].
Qed.

(** [select_best_gpu] returns a device of the available list it scored, and
    changes the registry only through a health check. *)
Lemma select_best_gpu_member probe m m1 tr g :
  select_best_gpu probe m = (m1, tr, Ok g) ->
  In g (available_gpus m1)
  /\ (m1 = m \/ (available_gpus m = [] /\ m1 = _check_gpu_health probe m)).
Proof.
  unfold select_best_gpu. intros H.
  destruct (available_gpus m) as [|a l] eqn:Ha.
  - destruct (available_gpus (_check_gpu_health probe m)) as [|a' l'] eqn:Ha';
      [done|].
    destruct (best_loop _ _ _ _) as [[r|]|] eqn:Hb; [| |done].
    + injection H as <- <- <-. split; [|by right].
      apply best_loop_member in Hb. rewrite Ha'. by destruct Hb.
    + injection H as <- <- <-. split; [|by right]. rewrite Ha'. by left.
  - destruct (best_loop _ _ _ _) as [[r|]|] eqn:Hb; [| |done].
    + injection H as <- <- <-. split; [|by left].
      apply best_loop_member in Hb. rewrite Ha. by destruct Hb.
    + injection H as <- <- <-. split; [|by left]. rewrite Ha. by left.
Qed.

Lemma select_best_gpu_state probe m :
  (select_best_gpu probe m).1.1 = m
  \/ (select_best_gpu probe m).1.1 = _check_gpu_health probe m.
Proof.
  unfold select_best_gpu.
  destruct (available_gpus m) as [|a l] eqn:Ha.
  - right. destruct (available_gpus (_check_gpu_health probe m)); [done|].
    by destruct (best_loop _ _ _ _) as [[r|]|].
  - left. by destruct (best_loop _ _ _ _) as [[r|]|].
Qed.

Lemma select_best_gpu_unavailable probe g m :
  probe g = false -> unavailable g m ->
  unavailable g (select_best_gpu probe m).1.1
  /\ (select_best_gpu probe m).2 <> Ok g.
Proof.
  intros Hp Hu.
  assert (Hu1 : unavailable g (select_best_gpu probe m).1.1).
  { destruct (select_best_gpu_state probe m) as [->| ->]; [done|].
    by apply check_gpu_health_unavailable. }
  split; [done|]. intros Hsel.
  destruct (select_best_gpu probe m) as [[m1 tr] r] eqn:E. simpl in *. subst r.
  apply select_best_gpu_member in E. destruct E as [Hin _].
  by apply unavailable_not_listed in Hin.
Qed.

Lemma select_best_gpu_queues probe m :
  gpu_queues (select_best_gpu probe m).1.1 = gpu_queues m
  /\ gpu_locks (select_best_gpu probe m).1.1 = gpu_locks m
  /\ gpu_instances (select_best_gpu probe m).1.1 = gpu_instances m.
Proof. by destruct (select_best_gpu_state probe m) as [-> | ->]. Qed.

Lemma except_block_frame sel e m :
  gpu_queues (except_block sel e m).1 = gpu_queues m
  /\ gpu_locks (except_block sel e m).1 = gpu_locks m
  /\ (gpu_status (except_block sel e m).1 = gpu_status m
      \/ exists g, sel = Some g /\
           gpu_status (except_block sel e m).1 = set_available g false (gpu_status m))
  /\ queue_ops (except_block sel e m).2 = [].
Proof. destruct sel as [g|]; simpl; eauto 10. Qed.

(** The [finally] block after a [put]: one item is taken back. *)
Lemma finally_block_after_put g q m0 m :
  bool_decide (g ∈ gpu_locks m0) = true ->
  gpu_queues m0 !! g = Some q ->
  gpu_locks m = gpu_locks m0 ->
  gpu_queues m = <[g := q ++ [1]]> (gpu_queues m0) ->
  (forall g', qsize (finally_block (Some g) m).1 g' = qsize m0 g')
  /\ (finally_block (Some g) m).2 = [QueueGet g]
  /\ gpu_status (finally_block (Some g) m).1 = gpu_status m.
Proof.
  intros Hl Hq Hlocks Hqueues. unfold finally_block.
  assert (E : gpu_queues m !! g = Some (q ++ [1])).
  { rewrite Hqueues. apply lookup_insert_eq. }
  rewrite Hlocks, Hl, E. simpl.
  destruct (q ++ [1]) as [|x q'] eqn:Hq'; [by destruct q|].
  simpl. split_and!; [|done|done].
  intros g'. unfold qsize. simpl. rewrite Hqueues, insert_insert_eq.
  destruct (decide (g = g')) as [<-|Hne].
  - rewrite lookup_insert_eq, Hq. simpl. f_equal.
    apply (f_equal length) in Hq'. rewrite length_app in Hq'. simpl in Hq'. lia.
  - by rewrite lookup_insert_ne.
Qed.

(** The [finally] block when nothing was put: the queues are untouched. *)
Lemma finally_block_no_put sel m :
  (sel = None \/ exists g, sel = Some g /\
     (bool_decide (g ∈ gpu_locks m) = false \/ gpu_queues m !! g = None)) ->
  (finally_block sel m).1 = m /\ queue_ops (finally_block sel m).2 = [].
Proof.
  intros [-> | (g & -> & H)]; [done|]. unfold finally_block.
  destruct (bool_decide (g ∈ gpu_locks m)); simpl; [|done].
  destruct H as [H|H]; [done|]. by rewrite H.
Qed.

Lemma queue_ops_app a b : queue_ops (a ++ b) = queue_ops a ++ queue_ops b.
Proof. apply List.filter_app. Qed.

Section Generic.
Variable demo_generate : VibeVoiceDemo.t -> list action.
Variable probe : Z -> bool.
Variable close_at : option nat.

Lemma generate_with_frame m :
  let m' := (generate_podcast_streaming_with demo_generate probe close_at m).1 in
  let m1 := (select_best_gpu probe m).1.1 in
  (forall g, qsize m' g = qsize m g)
  /\ (gpu_status m' = gpu_status m1
      \/ exists g, gpu_status m' = set_available g false (gpu_status m1)).
Proof.
  simpl. unfold generate_podcast_streaming_with, try_block.
  pose proof (select_best_gpu_queues probe m) as (Hq & Hl & Hi).
  destruct (select_best_gpu probe m) as [[m1 tr0] sel]. simpl in Hq, Hl, Hi |- *.
  assert (Hqs : forall g, qsize m1 g = qsize m g).
  { intros g. unfold qsize. by rewrite Hq. }
  destruct sel as [g0|e].
  - destruct (bool_decide (g0 ∈ gpu_locks m1)) eqn:Hlock; simpl.
    + destruct (gpu_queues m1 !! g0) as [q|] eqn:Hq0.
      * set (m2 := with_queues (<[g0:=q ++ [1]]> (gpu_queues m1)) m1).
        assert (Hfin : forall mx, gpu_locks mx = gpu_locks m1 ->
                  gpu_queues mx = gpu_queues m2 ->
                  (gpu_status mx = gpu_status m1 \/
                   exists g, gpu_status mx = set_available g false (gpu_status m1)) ->
                  (forall g, qsize (finally_block (Some g0) mx).1 g = qsize m g)
                  /\ (gpu_status (finally_block (Some g0) mx).1 = gpu_status m1 \/
                      exists g, gpu_status (finally_block (Some g0) mx).1
                                = set_available g false (gpu_status m1))).
        { intros mx Hlx Hqx Hsx.
          destruct (finally_block_after_put g0 q m1 mx Hlock Hq0 Hlx Hqx)
            as (Hs & _ & Hst).
          split; [intros g; by rewrite Hs|]. by rewrite Hst. }
        destruct (dict_get g0 (gpu_instances m1)) as [inst|].
        -- destruct (forward close_at (demo_generate inst)) as [tr en].
           destruct en as [| |e].
           ++ destruct (Hfin m2) as [H1 H2]; auto.
              destruct (finally_block (Some g0) m2). done.
           ++ destruct (Hfin m2) as [H1 H2]; auto.
              destruct (finally_block (Some g0) m2). done.
           ++ pose proof (except_block_frame (Some g0) e m2) as (Hq' & Hl' & Hs' & _).
              destruct (except_block (Some g0) e m2) as [mx trx]. simpl in Hq', Hl', Hs'.
              destruct (Hfin mx) as [H1 H2]; auto.
              { destruct Hs' as [->|(g & _ & ->)]; eauto. }
              destruct (finally_block (Some g0) mx). done.
        -- pose proof (except_block_frame (Some g0) (KeyError g0) m2) as (Hq' & Hl' & Hs' & _).
           destruct (except_block (Some g0) (KeyError g0) m2) as [mx trx]. simpl in Hq', Hl', Hs'.
           destruct (Hfin mx) as [H1 H2]; auto.
           { destruct Hs' as [->|(g & _ & ->)]; eauto. }
           destruct (finally_block (Some g0) mx). done.
      * simpl. rewrite Hlock, Hq0. simpl. split; [done|eauto].
    + simpl. rewrite Hlock. simpl. split; [done|eauto].
  - simpl. split; [done|eauto].
Qed.


Lemma forward_queue_ops inner : forall c,
  queue_ops inner = [] -> queue_ops (forward c inner).1 = [].
Proof.
  induction inner as [|a inner IH]; intros c H; [done|].
  destruct a; simpl in H |- *; try done;
    try (specialize (IH c H); destruct (forward c inner); simpl in *; done).
  destruct c as [[|k]|]; [done| |].
  - specialize (IH (Some k) H). simpl. destruct (forward (Some k) inner). done.
  - specialize (IH None H). simpl. destruct (forward None inner). done.
Qed.

Lemma generate_with_queue_ops m :
  (forall inst, queue_ops (demo_generate inst) = []) ->
  let tr := (generate_podcast_streaming_with demo_generate probe close_at m).2 in
  let tr0 := (select_best_gpu probe m).1.2 in
  queue_ops tr = queue_ops tr0
  \/ exists g, (select_best_gpu probe m).2 = Ok g
               /\ queue_ops tr = queue_ops tr0 ++ [QueuePut g; QueueGet g].
Proof.
  intros Hinner. simpl. unfold generate_podcast_streaming_with, try_block.
  destruct (select_best_gpu probe m) as [[m1 tr0] sel]. simpl.
  destruct sel as [g0|e]; [|simpl; rewrite !queue_ops_app, app_nil_r; by left].
  destruct (bool_decide (g0 ∈ gpu_locks m1)) eqn:Hlock; simpl.
  - destruct (gpu_queues m1 !! g0) as [q|] eqn:Hq0.
    + right. exists g0. split; [done|].
      set (m2 := with_queues (<[g0:=q ++ [1]]> (gpu_queues m1)) m1).
      assert (Hfin : forall mx, gpu_locks mx = gpu_locks m1 ->
                gpu_queues mx = gpu_queues m2 ->
                (finally_block (Some g0) mx).2 = [QueueGet g0]).
      { intros mx Hlx Hqx.
        by destruct (finally_block_after_put g0 q m1 mx Hlock Hq0 Hlx Hqx)
          as (_ & ? & _). }
      destruct (dict_get g0 (gpu_instances m1)) as [inst|].
      * pose proof (forward_queue_ops (demo_generate inst) close_at (Hinner inst)) as Hf.
        destruct (forward close_at (demo_generate inst)) as [tr en].
        simpl in Hf.
        destruct en as [| |e].
        -- specialize (Hfin m2 eq_refl eq_refl).
           destruct (finally_block (Some g0) m2) as [m3 tr3]. simpl in Hfin. subst.
           cbn [snd]. rewrite !queue_ops_app, Hf. simpl. by rewrite ?app_nil_r, <- !app_assoc.
        -- specialize (Hfin m2 eq_refl eq_refl).
           destruct (finally_block (Some g0) m2) as [m3 tr3]. simpl in Hfin. subst.
           cbn [snd]. rewrite !queue_ops_app, Hf. simpl. by rewrite ?app_nil_r, <- !app_assoc.
        -- pose proof (except_block_frame (Some g0) e m2) as (Hq' & Hl' & _ & Hx).
           destruct (except_block (Some g0) e m2) as [mx trx]. simpl in Hq', Hl', Hx.
           specialize (Hfin mx Hl' Hq').
           destruct (finally_block (Some g0) mx) as [m3 tr3]. simpl in Hfin. subst.
           cbn [snd]. rewrite !queue_ops_app, Hf, Hx. simpl. by rewrite ?app_nil_r, <- !app_assoc.
      * pose proof (except_block_frame (Some g0) (KeyError g0) m2) as (Hq' & Hl' & _ & Hx).
        destruct (except_block (Some g0) (KeyError g0) m2) as [mx trx].
        simpl in Hq', Hl', Hx.
        specialize (Hfin mx Hl' Hq').
        destruct (finally_block (Some g0) mx) as [m3 tr3]. simpl in Hfin. subst.
        cbn [snd]. rewrite !queue_ops_app, Hx. simpl. by rewrite ?app_nil_r, <- !app_assoc.
    + left. simpl. rewrite Hlock, Hq0. simpl.
      rewrite !queue_ops_app. simpl. by rewrite app_nil_r.
  - left. simpl. rewrite Hlock. simpl.
    rewrite !queue_ops_app. simpl. by rewrite app_nil_r.
Qed.

End Generic.

Lemma select_best_gpu_no_queue_ops probe m :
  queue_ops (select_best_gpu probe m).1.2 = [].
Proof.
  unfold select_best_gpu.
  destruct (available_gpus m) as [|a l].
  - destruct (available_gpus (_check_gpu_health probe m)); [done|].
    by destruct (best_loop _ _ _ _) as [[r|]|].
  - by destruct (best_loop _ _ _ _) as [[r|]|].
Qed.

End Dispatching.

Section Inner.
Import VibeVoiceDemo.

Lemma drain_loop_no_queue_ops items : forall st,
  queue_ops (drain_loop st items).2 = [].
Proof.
  induction items as [|it rest IH]; intros st; simpl; [done|].
  destruct (stop_seen it); [done|].
  assert (Hstep : queue_ops (drain_step st it).2 = []).
  { unfold drain_step.
    repeat match goal with |- context [if ?b then _ else _] => destruct b end;
      done. }
  destruct (drain_step st it) as [st1 tr1]. specialize (IH st1).
  destruct (drain_loop st1 rest) as [st2 tr2]. simpl in *.
  by rewrite queue_ops_app, Hstep, IH.
Qed.

Lemma finalize_no_queue_ops e st : queue_ops (finalize e st) = [].
Proof.
  unfold finalize.
  repeat match goal with |- context [if ?b then _ else _] => destruct b end; done.
Qed.

Lemma generate_no_queue_ops self req e :
  queue_ops (generate_podcast_streaming self req e) = [].
Proof.
  unfold generate_podcast_streaming, body.
  destruct (validate self req) as [names|x]; [|by destruct x].
  destruct (stop_after_log e); [done|].
  destruct (load_voices self e names) as [vs|x]; [|by destruct x].
  destruct (stop_after_voices e); [done|].
  destruct (stop_before_processing e); [done|].
  destruct (processor_raises e _); [done|].
  destruct (stop_after_start e); [done|].
  rewrite queue_ops_app. simpl. unfold stream_session.
  pose proof (drain_loop_no_queue_ops (audio_stream e)
                (initial_drain_state (loop_start_time e))) as Hd.
  destruct (drain_loop _ _) as [st tr]. simpl in Hd.
  by rewrite queue_ops_app, Hd, finalize_no_queue_ops.
Qed.
End Inner.

(** C2: whatever the chosen instance's generator does (yields, returns,
    raises) and wherever the consumer closes the dispatching generator, the
    size of every device queue after [generate_podcast_streaming] equals its
    size before; with the real instance generator the queue operations of a
    session are either none (no device could be used) or exactly one
    [put] followed by one [get_nowait] on the selected device. *)
Theorem pending_counter_restored demo_generate probe close_at req e m :
  (forall g,
     GPUManager.qsize
       (GPUManager.generate_podcast_streaming_with demo_generate probe close_at m).1 g
     = GPUManager.qsize m g)
  /\ (forall g,
        GPUManager.qsize
          (GPUManager.generate_podcast_streaming probe req e close_at m).1 g
        = GPUManager.qsize m g)
  /\ (queue_ops (GPUManager.generate_podcast_streaming probe req e close_at m).2 = []
      \/ exists g,
           (GPUManager.select_best_gpu probe m).2 = Ok g
           /\ queue_ops (GPUManager.generate_podcast_streaming probe req e close_at m).2
              = [QueuePut g; QueueGet g]).
Proof.
  split_and!.
  - apply generate_with_frame.
  - apply generate_with_frame.
  - unfold GPUManager.generate_podcast_streaming.
    destruct (generate_with_queue_ops
                (fun inst => VibeVoiceDemo.generate_podcast_streaming inst req e)
                probe close_at m) as [H|(g & Hg & H)].
    + intros inst. apply generate_no_queue_ops.
    + left. by rewrite H, select_best_gpu_no_queue_ops.
    + right. exists g. split; [done|].
      by rewrite H, select_best_gpu_no_queue_ops.
Qed.

Section Validation.
Import VibeVoiceDemo.

Lemma validate_speakers_raises self l : forall k,
  (exists i s, l !! i = Some s /\ invalid_speaker self s) ->
  exists ie, validate_speakers self k l = Raised (GrError ie).
Proof.
  induction l as [|s0 l IH]; intros k (i & s & Hl & Hinv); [done|].
  simpl. destruct s0 as [[|c name]|]; eauto.
  destruct (voice_get (c :: name) (available_voices self)) eqn:Hv; eauto.
  destruct i as [|i]; simpl in Hl.
  - injection Hl as <-. simpl in Hinv. congruence.
  - destruct (IH (k + 1)) as (ie & ->); eauto.
Qed.

Lemma violates_raises self req :
  violates self req -> exists ie, validate self req = Raised (GrError ie).
Proof.
  intros Hv. unfold validate.
  destruct (strip (script req)) as [|c s] eqn:Hs; [eauto|].
  destruct Hv as [Hv|[Hv|[Hv|(i & s0 & Hi & Hl & Hinv)]]]; [congruence| | |].
  - apply Z.ltb_lt in Hv. rewrite Hv. simpl. eauto.
  - apply Z.ltb_lt in Hv. rewrite Hv, orb_true_r. eauto.
  - destruct (_ || _); [eauto|].
    apply validate_speakers_raises. exists i, s0. split; [|done].
    by rewrite lookup_take_lt.
Qed.

Lemma validation_failure_trace self req e ie :
  validate self req = Raised (GrError ie) ->
  generate_podcast_streaming self req e
  = [Yield (Tuple4 None None (LogInputError ie) false)].
Proof. intros H. unfold generate_podcast_streaming, body. by rewrite H. Qed.

End Validation.

(** C6, as the claim states it, fails: for an empty script on one idle
    device, device 0 is selected and an item is put on its queue before the
    validation error is yielded. *)
Lemma validation_after_queue_put :
  (GPUManager.select_best_gpu (fun _ => true) m_one).2 = Ok 0
  /\ (GPUManager.generate_podcast_streaming (fun _ => true) req_empty env_empty
        None m_one).2
     = [QueuePut 0;
        Yield (Tuple4 None None (LogInputError NoScript) false);
        QueueGet 0].
Proof. vm_compute. split; reflexivity. Qed.

(** C6 (amended): a request that violates validation (blank script,
    speaker count outside [1,4], or a speaker slot that is empty or names
    no known voice) is rejected by the selected instance's generator: the
    dispatcher first selects a device and puts an item on its queue, the
    only tuple yielded is the input error, no thread is started, the device
    is not marked unavailable and the item is taken back from the queue, so
    every queue ends with its initial size. *)
Theorem validation_failure_after_selection probe req e close_at m m1 tr0 g q inst :
  GPUManager.select_best_gpu probe m = (m1, tr0, Ok g) ->
  g ∈ GPUManager.gpu_locks m1 ->
  GPUManager.gpu_queues m1 !! g = Some q ->
  GPUManager.dict_get g (GPUManager.gpu_instances m1) = Some inst ->
  violates inst req ->
  exists ie,
    VibeVoiceDemo.validate inst req = Raised (GrError ie)
    /\ (GPUManager.generate_podcast_streaming probe req e close_at m).2
       = tr0 ++ [QueuePut g;
                 Yield (Tuple4 None None (LogInputError ie) false);
                 QueueGet g]
    /\ GPUManager.gpu_status
         (GPUManager.generate_podcast_streaming probe req e close_at m).1
       = GPUManager.gpu_status m1
    /\ forall g',
         GPUManager.qsize
           (GPUManager.generate_podcast_streaming probe req e close_at m).1 g'
         = GPUManager.qsize m g'.
Proof.
  intros Hsel Hlock Hq Hinst Hv.
  destruct (violates_raises inst req Hv) as (ie & Hie).
  exists ie. split; [done|].
  pose proof (generate_with_frame
                (fun i => VibeVoiceDemo.generate_podcast_streaming i req e)
                probe close_at m) as [Hsize _].
  split_and!; [| |exact Hsize].
  all: unfold GPUManager.generate_podcast_streaming,
         GPUManager.generate_podcast_streaming_with, GPUManager.try_block.
  all: rewrite Hsel, (bool_decide_eq_true_2 _ Hlock), Hq; simpl.
  all: rewrite Hinst, (validation_failure_trace _ _ e _ Hie).
  all: set (m2 := GPUManager.with_queues _ m1).
  all: destruct (finally_block_after_put g q m1 m2) as (_ & Htr & Hst);
         [by apply bool_decide_eq_true_2|done|done|done|].
  all: assert (Hst2 : GPUManager.gpu_status m2 = GPUManager.gpu_status m1) by done.
  all: clearbody m2.
  all: destruct (GPUManager.finally_block (Some g) m2) as [m3 tr3] eqn:Hfin;
         simpl in Htr, Hst; subst tr3.
  all: destruct close_at as [[|k]|]; cbn -[GPUManager.finally_block];
         rewrite Hfin; simpl; rewrite <- ?app_assoc; solve [done | congruence].
Qed.

Section Faults.
Import GPUManager.

Lemma handle_gpu_error_unavailable g m : unavailable g (_handle_gpu_error g m).1.
Proof.
  intros s Hin. simpl in Hin. unfold set_available in Hin.
  apply in_map_iff in Hin. destruct Hin as ([k s0] & Heq & _). simpl in Heq.
  destruct (k =? g) eqn:E.
  - by injection Heq as _ <-.
  - injection Heq as -> _. lia.
Qed.

Lemma refresh_available g' mem util qlen now st g :
  (forall s, In (g, s) st -> is_available s = false) ->
  forall s, In (g, s) (refresh g' mem util qlen now st) -> is_available s = false.
Proof.
  intros H s Hin. unfold refresh in Hin.
  apply in_map_iff in Hin. destruct Hin as ([k s0] & Heq & Hin). simpl in Heq.
  destruct (k =? g').
  - injection Heq as -> <-. simpl. eauto.
  - injection Heq as -> ->. eauto.
Qed.

Lemma monitor_cycle_unavailable readings now g gpus : forall m,
  unavailable g m -> unavailable g (monitor_cycle readings now gpus m).
Proof.
  induction gpus as [|k ks IH]; intros m H; simpl; [done|].
  destruct (dict_get k (gpu_status m)); [|auto].
  destruct (readings k) as [[mem util]|]; [|done].
  destruct (gpu_queues m !! k); [|done].
  apply IH. unfold unavailable. simpl. by apply refresh_available.
Qed.

Lemma run_op_unavailable g o m :
  (forall p, op_probe o = Some p -> p g = false) ->
  unavailable g m ->
  unavailable g (run_op o m).1 /\ (run_op o m).2 <> Some g.
Proof.
  intros Hp Hu. destruct o as [p|p|g'|r now|p req e c]; simpl.
  - destruct (select_best_gpu_unavailable p g m) as [H1 H2]; auto.
    destruct (select_best_gpu p m) as [[m1 tr] [g0|x]]; simpl in *;
      (split; [done|congruence]).
  - split; [|done]. apply check_gpu_health_unavailable; auto.
  - split; [|done]. unfold unavailable. simpl.
    apply set_available_unavailable; auto.
  - split; [|done]. by apply monitor_cycle_unavailable.
  - destruct (select_best_gpu_unavailable p g m) as [H1 H2]; auto.
    split.
    + pose proof (generate_with_frame
          (fun i => VibeVoiceDemo.generate_podcast_streaming i req e) p c m)
        as [_ Hst].
      unfold generate_podcast_streaming, unavailable.
      destruct Hst as [-> | (g1 & ->)]; [done|].
      apply set_available_unavailable; auto.
    + destruct (select_best_gpu p m) as [[m1 tr] [g0|x]]; simpl in *; congruence.
Qed.

Lemma run_ops_unavailable g ops : forall m,
  probes_fail g ops ->
  unavailable g m ->
  unavailable g (run_ops ops m).1 /\ ~ In g (run_ops ops m).2.
Proof.
  induction ops as [|o ops IH]; intros m Hp Hu; simpl; [auto|].
  destruct (run_op_unavailable g o m) as [H1 H2]; [|done|].
  { intros p Hop. apply (Hp o p); [by left|done]. }
  destruct (run_op o m) as [m1 sel]. simpl in H1, H2.
  destruct (IH m1) as [H3 H4]; [|done|].
  { intros o' p Hin. apply Hp. by right. }
  destruct (run_ops ops m1) as [m2 sels]. simpl in *.
  split; [done|]. destruct sel as [g0|]; [|done].
  intros [->|Hin]; [congruence|done].
Qed.

(** A health check whose probe of [g] succeeds flags [g] available again. *)
Lemma check_gpu_health_recovers probe g m :
  probe g = true -> In g (map fst (gpu_instances m)) ->
  forall s, In (g, s) (gpu_status (_check_gpu_health probe m)) ->
            is_available s = true.
Proof.
  intros Hp. unfold _check_gpu_health. simpl.
  generalize (gpu_status m). generalize (map fst (gpu_instances m)).
  intros ks st Hin.
  assert (H : In g ks \/ forall s, In (g, s) st -> is_available s = true) by auto.
  clear Hin. revert st H.
  induction ks as [|k ks IH]; intros st H; simpl.
  - by destruct H.
  - apply IH. destruct (Z.eq_dec k g) as [->|Hne].
    + right. intros s Hs. unfold set_available in Hs.
      apply in_map_iff in Hs. destruct Hs as ([k' s0] & Heq & _). simpl in Heq.
      destruct (k' =? g) eqn:E.
      * injection Heq as _ <-. simpl. done.
      * injection Heq as -> _. lia.
    + destruct H as [[->|H]|H]; [done|by left|right].
      intros s Hs. unfold set_available in Hs.
      apply in_map_iff in Hs. destruct Hs as ([k' s0] & Heq & Hs). simpl in Heq.
      destruct (k' =? k) eqn:E.
      * injection Heq as -> _. lia.
      * injection Heq as -> ->. auto.
Qed.

(** C8: [_handle_gpu_error] marks the device unavailable, clears its
    cache and starts exactly one recovery thread (delay 30 s) whose body
    runs one health check; from then on, through any sequence of
    selections, sessions, monitor cycles, fault handlings and recovery
    checks in which every health probe of the device fails, the device
    stays unavailable and [select_best_gpu] never returns it. *)
Theorem fault_excludes_device g m ops :
  probes_fail g ops ->
  (_handle_gpu_error g m).2 = [MarkUnavailable g; EmptyCache g; SpawnRecovery g 30%Q]
  /\ (forall p m', (recover_gpu p m').2 = [HealthCheck])
  /\ unavailable g (_handle_gpu_error g m).1
  /\ ~ In g (available_gpus (_handle_gpu_error g m).1)
  /\ ~ In g (run_ops ops (_handle_gpu_error g m).1).2
  /\ unavailable g (run_ops ops (_handle_gpu_error g m).1).1.
Proof.
  intros Hp.
  pose proof (handle_gpu_error_unavailable g m) as Hu.
  destruct (run_ops_unavailable g ops _ Hp Hu) as [H1 H2].
  split_and!; auto. by apply unavailable_not_listed.
Qed.
End Faults.

Lemma pending_counter_unchanged_example :
  GPUManager.qsize
    (GPUManager.generate_podcast_streaming (fun _ => true) req_hi env_two None
       m_one).1 0
  = Some 0%nat.
Proof. vm_compute. reflexivity. Qed.

Lemma validation_failure_after_selection_witness :
  (GPUManager.generate_podcast_streaming (fun _ => true) req_five env_empty
     None m_one).2
  = [QueuePut 0;
     Yield (Tuple4 None None (LogInputError BadSpeakerCount) false);
     QueueGet 0].
Proof.
  destruct (validation_failure_after_selection (fun _ => true) req_five
              env_empty None m_one m_one [] 0 [] demo_alice)
    as (ie & Hie & Htr & _).
  - reflexivity.
  - vm_compute. set_solver.
  - reflexivity.
  - reflexivity.
  - right. right. left. simpl. lia.
  - vm_compute in Hie. injection Hie as <-. exact Htr.
Defined.

Lemma fault_excludes_device_witness :
  ~ In 1 (GPUManager.run_ops ops_demo (GPUManager._handle_gpu_error 1 m_529).1).2.
Proof.
  refine (proj1 (proj2 (proj2 (proj2 (proj2
            (fault_excludes_device 1 m_529 ops_demo _)))))).
  intros o p Hin Hop. simpl in Hin.
  destruct Hin as [<-|[<-|[<-|[<-|[<-|[]]]]]]; simpl in Hop;
    try discriminate; injection Hop as <-; reflexivity.
Defined.

(** * Further properties of the code *)

(** ** Start-up and the invariant of the four dicts *)

Section StartupProofs.

Import GPUManager Startup.

Lemma dict_set_keys_old {V} k (v : V) d :
  In k (map fst d) -> map fst (dict_set k v d) = map fst d.
Proof.
  induction d as [|[k' v'] d IH]; simpl; [done|].
  destruct (Z.eqb_spec k' k) as [->|Hne]; simpl; [done|].
  intros [?|H]; [done|]. by rewrite IH.
Qed.

Lemma dict_set_keys_new {V} k (v : V) d :
  ~ In k (map fst d) -> map fst (dict_set k v d) = map fst d ++ [k].
Proof.
  induction d as [|[k' v'] d IH]; simpl; [done|].
  destruct (Z.eqb_spec k' k) as [->|Hne]; simpl; [tauto|].
  intros H. rewrite IH; [done|tauto].
Qed.

Lemma dict_set_keys_in {V} k (v : V) d g :
  In g (map fst (dict_set k v d)) <-> g = k \/ In g (map fst d).
Proof.
  destruct (In_dec Z.eq_dec k (map fst d)) as [E|E].
  - rewrite dict_set_keys_old by done. split; [auto|]. intros [->|?]; done.
  - rewrite dict_set_keys_new by done. rewrite in_app_iff. simpl.
    intuition (subst; auto).
Qed.

Lemma dict_set_NoDup {V} k (v : V) d :
  NoDup (map fst d) -> NoDup (map fst (dict_set k v d)).
Proof.
  intros H. destruct (In_dec Z.eq_dec k (map fst d)) as [E|E].
  - by rewrite dict_set_keys_old.
  - rewrite dict_set_keys_new by done.
    apply NoDup_app. split_and!; [done| |apply NoDup_singleton].
    intros x Hx Hk. apply list_elem_of_In in Hx, Hk.
    destruct Hk as [<-|[]]. done.
Qed.

Lemma dict_set_entries {V} k (v : V) d g s :
  In (g, s) (dict_set k v d) ->
  (g = k /\ s = v) \/ In (g, s) d.
Proof.
  induction d as [|[k' v'] d IH]; simpl.
  - intros [[= <- <-]|[]]. by left.
  - destruct (Z.eqb_spec k' k) as [->|Hne]; simpl.
    + intros [[= <- <-]|H]; auto.
    + intros [H|H]; [auto|]. destruct (IH H); auto.
Qed.

Lemma dict_set_entries_NoDup {V} k (v : V) d g s :
  NoDup (map fst d) ->
  In (g, s) (dict_set k v d) ->
  (g = k /\ s = v) \/ (g <> k /\ In (g, s) d).
Proof.
  induction d as [|[k' v'] d IH]; simpl; intros Hnd.
  - intros [[= <- <-]|[]]. by left.
  - apply NoDup_cons in Hnd. destruct Hnd as [Hk' Hnd].
    destruct (Z.eqb_spec k' k) as [->|Hne]; simpl.
    + intros [[= <- <-]|H]; [by left|]. right. split; [|by right].
      intros ->. apply Hk'. apply list_elem_of_In.
      apply in_map_iff. by exists (k, s).
    + intros [[= <- <-]|H]; [right; split; [done|by left]|].
      destruct (IH Hnd H) as [?|[? ?]]; auto.
Qed.

(** What the start-up loop keeps: the invariant, empty queues, and registry
    keys within the bound that holds for the targets. *)
Lemma init_loop_invariant create now (P : Z -> Prop) targets : forall i m,
  well_formed m ->
  (forall g q, gpu_queues m !! g = Some q -> q = []) ->
  (forall g, In g (map fst (gpu_status m)) -> P g) ->
  (forall g, In g targets -> P g) ->
  let m' := init_loop create now i targets m in
  well_formed m'
  /\ (forall g q, gpu_queues m' !! g = Some q -> q = [])
  /\ (forall g, In g (map fst (gpu_status m')) -> P g).
Proof.
  induction targets as [|g0 rest IH]; intros i m Hwf Hq Hk Ht; simpl; [done|].
  apply IH; [| | |intros; apply Ht; by right];
    destruct Hwf as (Hn1 & Hn2 & Hl & Ha);
    destruct (create i g0) as [[[name total] inst]|]; unfold well_formed; simpl.
  - split_and!.
    + by apply dict_set_NoDup.
    + by apply dict_set_NoDup.
    + intros g Hg. apply dict_set_keys_in in Hg.
      destruct (decide (g = g0)) as [->|Hne].
      * split; [apply elem_of_union_l; by apply elem_of_singleton|].
        rewrite lookup_insert_eq. eauto.
      * destruct Hg as [?|Hg]; [done|]. destruct (Hl g Hg) as [H1 H2].
        split; [by apply elem_of_union_r|]. by rewrite lookup_insert_ne.
    + intros g s Hin Hav. apply dict_set_keys_in.
      apply dict_set_entries in Hin. destruct Hin as [[-> _]|Hin]; [by left|].
      right. eauto.
  - split_and!; [by apply dict_set_NoDup|done|done|].
    intros g s Hin Hav. apply dict_set_entries in Hin.
    destruct Hin as [[-> ->]|Hin]; [done|eauto].
  - intros g q. destruct (decide (g0 = g)) as [->|Hne].
    + rewrite lookup_insert_eq. congruence.
    + rewrite lookup_insert_ne by done. apply Hq.
  - done.
  - intros g Hg. apply dict_set_keys_in in Hg.
    destruct Hg as [->|Hg]; [apply Ht; by left|auto].
  - intros g Hg. apply dict_set_keys_in in Hg.
    destruct Hg as [->|Hg]; [apply Ht; by left|auto].
Qed.

Lemma empty_manager_well_formed : well_formed empty_manager.
Proof. split_and!; simpl; try constructor; intros; done. Qed.

Lemma range_bounds n g : In g (range n) -> 0 <= g < n.
Proof.
  unfold range. rewrite in_map_iff. intros (k & <- & Hk).
  apply in_seq in Hk. lia.
Qed.

Lemma valid_targets_bounds n ids g : In g (valid_targets n ids) -> 0 <= g < n.
Proof. unfold valid_targets. rewrite filter_In. lia. Qed.

(** When [_initialize_gpus] returns, the four dicts are consistent: no
    device is entered twice, every device with an instance has a lock and a
    queue, every device flagged available has an instance; every queue is
    empty, and every registered id names an existing device. *)
Theorem initialize_gpus_well_formed cuda n targets create now m :
  _initialize_gpus cuda n targets create now = Ok m ->
  well_formed m
  /\ (forall g q, gpu_queues m !! g = Some q -> q = [])
  /\ (forall g, In g (map fst (gpu_status m)) -> 0 <= g < n).
Proof.
  unfold _initialize_gpus. destruct cuda; [|done]. cbn [negb].
  destruct targets as [ids|].
  - destruct (valid_targets n ids) as [|a l] eqn:Hv; [done|].
    intros H. injection H as <-.
    apply (init_loop_invariant create now (fun g => 0 <= g < n) (a :: l)
             0%nat empty_manager).
    + apply empty_manager_well_formed.
    + intros g q. simpl. by rewrite lookup_empty.
    + intros g [].
    + intros g Hg. apply (valid_targets_bounds n ids). by rewrite Hv.
  - intros H. injection H as <-.
    apply (init_loop_invariant create now (fun g => 0 <= g < n) (range n)
             0%nat empty_manager).
    + apply empty_manager_well_formed.
    + intros g q. simpl. by rewrite lookup_empty.
    + intros g [].
    + apply range_bounds.
Qed.

Lemma initialize_gpus_well_formed_witness :
  exists m,
    _initialize_gpus true 2 (Some [1; 7; 0; 1]) create_but_1 clock0 = Ok m
    /\ well_formed m.
Proof.
  eexists. split; [reflexivity|].
  refine (proj1 (initialize_gpus_well_formed true 2 (Some [1; 7; 0; 1])
                   create_but_1 clock0 _ _)).
  reflexivity.
Defined.

End StartupProofs.

(** ** The invariant is kept by every operation *)

Section InvariantProofs.

Import GPUManager.

Lemma set_available_keys g b st : map fst (set_available g b st) = map fst st.
Proof.
  unfold set_available. rewrite map_map. apply map_ext.
  intros [k s]. simpl. by destruct (k =? g).
Qed.

Lemma set_available_entries g b st k s :
  In (k, s) (set_available g b st) ->
  exists s0, In (k, s0) st
             /\ is_available s = (if k =? g then b else is_available s0).
Proof.
  unfold set_available. rewrite in_map_iff.
  intros ([k0 s0] & Heq & Hin). simpl in Heq.
  destruct (k0 =? g) eqn:E; injection Heq as -> <-; exists s0; by rewrite E.
Qed.

Lemma refresh_keys g mem util qlen now st :
  map fst (refresh g mem util qlen now st) = map fst st.
Proof.
  unfold refresh. rewrite map_map. apply map_ext.
  intros [k s]. simpl. by destruct (k =? g).
Qed.

Lemma refresh_entries g mem util qlen now st k s :
  In (k, s) (refresh g mem util qlen now st) ->
  exists s0, In (k, s0) st /\ is_available s = is_available s0.
Proof.
  unfold refresh. rewrite in_map_iff.
  intros ([k0 s0] & Heq & Hin). simpl in Heq.
  destruct (k0 =? g); injection Heq as -> <-; by exists s0.
Qed.

Lemma set_available_registry_ok keys g b st :
  (b = true -> In g keys) ->
  registry_ok keys st -> registry_ok keys (set_available g b st).
Proof.
  intros Hb [Hn Ha]. split; [by rewrite set_available_keys|].
  intros k s Hin Hav. apply set_available_entries in Hin.
  destruct Hin as (s0 & Hin & Heq). rewrite Hav in Heq.
  destruct (Z.eqb_spec k g) as [->|Hne]; [auto|]. eauto.
Qed.

Lemma refresh_registry_ok keys g mem util qlen now st :
  registry_ok keys st -> registry_ok keys (refresh g mem util qlen now st).
Proof.
  intros [Hn Ha]. split; [by rewrite refresh_keys|].
  intros k s Hin Hav. apply refresh_entries in Hin.
  destruct Hin as (s0 & Hin & Heq). rewrite Hav in Heq. eauto.
Qed.

Lemma health_fold_keys probe ks : forall st,
  map fst (fold_left (fun st g => set_available g (probe g) st) ks st)
  = map fst st.
Proof.
  induction ks as [|k ks IH]; intros st; simpl; [done|].
  by rewrite IH, set_available_keys.
Qed.

Lemma health_fold_registry_ok probe keys ks : forall st,
  (forall g, In g ks -> In g keys) ->
  registry_ok keys st ->
  registry_ok keys (fold_left (fun st g => set_available g (probe g) st) ks st).
Proof.
  induction ks as [|k ks IH]; intros st Hsub Hok; simpl; [done|].
  apply IH; [intros g Hg; apply Hsub; by right|].
  apply set_available_registry_ok; [|done]. intros _. apply Hsub. by left.
Qed.

Lemma monitor_cycle_frame readings now gpus : forall m,
  let m' := monitor_cycle readings now gpus m in
  gpu_instances m' = gpu_instances m
  /\ gpu_queues m' = gpu_queues m
  /\ gpu_locks m' = gpu_locks m
  /\ map fst (gpu_status m') = map fst (gpu_status m)
  /\ (forall keys, registry_ok keys (gpu_status m) ->
                   registry_ok keys (gpu_status m')).
Proof.
  induction gpus as [|g gpus IH]; intros m; simpl; [done|].
  destruct (dict_get g (gpu_status m)); [|apply IH].
  destruct (readings g) as [[mem util]|]; [|done].
  destruct (gpu_queues m !! g) as [q|]; [|done].
  match goal with |- context [monitor_cycle _ _ _ ?m0] => specialize (IH m0) end.
  simpl in IH. destruct IH as (H1 & H2 & H3 & H4 & H5).
  split_and!; try done.
  - by rewrite H4, refresh_keys.
  - intros keys Hok. apply H5. by apply refresh_registry_ok.
Qed.

Lemma same_frame_refl m : same_frame m m.
Proof. by split_and!. Qed.

Lemma same_frame_trans m1 m2 m3 :
  same_frame m1 m2 -> same_frame m2 m3 -> same_frame m1 m3.
Proof.
  intros (A1 & A2 & A3 & A4 & A5) (B1 & B2 & B3 & B4 & B5).
  split_and!; [congruence|congruence| |congruence|].
  - intros g. rewrite B3. apply A3.
  - intros H. rewrite A1 in B5. auto.
Qed.

Lemma check_gpu_health_frame probe m : same_frame m (_check_gpu_health probe m).
Proof.
  split_and!; try done; simpl.
  - apply health_fold_keys.
  - by apply health_fold_registry_ok.
Qed.

Lemma handle_gpu_error_frame g m : same_frame m (_handle_gpu_error g m).1.
Proof.
  split_and!; try done; simpl.
  - apply set_available_keys.
  - by apply set_available_registry_ok.
Qed.

Lemma monitor_frame readings now m :
  same_frame m (_monitor_gpu_status readings now m).
Proof.
  destruct (monitor_cycle_frame readings now (map fst (gpu_instances m)) m)
    as (H1 & H2 & H3 & H4 & H5).
  split_and!; try done.
  - intros g. unfold qsize, _monitor_gpu_status. by rewrite H2.
  - apply H5.
Qed.

Lemma select_best_gpu_frame probe m : same_frame m (select_best_gpu probe m).1.1.
Proof.
  destruct (select_best_gpu_state probe m) as [-> | ->];
    [apply same_frame_refl|apply check_gpu_health_frame].
Qed.

Lemma except_block_same_frame sel e m : same_frame m (except_block sel e m).1.
Proof.
  destruct sel as [g|]; simpl; [|apply same_frame_refl].
  apply (handle_gpu_error_frame g m).
Qed.

Lemma try_block_frame inner probe c m :
  let r := try_block inner probe c m in
  gpu_instances r.1.1.1 = gpu_instances m
  /\ gpu_locks r.1.1.1 = gpu_locks m
  /\ map fst (gpu_status r.1.1.1) = map fst (gpu_status m)
  /\ gpu_status r.1.1.1 = gpu_status (select_best_gpu probe m).1.1.
Proof.
  simpl. unfold try_block.
  pose proof (select_best_gpu_frame probe m) as (H1 & H2 & _ & H4 & _).
  destruct (select_best_gpu probe m) as [[m1 tr0] [g|e]]; simpl in *; [|done].
  destruct (bool_decide (g ∈ gpu_locks m1)); simpl; [|done].
  destruct (gpu_queues m1 !! g); [|done].
  destruct (dict_get g (gpu_instances m1)); [|done].
  by destruct (forward c (inner _)).
Qed.

Lemma finally_block_frame sel m :
  gpu_instances (finally_block sel m).1 = gpu_instances m
  /\ gpu_locks (finally_block sel m).1 = gpu_locks m
  /\ gpu_status (finally_block sel m).1 = gpu_status m.
Proof.
  destruct sel as [g|]; simpl; [|done].
  destruct (bool_decide (g ∈ gpu_locks m)); simpl; [|done].
  by destruct (gpu_queues m !! g) as [[|x q]|].
Qed.

Lemma generate_with_same_frame inner probe c m :
  same_frame m (generate_podcast_streaming_with inner probe c m).1.
Proof.
  pose proof (generate_with_frame inner probe c m) as [Hq Hst].
  pose proof (select_best_gpu_frame probe m) as (S1 & S2 & S3 & S4 & S5).
  assert (Hil : gpu_instances (generate_podcast_streaming_with inner probe c m).1
                = gpu_instances m
                /\ gpu_locks (generate_podcast_streaming_with inner probe c m).1
                   = gpu_locks m).
  { unfold generate_podcast_streaming_with.
    pose proof (try_block_frame inner probe c m) as (T1 & T2 & _).
    destruct (try_block inner probe c m) as [[[m1 sel] tr1] en]. simpl in T1, T2.
    assert (Hx : exists mx trx, (match en with
                                 | Threw e => except_block sel e m1
                                 | _ => (m1, [])
                                 end) = (mx, trx)
                 /\ gpu_instances mx = gpu_instances m1
                 /\ gpu_locks mx = gpu_locks m1).
    { destruct en as [| |e]; [by eexists _, _|by eexists _, _|].
      pose proof (except_block_same_frame sel e m1) as (E1 & E2 & _).
      destruct (except_block sel e m1) as [mx trx]. by eexists _, _. }
    destruct Hx as (mx & trx & -> & X1 & X2).
    pose proof (finally_block_frame sel mx) as (F1 & F2 & _).
    destruct (finally_block sel mx) as [m3 tr3]. simpl in *.
    split; congruence. }
  destruct Hil as [Hi Hl].
  split_and!; [done|done|done| |].
  - destruct Hst as [-> | (g & ->)]; [done|]. by rewrite set_available_keys.
  - intros Hok. specialize (S5 Hok).
    destruct Hst as [-> | (g & ->)]; [done|].
    by apply set_available_registry_ok.
Qed.

Lemma run_op_frame o m : same_frame m (run_op o m).1.
Proof.
  destruct o as [p|p|g|r now|p req e c]; simpl.
  - pose proof (select_best_gpu_frame p m) as H.
    by destruct (select_best_gpu p m) as [[m1 tr] [g0|x]].
  - apply check_gpu_health_frame.
  - apply (handle_gpu_error_frame g m).
  - apply monitor_frame.
  - apply generate_with_same_frame.
Qed.

Lemma run_ops_frame ops : forall m, same_frame m (run_ops ops m).1.
Proof.
  induction ops as [|o ops IH]; intros m; simpl; [apply same_frame_refl|].
  pose proof (run_op_frame o m) as H1.
  destruct (run_op o m) as [m1 sel]. simpl in H1.
  specialize (IH m1). destruct (run_ops ops m1) as [m2 sels]. simpl in *.
  by eapply same_frame_trans.
Qed.

Lemma same_frame_well_formed m m' :
  same_frame m m' -> well_formed m -> well_formed m'.
Proof.
  intros (H1 & H2 & H3 & H4 & H5) (W1 & W2 & W3 & W4).
  destruct H5 as [R1 R2]; [by split|].
  unfold well_formed. rewrite H1, H2. split_and!; try done.
  intros g Hg. destruct (W3 g Hg) as [? [q Hq]]. split; [done|].
  specialize (H3 g). unfold qsize in H3. rewrite Hq in H3.
  by destruct (gpu_queues m' !! g).
Qed.

(** Selections, health checks, monitor cycles, fault handling, recovery
    and whole dispatched sessions, in any order, keep the dicts consistent
    and never add or remove a device from the registry or the instances. *)
Theorem operations_keep_well_formed ops m :
  well_formed m ->
  well_formed (run_ops ops m).1
  /\ map fst (gpu_status (run_ops ops m).1) = map fst (gpu_status m)
  /\ map fst (gpu_instances (run_ops ops m).1) = map fst (gpu_instances m).
Proof.
  intros Hwf. pose proof (run_ops_frame ops m) as Hf.
  split; [by eapply same_frame_well_formed|].
  destruct Hf as (H1 & _ & _ & H4 & _). by rewrite H1.
Qed.

Lemma mk_manager_well_formed st devices :
  NoDup (map fst st) -> NoDup devices ->
  (forall g s, In (g, s) st -> is_available s = true -> In g devices) ->
  well_formed (mk_manager st devices).
Proof.
  intros Hst Hd Hav.
  assert (Hk : map fst (map (fun g => (g, demo_alice)) devices) = devices).
  { rewrite map_map. simpl. apply map_id. }
  unfold well_formed. simpl. rewrite Hk. split_and!; try done.
  intros g Hg. split.
  - apply elem_of_list_to_set. by apply list_elem_of_In.
  - destruct (list_to_map (map (fun g0 => (g0, [])) devices) !! g)
      as [q|] eqn:E; [done|].
    apply not_elem_of_list_to_map_2 in E. exfalso. apply E.
    rewrite <- list_fmap_compose. simpl.
    apply list_elem_of_In. apply in_map_iff. by exists g.
Qed.

Lemma m_529_well_formed : well_formed m_529.
Proof.
  apply mk_manager_well_formed.
  - by apply (bool_decide_unpack _).
  - by apply (bool_decide_unpack _).
  - simpl. intros g s [[= <- <-]|[[= <- <-]|[[= <- <-]|[]]]] _; tauto.
Qed.

Lemma m_one_well_formed : well_formed m_one.
Proof.
  apply mk_manager_well_formed.
  - by apply (bool_decide_unpack _).
  - by apply (bool_decide_unpack _).
  - simpl. intros g s [[= <- <-]|[]] _; tauto.
Qed.

Lemma m_down_well_formed : well_formed m_down.
Proof.
  apply mk_manager_well_formed.
  - by apply (bool_decide_unpack _).
  - by apply (bool_decide_unpack _).
  - simpl. intros g s [[= <- <-]|[]] _; tauto.
Qed.

Lemma operations_keep_well_formed_witness :
  well_formed (run_ops ops_demo m_529).1.
Proof.
  exact (proj1 (operations_keep_well_formed ops_demo m_529 m_529_well_formed)).
Defined.

End InvariantProofs.

(** ** Dispatching under the invariant *)

Section DispatchProofs.

Import GPUManager.

Lemma drain_loop_inner_actions items : forall st,
  Forall inner_action (VibeVoiceDemo.drain_loop st items).2.
Proof.
  induction items as [|it rest IH]; intros st; simpl; [constructor|].
  destruct (VibeVoiceDemo.stop_seen it); [by repeat constructor|].
  assert (Hstep : Forall inner_action (VibeVoiceDemo.drain_step st it).2).
  { unfold VibeVoiceDemo.drain_step.
    repeat match goal with |- context [if ?b then _ else _] => destruct b end;
      simpl; by repeat constructor. }
  destruct (VibeVoiceDemo.drain_step st it) as [st1 tr1]. specialize (IH st1).
  destruct (VibeVoiceDemo.drain_loop st1 rest) as [st2 tr2]. simpl in *.
  by apply Forall_app.
Qed.

Lemma finalize_inner_actions e st :
  Forall inner_action (VibeVoiceDemo.finalize e st).
Proof.
  unfold VibeVoiceDemo.finalize.
  repeat match goal with |- context [if ?b then _ else _] => destruct b end;
    simpl; by repeat constructor.
Qed.

Lemma generate_inner_actions self req e :
  Forall inner_action (VibeVoiceDemo.generate_podcast_streaming self req e).
Proof.
  unfold VibeVoiceDemo.generate_podcast_streaming, VibeVoiceDemo.body.
  destruct (VibeVoiceDemo.validate self req) as [names|x];
    [|destruct x; by repeat constructor].
  destruct (VibeVoiceDemo.stop_after_log e); [by repeat constructor|].
  destruct (VibeVoiceDemo.load_voices self e names) as [vs|x];
    [|destruct x; by repeat constructor].
  destruct (VibeVoiceDemo.stop_after_voices e); [by repeat constructor|].
  destruct (VibeVoiceDemo.stop_before_processing e); [by repeat constructor|].
  destruct (VibeVoiceDemo.processor_raises e _); [by repeat constructor|].
  destruct (VibeVoiceDemo.stop_after_start e); [by repeat constructor|].
  apply Forall_app. split; [by repeat constructor|].
  unfold VibeVoiceDemo.stream_session.
  pose proof (drain_loop_inner_actions (VibeVoiceDemo.audio_stream e)
                (VibeVoiceDemo.initial_drain_state
                   (VibeVoiceDemo.loop_start_time e))) as Hd.
  destruct (VibeVoiceDemo.drain_loop _ _) as [st tr]. simpl in Hd.
  apply Forall_app. split; [done|apply finalize_inner_actions].
Qed.

(** Passing on a trace of inner actions never meets an exception. *)
Lemma forward_inner_actions inner : forall c,
  Forall inner_action inner ->
  Forall inner_action (forward c inner).1
  /\ (forward c inner).2 <> Threw RuntimeError
  /\ forall e, (forward c inner).2 <> Threw e.
Proof.
  induction inner as [|a inner IH]; intros c H; [by repeat split|].
  apply Forall_cons in H. destruct H as [Ha H].
  destruct a; try done; simpl.
  - destruct c as [[|k]|].
    + by repeat constructor.
    + destruct (IH (Some k) H) as (H1 & H2 & H3).
      simpl. destruct (forward (Some k) inner). simpl in *.
      split_and!; [by constructor|done|done].
    + destruct (IH None H) as (H1 & H2 & H3).
      simpl. destruct (forward None inner). simpl in *.
      split_and!; [by constructor|done|done].
  - destruct (IH c H) as (H1 & H2 & H3). destruct (forward c inner).
    simpl in *. split_and!; [by constructor|done|done].
  - destruct (IH c H) as (H1 & H2 & H3). destruct (forward c inner).
    simpl in *. split_and!; [by constructor|done|done].
  - destruct (IH c H) as (H1 & H2 & H3). destruct (forward c inner).
    simpl in *. split_and!; [by constructor|done|done].
  - destruct (IH c H) as (H1 & H2 & H3). destruct (forward c inner).
    simpl in *. split_and!; [by constructor|done|done].
Qed.

Lemma inner_not_fault a : inner_action a -> ~ fault_action a.
Proof. destruct a; simpl; tauto. Qed.

(** The scoring loop over available devices always returns one of them. *)
Lemma best_loop_available m a l :
  available_gpus m = a :: l ->
  exists g, best_loop (gpu_status m) (a :: l) None None = Ok (Some g)
            /\ In g (a :: l)
            /\ first_min (gpu_status m) (a :: l) g.
Proof.
  intros Ha.
  destruct (best_loop_first_min (gpu_status m) (a :: l) [] None None)
    as (r & Hr & Hspec).
  - intros g Hg. apply dict_get_in_keys, available_gpus_keys. by rewrite Ha.
  - done.
  - destruct r as [g|]; [|done]. exists g. split_and!; [done| |done].
    destruct Hspec as (l1 & l2 & s & Heq & _). simpl in Heq. rewrite Heq.
    apply in_elt.
Qed.

(** Every result of [select_best_gpu]. *)
Lemma select_best_gpu_result probe m :
  (available_gpus m <> []
   /\ exists g, select_best_gpu probe m = (m, [], Ok g)
                /\ In g (available_gpus m))
  \/ (available_gpus m = []
      /\ exists g,
           select_best_gpu probe m
           = (_check_gpu_health probe m, [HealthCheck], Ok g)
           /\ In g (available_gpus (_check_gpu_health probe m)))
  \/ (available_gpus m = []
      /\ available_gpus (_check_gpu_health probe m) = []
      /\ select_best_gpu probe m
         = (_check_gpu_health probe m, [HealthCheck], Raised RuntimeError)).
Proof.
  unfold select_best_gpu.
  destruct (available_gpus m) as [|a l] eqn:Ha.
  - right.
    destruct (available_gpus (_check_gpu_health probe m)) as [|a' l'] eqn:Ha'.
    + right. done.
    + left. split; [done|].
      destruct (best_loop_available _ _ _ Ha') as (g & -> & Hin & _). eauto.
  - left. split; [done|].
    destruct (best_loop_available _ _ _ Ha) as (g & -> & Hin & _). eauto.
Qed.

(** [select_best_gpu] has three outcomes: with a device flagged available
    it returns one of them and touches nothing; with none it runs one
    health check and returns a device the check flagged available; and it
    raises, always a [RuntimeError], only when the check leaves none. *)
Theorem select_best_gpu_cases probe m :
  (available_gpus m <> []
   /\ exists g, select_best_gpu probe m = (m, [], Ok g)
                /\ In g (available_gpus m))
  \/ (available_gpus m = []
      /\ exists g,
           select_best_gpu probe m
           = (_check_gpu_health probe m, [HealthCheck], Ok g)
           /\ In g (available_gpus (_check_gpu_health probe m)))
  \/ (available_gpus m = []
      /\ available_gpus (_check_gpu_health probe m) = []
      /\ select_best_gpu probe m
         = (_check_gpu_health probe m, [HealthCheck], Raised RuntimeError)).
Proof. apply select_best_gpu_result. Qed.

(** Under the invariant a selected device has a lock, a queue and an
    instance. *)
Lemma selected_device_ready probe m m1 tr0 g :
  well_formed m ->
  select_best_gpu probe m = (m1, tr0, Ok g) ->
  well_formed m1
  /\ (tr0 = [] \/ tr0 = [HealthCheck])
  /\ g ∈ gpu_locks m1
  /\ (exists q, gpu_queues m1 !! g = Some q)
  /\ (exists inst, dict_get g (gpu_instances m1) = Some inst).
Proof.
  intros Hwf Hsel.
  assert (Hwf1 : well_formed m1).
  { pose proof (select_best_gpu_frame probe m) as Hf. rewrite Hsel in Hf.
    by eapply same_frame_well_formed. }
  assert (Htr : tr0 = [] \/ tr0 = [HealthCheck]).
  { destruct (select_best_gpu_result probe m)
      as [(_ & g' & H & _)|[(_ & g' & H & _)|(_ & _ & H)]];
      rewrite H in Hsel; injection Hsel as <- <-; auto. }
  apply select_best_gpu_member in Hsel. destruct Hsel as [Hin _].
  destruct Hwf1 as (W1 & W2 & W3 & W4).
  assert (Hkey : In g (map fst (gpu_instances m1))).
  { unfold available_gpus in Hin. apply in_map_iff in Hin.
    destruct Hin as ([k s] & Hk & Hin). simpl in Hk. subst k.
    apply filter_In in Hin. destruct Hin as [Hin Hav]. eauto. }
  destruct (W3 g Hkey) as [Hl Hq].
  split_and!; [by split_and!|done|done|done|].
  by apply dict_get_in_keys.
Qed.

Lemma dispatch_trace inner probe c m :
  well_formed m ->
  (forall inst, Forall inner_action (inner inst)) ->
  let r := generate_podcast_streaming_with inner probe c m in
  (exists m1 tr0 g inst,
     select_best_gpu probe m = (m1, tr0, Ok g)
     /\ dict_get g (gpu_instances m) = Some inst
     /\ r.2 = tr0 ++ [QueuePut g] ++ (forward c (inner inst)).1 ++ [QueueGet g]
     /\ gpu_status r.1 = gpu_status m1)
  \/ (select_best_gpu probe m
      = (_check_gpu_health probe m, [HealthCheck], Raised RuntimeError)
      /\ r = (_check_gpu_health probe m,
              [HealthCheck;
               Yield (Tuple4 None None (LogGPUFailed RuntimeError) false)])).
Proof.
  intros Hwf Hinner. simpl.
  destruct (select_best_gpu probe m) as [[m1 tr0] [g|e]] eqn:Hsel.
  - left.
    destruct (selected_device_ready probe m m1 tr0 g Hwf Hsel)
      as (Hwf1 & _ & Hlock & (q & Hq) & (inst & Hinst)).
    pose proof (select_best_gpu_queues probe m) as (_ & _ & Hi).
    rewrite Hsel in Hi. simpl in Hi.
    exists m1, tr0, g, inst. split; [done|]. split; [by rewrite <- Hi|].
    unfold generate_podcast_streaming_with, try_block.
    rewrite Hsel, (bool_decide_eq_true_2 _ Hlock), Hq. simpl. rewrite Hinst.
    destruct (forward_inner_actions (inner inst) c (Hinner inst)) as (_ & _ & Hne).
    set (m2 := with_queues _ m1).
    destruct (finally_block_after_put g q m1 m2) as (_ & Htr & Hst);
      [by apply bool_decide_eq_true_2|done|done|done|].
    assert (Hst2 : gpu_status m2 = gpu_status m1) by done.
    clearbody m2.
    destruct (forward c (inner inst)) as [tr en]. simpl in Hne |- *.
    destruct (finally_block (Some g) m2) as [m3 tr3] eqn:Hfin.
    simpl in Htr, Hst. subst tr3.
    destruct en as [| |e]; [| |by destruct (Hne e)];
      unfold finally_block in Hfin; simpl; rewrite Hfin; simpl;
      rewrite ?app_nil_r, <- ?app_assoc; (split; [done|congruence]).
  - right.
    destruct (select_best_gpu_result probe m)
      as [(_ & g' & H & _)|[(_ & g' & H & _)|(_ & _ & H)]];
      rewrite H in Hsel; try done.
    injection Hsel as <- <- <-. split; [done|].
    unfold generate_podcast_streaming_with, try_block. by rewrite H.
Qed.

(** Under the invariant of the dicts, a dispatched session never reaches
    the fault handler: no device is marked unavailable, no cache cleared,
    no recovery thread started and no exception leaves the generator, the
    registry is as the selection left it, and the trace is the selection,
    one put, the instance's actions and one get -- or, when no device is
    available, the health check and the failure tuple. *)
Theorem dispatch_never_reaches_fault_handler probe req e c m :
  well_formed m ->
  let r := generate_podcast_streaming probe req e c m in
  (forall a, In a r.2 -> ~ fault_action a)
  /\ gpu_status r.1 = gpu_status (select_best_gpu probe m).1.1
  /\ ((exists g inst,
         (select_best_gpu probe m).2 = Ok g
         /\ dict_get g (gpu_instances m) = Some inst
         /\ r.2 = (select_best_gpu probe m).1.2 ++ [QueuePut g]
                  ++ (forward c (VibeVoiceDemo.generate_podcast_streaming
                                   inst req e)).1
                  ++ [QueueGet g])
      \/ ((select_best_gpu probe m).2 = Raised RuntimeError
          /\ r.2 = [HealthCheck;
                    Yield (Tuple4 None None (LogGPUFailed RuntimeError) false)])).
Proof.
  intros Hwf. simpl. unfold generate_podcast_streaming.
  destruct (dispatch_trace
              (fun inst => VibeVoiceDemo.generate_podcast_streaming inst req e)
              probe c m Hwf)
    as [(m1 & tr0 & g & inst & Hsel & Hinst & Htr & Hst)|[Hsel Hr]].
  { intros inst. apply generate_inner_actions. }
  - rewrite Hsel. simpl. split_and!; [|done|left; eauto].
    intros a Ha. rewrite Htr in Ha.
    destruct (selected_device_ready probe m m1 tr0 g Hwf Hsel) as (_ & Htr0 & _).
    apply in_app_or in Ha. destruct Ha as [Ha|Ha].
    { destruct Htr0 as [-> | ->]; [done|].
      destruct Ha as [<-|[]]. simpl. tauto. }
    simpl in Ha. destruct Ha as [<-|Ha]; [simpl; tauto|].
    apply in_app_or in Ha. destruct Ha as [Ha|[<-|[]]]; [|simpl; tauto].
    apply inner_not_fault.
    destruct (forward_inner_actions
                (VibeVoiceDemo.generate_podcast_streaming inst req e) c)
      as (Hf & _); [apply generate_inner_actions|].
    rewrite List.Forall_forall in Hf. auto.
  - rewrite Hsel, Hr. simpl. split_and!; [|done|by right].
    intros a [<-|[<-|[]]]; simpl; tauto.
Qed.

Lemma dispatch_never_reaches_fault_handler_witness :
  gpu_status (generate_podcast_streaming (fun _ => true) req_hi env_two None
                m_529).1
  = gpu_status (select_best_gpu (fun _ => true) m_529).1.1.
Proof.
  exact (proj1 (proj2 (dispatch_never_reaches_fault_handler (fun _ => true)
                         req_hi env_two None m_529 m_529_well_formed))).
Defined.

End DispatchProofs.

(** ** Registry order, failed devices and start-up errors *)

Section StartupOrder.

Import GPUManager Startup.








(** [_initialize_gpus] fails only for want of CUDA or of a valid target. *)
Theorem initialize_gpus_raises_iff cuda n targets create now :
  (exists e, _initialize_gpus cuda n targets create now = Raised e)
  <-> (cuda = false
       \/ exists ids, targets = Some ids
                      /\ forall id, In id ids -> ~ (0 <= id < n)).
Proof.
  unfold _initialize_gpus. destruct cuda; simpl.
  - destruct targets as [ids|].
    + destruct (valid_targets n ids) as [|a l] eqn:Hv.
      * split; [|eauto]. intros _. right. exists ids. split; [done|].
        intros id Hin Hb.
        assert (Hx : In id (valid_targets n ids)).
        { unfold valid_targets. apply filter_In. split; [done|]. lia. }
        by rewrite Hv in Hx.
      * split; [by intros [e He]|].
        intros [?|(ids' & [= <-] & Hall)]; [done|].
        assert (Hx : In a (valid_targets n ids)) by (rewrite Hv; by left).
        apply filter_In in Hx. destruct Hx as [Hx Hb]. destruct (Hall a Hx). lia.
    + split; [by intros [e He]|]. intros [?|(ids' & ? & _)]; done.
  - split; [auto|eauto].
Qed.

(** A device none of whose start-up attempts succeeds has no instance and
    is flagged unavailable. *)
Lemma init_loop_failed_device create now g targets : forall i m,
  (forall k, create k g = None) ->
  ~ In g (map fst (gpu_instances m)) ->
  unavailable g m ->
  ~ In g (map fst (gpu_instances (init_loop create now i targets m)))
  /\ unavailable g (init_loop create now i targets m).
Proof.
  induction targets as [|g0 rest IH]; intros i m Hfail Hni Hu; simpl; [done|].
  apply IH; [done| |].
  - destruct (create i g0) as [[[name total] inst]|] eqn:Hc; simpl; [|done].
    intros Hin. apply dict_set_keys_in in Hin. destruct Hin as [->|Hin]; [|done].
    by rewrite Hfail in Hc.
  - intros s Hin.
    destruct (create i g0) as [[[name total] inst]|] eqn:Hc; simpl in Hin;
      apply dict_set_entries in Hin; destruct Hin as [[-> ->]|Hin]; auto.
    by rewrite Hfail in Hc.
Qed.

Lemma health_fold_unavailable probe g ks : forall st,
  (probe g = false \/ ~ In g ks) ->
  (forall s, In (g, s) st -> is_available s = false) ->
  forall s, In (g, s) (fold_left (fun st k => set_available k (probe k) st) ks st) ->
            is_available s = false.
Proof.
  induction ks as [|k ks IH]; intros st Hor H; simpl; [done|].
  apply IH; [destruct Hor as [?|Hn]; [by left|right; intros ?; apply Hn; by right]|].
  apply set_available_unavailable; [|done].
  destruct (Z.eq_dec k g) as [->|Hne]; [|by left].
  destruct Hor as [?|Hn]; [by right|]. destruct Hn. by left.
Qed.

Lemma run_op_no_instance g o m :
  ~ In g (map fst (gpu_instances m)) ->
  unavailable g m ->
  unavailable g (run_op o m).1 /\ (run_op o m).2 <> Some g.
Proof.
  intros Hni Hu.
  assert (Hhc : forall p, unavailable g (_check_gpu_health p m)).
  { intros p. unfold unavailable, _check_gpu_health. simpl.
    apply health_fold_unavailable; [by right|done]. }
  assert (Hsel : forall p, unavailable g (select_best_gpu p m).1.1
                           /\ (select_best_gpu p m).2 <> Ok g).
  { intros p.
    assert (Hu1 : unavailable g (select_best_gpu p m).1.1).
    { destruct (select_best_gpu_state p m) as [-> | ->]; auto. }
    split; [done|]. intros Heq.
    destruct (select_best_gpu p m) as [[m1 tr] r] eqn:E. simpl in *. subst r.
    apply select_best_gpu_member in E. destruct E as [Hin _].
    by apply unavailable_not_listed in Hin. }
  destruct o as [p|p|g'|r now|p req e c]; simpl.
  - destruct (Hsel p) as [H1 H2].
    destruct (select_best_gpu p m) as [[m1 tr] [g0|x]]; simpl in *;
      (split; [done|congruence]).
  - split; [|done]. apply Hhc.
  - split; [|done]. unfold unavailable. simpl.
    apply set_available_unavailable; auto.
  - split; [|done]. by apply monitor_cycle_unavailable.
  - destruct (Hsel p) as [H1 H2]. split.
    + pose proof (generate_with_frame
          (fun i => VibeVoiceDemo.generate_podcast_streaming i req e) p c m)
        as [_ Hst].
      unfold generate_podcast_streaming, unavailable.
      destruct Hst as [-> | (g1 & ->)]; [done|].
      apply set_available_unavailable; auto.
    + destruct (select_best_gpu p m) as [[m1 tr] [g0|x]]; simpl in *; congruence.
Qed.

Lemma run_ops_no_instance g ops : forall m,
  ~ In g (map fst (gpu_instances m)) ->
  unavailable g m ->
  unavailable g (run_ops ops m).1 /\ ~ In g (run_ops ops m).2.
Proof.
  induction ops as [|o ops IH]; intros m Hni Hu; simpl; [auto|].
  destruct (run_op_no_instance g o m Hni Hu) as [H1 H2].
  pose proof (run_op_frame o m) as (F1 & _).
  destruct (run_op o m) as [m1 sel]. simpl in H1, H2, F1.
  destruct (IH m1) as [H3 H4]; [by rewrite F1|done|].
  destruct (run_ops ops m1) as [m2 sels]. simpl in *.
  split; [done|]. destruct sel as [g0|]; [|done].
  intros [->|Hin]; [congruence|done].
Qed.

(** A device whose every initialisation attempt failed is registered as
    unavailable and stays so: no later selection returns it, not even after
    health checks and recovery. *)
Theorem failed_device_never_selected cuda n targets create now m g ops :
  _initialize_gpus cuda n targets create now = Ok m ->
  (forall k, create k g = None) ->
  unavailable g (run_ops ops m).1 /\ ~ In g (run_ops ops m).2.
Proof.
  intros Hinit Hfail.
  assert (H : ~ In g (map fst (gpu_instances m)) /\ unavailable g m).
  { unfold _initialize_gpus in Hinit. destruct cuda; [|done]. cbn [negb] in Hinit.
    destruct targets as [ids|].
    - destruct (valid_targets n ids) as [|a l]; [done|].
      injection Hinit as <-.
      apply (init_loop_failed_device create now g (a :: l) 0%nat empty_manager);
        [done|by intros []|by intros s []].
    - injection Hinit as <-.
      apply (init_loop_failed_device create now g (range n) 0%nat empty_manager);
        [done|by intros []|by intros s []]. }
  destruct H as [Hni Hu]. by apply run_ops_no_instance.
Qed.

Lemma failed_device_never_selected_witness :
  exists m,
    _initialize_gpus true 2 None create_but_1 clock0 = Ok m
    /\ unavailable 1 (run_ops ops_demo m).1
    /\ ~ In 1 (run_ops ops_demo m).2.
Proof.
  eexists. split; [reflexivity|].
  apply (failed_device_never_selected true 2 None create_but_1 clock0);
    [reflexivity|]. intros k. reflexivity.
Defined.

End StartupOrder.

(** ** The monitor and the staleness of the registry *)

Section MonitorProofs.

Import GPUManager.

Lemma dict_get_None_keys {V} k (d : list (Z * V)) :
  dict_get k d = None -> ~ In k (map fst d).
Proof.
  induction d as [|[k' v] d IH]; simpl; [tauto|].
  destruct (Z.eqb_spec k' k) as [->|Hne]; [done|].
  intros H [?|?]; [done|]. by apply IH.
Qed.

Lemma refresh_other g mem util qlen now st k s :
  k <> g -> In (k, s) (refresh g mem util qlen now st) -> In (k, s) st.
Proof.
  intros Hne Hin. unfold refresh in Hin. apply in_map_iff in Hin.
  destruct Hin as ([k0 s0] & Heq & Hin). simpl in Heq.
  destruct (Z.eqb_spec k0 g) as [->|Hne0].
  - injection Heq as -> _. done.
  - by injection Heq as -> ->.
Qed.

Lemma refresh_same g mem util qlen now st s :
  In (g, s) (refresh g mem util qlen now st) ->
  queue_length s = qlen /\ memory_used s = mem /\ utilization s = util
  /\ last_updated s = now.
Proof.
  intros Hin. unfold refresh in Hin. apply in_map_iff in Hin.
  destruct Hin as ([k0 s0] & Heq & Hin). simpl in Heq.
  destruct (Z.eqb_spec k0 g) as [->|Hne0].
  - by injection Heq as <-.
  - injection Heq as -> _. done.
Qed.

Lemma monitor_cycle_other readings now gpus : forall m k s,
  ~ In k gpus ->
  In (k, s) (gpu_status (monitor_cycle readings now gpus m)) ->
  In (k, s) (gpu_status m).
Proof.
  induction gpus as [|g gpus IH]; intros m k s Hni Hin; simpl in Hin; [done|].
  assert (Hni' : ~ In k gpus) by (intros ?; apply Hni; by right).
  destruct (dict_get g (gpu_status m)); [|by apply IH in Hin].
  destruct (readings g) as [[mem util]|]; [|done].
  destruct (gpu_queues m !! g) as [q|]; [|done].
  apply IH in Hin; [|done]. simpl in Hin.
  apply refresh_other in Hin; [done|]. intros ->. apply Hni. by left.
Qed.

Lemma monitor_cycle_refreshed readings now gpus : forall m k s,
  NoDup gpus ->
  (forall g, In g gpus -> is_Some (readings g) /\ is_Some (gpu_queues m !! g)) ->
  In k gpus ->
  In (k, s) (gpu_status (monitor_cycle readings now gpus m)) ->
  Some (queue_length s) = Z.of_nat <$> qsize m k /\ last_updated s = now
  /\ Some (memory_used s, utilization s) = readings k.
Proof.
  induction gpus as [|g gpus IH]; intros m k s Hnd Hok Hk Hin; [done|].
  apply NoDup_cons in Hnd. destruct Hnd as [Hg Hnd].
  simpl in Hin.
  destruct (dict_get g (gpu_status m)) eqn:Hd.
  - destruct (Hok g) as [[[mem util] Hr] [q Hq]]; [by left|].
    rewrite Hr, Hq in Hin.
    destruct Hk as [->|Hk].
    + apply monitor_cycle_other in Hin; [|by rewrite <- list_elem_of_In].
      simpl in Hin. apply refresh_same in Hin.
      destruct Hin as (-> & -> & -> & ->). unfold qsize. by rewrite Hq, Hr.
    + apply (IH _ k s) in Hin; [done|done| |done].
      intros g' Hg'. apply Hok. by right.
  - destruct Hk as [->|Hk].
    + exfalso. apply dict_get_None_keys in Hd. apply Hd.
      pose proof (monitor_cycle_frame readings now gpus m) as (_ & _ & _ & K & _).
      rewrite <- K. apply in_map_iff. by exists (k, s).
    + apply (IH _ k s) in Hin; [done|done| |done].
      intros g' Hg'. apply Hok. by right.
Qed.

(** After a monitor cycle in which every measurement succeeds, the entry
    of each device with an instance holds the size its queue has, the
    measured memory and utilisation, and the time of the cycle. *)
Theorem monitor_copies_queue_sizes readings now m g s :
  well_formed m ->
  (forall k, In k (map fst (gpu_instances m)) -> is_Some (readings k)) ->
  In g (map fst (gpu_instances m)) ->
  In (g, s) (gpu_status (_monitor_gpu_status readings now m)) ->
  Some (queue_length s) = Z.of_nat <$> qsize m g
  /\ last_updated s = now
  /\ Some (memory_used s, utilization s) = readings g.
Proof.
  intros (W1 & W2 & W3 & W4) Hr Hg Hin.
  apply (monitor_cycle_refreshed readings now (map fst (gpu_instances m)) m g s);
    try done.
  intros k Hk. split; [auto|]. by destruct (W3 k Hk).
Qed.

Lemma monitor_copies_queue_sizes_witness :
  exists s,
    In (0, s) (gpu_status (_monitor_gpu_status (fun _ => Some (1%Q, 50%Q)) 5%Q
                             m_one))
    /\ Some (queue_length s) = Z.of_nat <$> qsize m_one 0
    /\ last_updated s = 5%Q
    /\ Some (memory_used s, utilization s) = Some (1%Q, 50%Q).
Proof.
  eexists. split; [left; reflexivity|].
  apply (monitor_copies_queue_sizes (fun _ => Some (1%Q, 50%Q)) 5%Q m_one 0).
  - exact m_one_well_formed.
  - intros k _. eexists. reflexivity.
  - left. reflexivity.
  - left. reflexivity.
Defined.

(** A monitor cycle never changes which devices exist, which are
    available, their names or their total memory. *)
Lemma monitor_cycle_fixed readings now gpus : forall m,
  map (fun kv => (kv.1, is_available kv.2, memory_total kv.2, device_name kv.2))
      (gpu_status (monitor_cycle readings now gpus m))
  = map (fun kv => (kv.1, is_available kv.2, memory_total kv.2, device_name kv.2))
        (gpu_status m).
Proof.
  induction gpus as [|g gpus IH]; intros m; simpl; [done|].
  destruct (dict_get g (gpu_status m)); [|apply IH].
  destruct (readings g) as [[mem util]|]; [|done].
  destruct (gpu_queues m !! g) as [q|]; [|done].
  rewrite IH. simpl. unfold refresh. rewrite map_map. apply map_ext.
  intros [k s]. simpl. by destruct (k =? g).
Qed.

Lemma monitor_cycle_abandoned readings now l1 g l2 : forall m,
  is_Some (dict_get g (gpu_status m)) ->
  readings g = None ->
  monitor_cycle readings now (l1 ++ g :: l2) m = monitor_cycle readings now l1 m.
Proof.
  induction l1 as [|k l1 IH]; intros m [s Hs] Hr; simpl.
  - by rewrite Hs, Hr.
  - destruct (dict_get k (gpu_status m)); [|by apply IH; eauto].
    destruct (readings k) as [[mem util]|]; [|done].
    destruct (gpu_queues m !! k) as [q|]; [|done].
    apply IH; [|done]. simpl.
    apply dict_get_in_keys. rewrite refresh_keys.
    clear -Hs. induction (gpu_status m) as [|[k' v] d IHd]; simpl in *; [done|].
    destruct (k' =? g) eqn:E; [left; lia|right; auto].
Qed.

(** When measuring a device raises, the cycle is abandoned: the devices
    before it in the instance dict are refreshed and every other entry, of
    that device and of those after it, is left as it was. *)
Theorem monitor_failure_leaves_rest_stale readings now m l1 g l2 k s :
  map fst (gpu_instances m) = l1 ++ g :: l2 ->
  is_Some (dict_get g (gpu_status m)) ->
  readings g = None ->
  ~ In k l1 ->
  In (k, s) (gpu_status (_monitor_gpu_status readings now m)) ->
  _monitor_gpu_status readings now m = monitor_cycle readings now l1 m
  /\ In (k, s) (gpu_status m).
Proof.
  intros Hkeys Hg Hr Hk Hin. unfold _monitor_gpu_status in *.
  rewrite Hkeys, monitor_cycle_abandoned in * by done.
  split; [done|]. by eapply monitor_cycle_other.
Qed.

Lemma monitor_failure_leaves_rest_stale_witness :
  _monitor_gpu_status readings_but_1 5%Q m_529
  = monitor_cycle readings_but_1 5%Q [0] m_529.
Proof.
  refine (proj1 (monitor_failure_leaves_rest_stale readings_but_1 5%Q m_529
                   [0] 1 [2] 2 (mk_status 2 0%Q 80%Q 30%Q 0 true).2
                   _ _ _ _ _)).
  - reflexivity.
  - eexists. reflexivity.
  - reflexivity.
  - simpl. lia.
  - right. right. left. reflexivity.
Defined.

(** A monitor cycle, whether it completes or is abandoned, changes no
    availability flag, total memory or device name and no queue, so the
    devices a selection may return are the same before and after it. *)
Theorem monitor_keeps_availability readings now m :
  map (fun kv => (kv.1, is_available kv.2, memory_total kv.2, device_name kv.2))
      (gpu_status (_monitor_gpu_status readings now m))
  = map (fun kv => (kv.1, is_available kv.2, memory_total kv.2, device_name kv.2))
        (gpu_status m)
  /\ gpu_queues (_monitor_gpu_status readings now m) = gpu_queues m
  /\ available_gpus (_monitor_gpu_status readings now m) = available_gpus m.
Proof.
  pose proof (monitor_cycle_fixed readings now (map fst (gpu_instances m)) m) as H.
  pose proof (monitor_cycle_frame readings now (map fst (gpu_instances m)) m)
    as (_ & Hq & _).
  split_and!; [done|done|].
  unfold available_gpus, _monitor_gpu_status.
  revert H. generalize (gpu_status (monitor_cycle readings now
                                      (map fst (gpu_instances m)) m)).
  generalize (gpu_status m). intros a b. revert a.
  induction b as [|[k s] b IH]; intros [|[k' s'] a] H; simpl in *; try done.
  injection H as -> Ha _ _ Hrest. rewrite Ha.
  destruct (is_available s'); simpl; by rewrite (IH a Hrest).
Qed.

(** The device a selection returns is determined by the registry it
    leaves: any later state with the same registry selects it again. *)
Lemma select_best_gpu_again probe m m1 tr g :
  select_best_gpu probe m = (m1, tr, Ok g) ->
  forall probe' m', gpu_status m' = gpu_status m1 ->
                    select_best_gpu probe' m' = (m', [], Ok g).
Proof.
  intros H probe' m' Hst.
  assert (Hb : exists a l, available_gpus m1 = a :: l
               /\ best_loop (gpu_status m1) (a :: l) None None = Ok (Some g)).
  { unfold select_best_gpu in H.
    destruct (available_gpus m) as [|a l] eqn:Ha.
    - destruct (available_gpus (_check_gpu_health probe m)) as [|a' l'] eqn:Ha';
        [done|].
      destruct (best_loop_available _ _ _ Ha') as (g' & Hb & _).
      rewrite Hb in H. injection H as <- <- <-. rewrite Ha'. eauto.
    - destruct (best_loop_available _ _ _ Ha) as (g' & Hb & _).
      rewrite Hb in H. injection H as <- <- <-. rewrite Ha. eauto. }
  destruct Hb as (a & l & Ha & Hb).
  unfold select_best_gpu, available_gpus in *. rewrite Hst, Ha. simpl.
  rewrite Hst. simpl in Hb. by rewrite Hb.
Qed.

(** While a dispatched session runs on a device, its queue holds one more
    item, but the registry does not show it: until a monitor cycle copies
    the queue size, every further selection returns that same device. *)
Theorem pending_put_invisible_to_selection inner probe c m m1 tr0 g :
  well_formed m ->
  select_best_gpu probe m = (m1, tr0, Ok g) ->
  exists q,
    gpu_queues m1 !! g = Some q
    /\ (try_block inner probe c m).1.1.1
       = with_queues (<[g := q ++ [1]]> (gpu_queues m1)) m1
    /\ qsize (try_block inner probe c m).1.1.1 g = Some (S (length q))
    /\ forall probe',
         (select_best_gpu probe' (try_block inner probe c m).1.1.1).2 = Ok g.
Proof.
  intros Hwf Hsel.
  destruct (selected_device_ready probe m m1 tr0 g Hwf Hsel)
    as (_ & _ & Hlock & (q & Hq) & (inst & Hinst)).
  exists q. split; [done|].
  assert (Htb : (try_block inner probe c m).1.1.1
                = with_queues (<[g := q ++ [1]]> (gpu_queues m1)) m1).
  { unfold try_block. rewrite Hsel, (bool_decide_eq_true_2 _ Hlock), Hq.
    simpl. rewrite Hinst. by destruct (forward c (inner inst)). }
  rewrite Htb. split_and!; [done| |].
  - unfold qsize. simpl. rewrite lookup_insert_eq. simpl.
    rewrite length_app. simpl. f_equal. lia.
  - intros probe'.
    by rewrite (select_best_gpu_again probe m m1 tr0 g Hsel probe'
                  (with_queues (<[g := q ++ [1]]> (gpu_queues m1)) m1) eq_refl).
Qed.

Lemma pending_put_invisible_to_selection_witness :
  exists q,
    gpu_queues m_529 !! 1 = Some q
    /\ qsize (try_block
                (fun i => VibeVoiceDemo.generate_podcast_streaming i req_hi env_two)
                (fun _ => true) None m_529).1.1.1 1
       = Some (S (length q)).
Proof.
  destruct (pending_put_invisible_to_selection
              (fun i => VibeVoiceDemo.generate_podcast_streaming i req_hi env_two)
              (fun _ => true) None m_529 m_529 [] 1 m_529_well_formed eq_refl)
    as (q & H1 & _ & H3 & _).
  exists q. split; assumption.
Defined.

End MonitorProofs.

(** ** The health check *)

Section HealthProofs.

Import GPUManager.

Lemma set_available_In g b st k s :
  In (k, s) (set_available g b st) ->
  exists s0, In (k, s0) st
             /\ s = if k =? g then with_available b s0 else s0.
Proof.
  unfold set_available. intros H. apply in_map_iff in H.
  destruct H as ([k' s0] & Heq & Hin). simpl in Heq.
  destruct (k' =? g) eqn:E; injection Heq as <- <-; exists s0; by rewrite E.
Qed.

Lemma health_fold_In probe k s : forall ks st,
  In (k, s) (fold_left (fun st g => set_available g (probe g) st) ks st) ->
  exists s0, In (k, s0) st
             /\ ((In k ks /\ s = with_available (probe k) s0)
                 \/ (~ In k ks /\ s = s0)).
Proof.
  induction ks as [|g ks IH]; intros st H; simpl in H.
  - exists s. split; [done|]. right. by split; [intros []|].
  - destruct (IH _ H) as (s1 & H1 & Hs).
    destruct (set_available_In _ _ _ _ _ H1) as (s0 & H0 & Hs1).
    exists s0. split; [done|].
    destruct (Z.eqb_spec k g) as [->|Hne].
    + left. split; [by left|]. destruct Hs as [[_ ->]|[_ ->]]; by subst s1.
    + subst s1. destruct Hs as [[Hin ->]|[Hni ->]].
      * left. split; [by right|done].
      * right. split; [|done]. intros [?|?]; [congruence|done].
Qed.

(** A health check overwrites the availability flag of every device that
    has an instance with the result of probing it, whatever the flag was,
    and changes nothing else: the other fields of an entry, the entries of
    devices without an instance, the registry's keys, the instances, the
    queues and the locks. *)
Theorem check_gpu_health_flags probe m g s :
  In (g, s) (gpu_status (_check_gpu_health probe m)) ->
  (exists s0,
     In (g, s0) (gpu_status m)
     /\ ((In g (map fst (gpu_instances m))
          /\ s = with_available (probe g) s0)
         \/ (~ In g (map fst (gpu_instances m)) /\ s = s0)))
  /\ map fst (gpu_status (_check_gpu_health probe m)) = map fst (gpu_status m)
  /\ gpu_instances (_check_gpu_health probe m) = gpu_instances m
  /\ gpu_queues (_check_gpu_health probe m) = gpu_queues m
  /\ gpu_locks (_check_gpu_health probe m) = gpu_locks m.
Proof.
  intros H. split; [by apply health_fold_In|].
  split; [|done]. apply health_fold_keys.
Qed.

Lemma check_gpu_health_flags_witness :
  exists s,
    In (0, s) (gpu_status (_check_gpu_health (fun _ => false) m_one))
    /\ map fst (gpu_status (_check_gpu_health (fun _ => false) m_one))
       = map fst (gpu_status m_one).
Proof.
  eexists. split; [left; reflexivity|].
  refine (proj1 (proj2 (check_gpu_health_flags (fun _ => false) m_one 0 _ _))).
  left. reflexivity.
Defined.

End HealthProofs.

(** ** Conversion to 16-bit samples and the progress bar *)

Section AudioProofs.

Import Audio Display.

Lemma Qtrunc_bound q (b : Z) :
  0 <= b -> (Qabs q <= inject_Z b)%Q -> - b <= Qtrunc q <= b.
Proof.
  intros Hb H. destruct q as [n d]. unfold Qtrunc, Qabs, Qle in *. simpl in *.
  rewrite Z.mul_1_r in H.
  assert (Hd : 0 < Zpos d) by lia.
  destruct (Z.le_gt_cases 0 n) as [Hn|Hn].
  - rewrite Z.abs_eq in H by done.
    rewrite Z.quot_div_nonneg by lia. split.
    + pose proof (Z.div_pos n (Zpos d)). lia.
    + apply Z.div_le_upper_bound; lia.
  - rewrite Z.abs_neq in H by lia.
    replace n with (- (- n)) by lia. rewrite Z.quot_opp_l by lia.
    rewrite Z.quot_div_nonneg by lia. split.
    + assert (- n / Zpos d <= b); [|lia]. apply Z.div_le_upper_bound; lia.
    + pose proof (Z.div_pos (- n) (Zpos d)). lia.
Qed.




Lemma Qmaxb_le_l a b : (a <= Qmaxb a b)%Q.
Proof.
  unfold Qmaxb. destruct (Qle_bool a b) eqn:E; [by apply Qle_bool_iff|apply Qle_refl].
Qed.

Lemma Qmaxb_le_r a b : (b <= Qmaxb a b)%Q.
Proof.
  unfold Qmaxb. destruct (Qle_bool a b) eqn:E; [apply Qle_refl|].
  apply Qlt_le_weak, Qltb_true. unfold Qltb. by rewrite E.
Qed.

Lemma fold_max_ge rest : forall m0,
  (m0 <= fold_left (fun m y => Qmaxb m (Qabs y)) rest m0)%Q
  /\ forall x, In x rest ->
       (Qabs x <= fold_left (fun m y => Qmaxb m (Qabs y)) rest m0)%Q.
Proof.
  induction rest as [|y rest IH]; intros m0; simpl.
  - split; [apply Qle_refl|intros x []].
  - destruct (IH (Qmaxb m0 (Qabs y))) as [H1 H2]. split.
    + eapply Qle_trans; [apply Qmaxb_le_l|exact H1].
    + intros x [<-|Hx]; [|auto].
      eapply Qle_trans; [apply Qmaxb_le_r|exact H1].
Qed.

Lemma max_abs_ge data peak x :
  max_abs data = Some peak -> In x data -> (Qabs x <= peak)%Q.
Proof.
  destruct data as [|x0 rest]; [done|]. simpl. intros [= <-] [<-|Hx].
  - apply (proj1 (fold_max_ge rest (Qabs x0))).
  - by apply (proj2 (fold_max_ge rest (Qabs x0))).
Qed.

(** The peak is the magnitude of one of the samples. *)
Lemma max_abs_attained data peak :
  max_abs data = Some peak -> exists x, In x data /\ peak = Qabs x.
Proof.
  destruct data as [|x0 rest]; [done|]. simpl. intros [= <-].
  assert (H : forall m0, fold_left (fun m y => Qmaxb m (Qabs y)) rest m0 = m0
                         \/ exists x, In x rest /\
                              fold_left (fun m y => Qmaxb m (Qabs y)) rest m0
                              = Qabs x).
  { induction rest as [|y rest IH]; intros m0; simpl; [by left|].
    destruct (IH (Qmaxb m0 (Qabs y))) as [->|(x & Hx & ->)]; [|eauto].
    unfold Qmaxb. destruct (Qle_bool m0 (Qabs y)); eauto. }
  destruct (H (Qabs x0)) as [->|(x & Hx & ->)]; eauto.
Qed.

(** [convert_to_16_bit_wav] raises exactly on an empty array; otherwise it
    keeps the number of samples and every sample it returns lies between
    -32767 and 32767, whatever the magnitude of the input. *)
Theorem convert_to_16_bit_wav_range data :
  (convert_to_16_bit_wav data = None <-> data = [])
  /\ forall out, convert_to_16_bit_wav data = Some out ->
       length out = length data
       /\ forall v, In v out -> -32767 <= v <= 32767.
Proof.
  split.
  - unfold convert_to_16_bit_wav. by destruct data.
  - unfold convert_to_16_bit_wav.
    destruct (max_abs data) as [peak|] eqn:Hp; [|done].
    intros out [= <-]. split.
    + rewrite length_map. by destruct (Qltb 1 peak); rewrite ?length_map.
    + intros v Hv. apply in_map_iff in Hv. destruct Hv as (x & <- & Hx).
      apply (Qtrunc_bound (x * 32767) 32767); [lia|].
      assert (Hx1 : (Qabs x <= 1)%Q).
      { destruct (Qltb 1 peak) eqn:E.
        - apply Qltb_true in E. apply in_map_iff in Hx.
          destruct Hx as (y & <- & Hy).
          assert (Hpos : (0 < peak)%Q) by (eapply Qlt_trans; [|exact E]; done).
          unfold Qdiv. rewrite Qabs_Qmult.
          rewrite (Qabs_pos (/ peak)) by (apply Qlt_le_weak, Qinv_lt_0_compat; done).
          apply Qle_shift_div_r; [done|]. rewrite Qmult_1_l.
          by eapply max_abs_ge.
        - apply Qltb_false in E. eapply Qle_trans; [|exact E].
          by eapply max_abs_ge. }
      rewrite Qabs_Qmult. change (Qabs 32767) with 32767%Q.
      apply Qle_trans with (1 * 32767)%Q; [|done].
      apply Qmult_le_compat_r; done.
Qed.

Lemma Qtrunc_comp q r : (q == r)%Q -> Qtrunc q = Qtrunc r.
Proof.
  destruct q as [n d], r as [n' d']. unfold Qeq, Qtrunc. simpl. intros H.
  rewrite <- (Z.quot_mul_cancel_r n (Zpos d) (Zpos d')) by lia.
  rewrite <- (Z.quot_mul_cancel_r n' (Zpos d') (Zpos d)) by lia.
  rewrite H. f_equal. lia.
Qed.

Lemma Qtrunc_inject z : Qtrunc (inject_Z z) = z.
Proof. unfold Qtrunc. simpl. apply Z.quot_1_r. Qed.

(** When some sample exceeds 1 in magnitude the array is rescaled, and the
    loudest sample comes out at full scale. *)
Theorem convert_to_16_bit_wav_full_scale data peak :
  max_abs data = Some peak ->
  (1 < peak)%Q ->
  exists out,
    convert_to_16_bit_wav data = Some out
    /\ exists v, In v out /\ Z.abs v = 32767.
Proof.
  intros Hp Hlt. unfold convert_to_16_bit_wav. rewrite Hp.
  apply Qltb_true in Hlt as Hb. rewrite Hb. eexists. split; [reflexivity|].
  destruct (max_abs_attained data peak Hp) as (x & Hx & Hpeak).
  exists (Qtrunc (x / peak * 32767)). split.
  { apply in_map_iff. exists (x / peak)%Q. split; [done|].
    apply in_map_iff. by exists x. }
  assert (Hpos : (0 < peak)%Q) by (eapply Qlt_trans; [|exact Hlt]; done).
  assert (Hne : ~ (peak == 0)%Q).
  { intros H0. rewrite H0 in Hpos. by apply Qlt_irrefl in Hpos. }
  destruct (Qlt_le_dec x 0) as [Hneg|Hnn].
  - assert (Hq : (x / peak * 32767 == inject_Z (-32767))%Q).
    { rewrite Hpeak in Hne |- *. rewrite Qabs_neg in Hne |- * by (by apply Qlt_le_weak).
      field. intros H0. apply Hne. rewrite H0. reflexivity. }
    by rewrite (Qtrunc_comp _ _ Hq), Qtrunc_inject.
  - assert (Hq : (x / peak * 32767 == inject_Z 32767)%Q).
    { rewrite Hpeak in Hne |- *. rewrite Qabs_pos in Hne |- * by done.
      field. done. }
    by rewrite (Qtrunc_comp _ _ Hq), Qtrunc_inject.
Qed.

Lemma convert_to_16_bit_wav_full_scale_witness :
  exists out,
    convert_to_16_bit_wav [2%Q; (-1)%Q] = Some out
    /\ exists v, In v out /\ Z.abs v = 32767.
Proof.
  exact (convert_to_16_bit_wav_full_scale [2%Q; (-1)%Q] 2%Q eq_refl eq_refl).
Defined.




End AudioProofs.

(** ** The generation wrapper *)

Section InterfaceProofs.

Import GPUManager Interface.

Lemma wrap_inner tr :
  Forall inner_action tr -> wrap tr = wrap_results (yields tr).
Proof.
  induction tr as [|a tr IH]; intros H; [done|].
  apply Forall_cons in H. destruct H as [Ha H].
  destruct a as [[s c log vis|log]| | | | | | | | | | | |]; try done; simpl;
    by rewrite ?IH.
Qed.

Lemma yields_app a b : yields (a ++ b) = yields a ++ yields b.
Proof. apply flat_map_app. Qed.

Lemma yields_cons_yield r tr : yields (Yield r :: tr) = r :: yields tr.
Proof. done. Qed.

(** Closing at the first 3-tuple does not change what the loop sees. *)
Lemma wrap_forward tr post :
  Forall inner_action tr ->
  (forall a, In a post -> is_yield a = false /\ forall e, a <> Raise e) ->
  wrap ((forward (first_tuple3 (yields tr)) tr).1 ++ post)
  = wrap_results (yields tr).
Proof.
  intros H Hpost.
  assert (Hp : wrap post = []).
  { clear -Hpost. induction post as [|a post IH]; [done|].
    destruct (Hpost a) as [Hy Hr]; [by left|].
    destruct a; try done; try (apply IH; intros; apply Hpost; by right).
    by destruct (Hr e). }
  induction tr as [|a tr IH]; [done|].
  apply Forall_cons in H. destruct H as [Ha H]. specialize (IH H).
  destruct a as [[s c log vis|log]| | | | | | | | | | | |]; try done.
  - rewrite yields_cons_yield. simpl.
    destruct (first_tuple3 (yields tr)) as [k|] eqn:Hk; simpl in *.
    + destruct (forward (Some k) tr) as [tr' en]. simpl in *. by rewrite IH.
    + destruct (forward None tr) as [tr' en]. simpl in *. by rewrite IH.
  - change (yields (ThreadStart :: tr)) with (yields tr). simpl.
    destruct (forward _ tr) as [tr' en]. simpl in *. done.
  - change (yields (Sleep secs :: tr)) with (yields tr). simpl.
    destruct (forward _ tr) as [tr' en]. simpl in *. done.
  - change (yields (StreamerEnd :: tr)) with (yields tr). simpl.
    destruct (forward _ tr) as [tr' en]. simpl in *. done.
  - change (yields (Join timeout :: tr)) with (yields tr). simpl.
    destruct (forward _ tr) as [tr' en]. simpl in *. done.
Qed.

Lemma forward_none_inner tr :
  Forall inner_action tr -> forward None tr = (tr, Exhausted).
Proof.
  induction tr as [|a tr IH]; intros H; [done|].
  apply Forall_cons in H. destruct H as [Ha H].
  destruct a; try done; simpl; by rewrite IH.
Qed.

Lemma yields_select probe m m1 tr0 r :
  select_best_gpu probe m = (m1, tr0, r) -> yields tr0 = [] /\ wrap tr0 = [].
Proof.
  intros Hsel.
  destruct (select_best_gpu_result probe m)
    as [(_ & g' & H & _)|[(_ & g' & H & _)|(_ & _ & H)]];
    rewrite H in Hsel; by injection Hsel as <- <- <-.
Qed.

(** What the wrapper yields, under the invariant. *)
Lemma wrapper_events probe req e m :
  well_formed m ->
  let r := generate_podcast_wrapper probe req e m in
  (forall g, qsize r.1 g = qsize m g)
  /\ ((exists g inst,
         (select_best_gpu probe m).2 = Ok g
         /\ dict_get g (gpu_instances m) = Some inst
         /\ r.2 = start_event
                  :: wrap_results
                       (yields (VibeVoiceDemo.generate_podcast_streaming
                                  inst req e)))
      \/ ((select_best_gpu probe m).2 = Raised RuntimeError
          /\ r.2 = [start_event;
                    tuple_event None None (LogGPUFailed RuntimeError) false])).
Proof.
  intros Hwf. simpl. unfold generate_podcast_wrapper. simpl.
  split.
  { apply (generate_with_frame
             (fun i => VibeVoiceDemo.generate_podcast_streaming i req e)). }
  set (inner := fun i => VibeVoiceDemo.generate_podcast_streaming i req e).
  assert (Hinner : forall inst, Forall inner_action (inner inst)).
  { intros inst. apply generate_inner_actions. }
  unfold generate_podcast_streaming. fold inner.
  destruct (dispatch_trace inner probe None m Hwf Hinner)
    as [(m1 & tr0 & g & inst & Hsel & Hinst & Htr & _)|[Hsel Hr]].
  - left. exists g, inst. rewrite Hsel. split; [done|]. split; [done|].
    f_equal.
    destruct (yields_select _ _ _ _ _ Hsel) as [Hy0 Hw0].
    rewrite Htr, forward_none_inner by done.
    assert (Hy : yields (tr0 ++ [QueuePut g] ++ (inner inst, Exhausted).1
                           ++ [QueueGet g])
                 = yields (inner inst)).
    { rewrite yields_app, Hy0. simpl. rewrite yields_app. simpl.
      by rewrite app_nil_r. }
    rewrite Hy.
    destruct (dispatch_trace inner probe (first_tuple3 (yields (inner inst))) m
                Hwf Hinner)
      as [(m1' & tr0' & g' & inst' & Hsel' & Hinst' & Htr' & _)|[Hsel' _]];
      [|by rewrite Hsel in Hsel'].
    rewrite Hsel in Hsel'. injection Hsel' as <- <- <-.
    rewrite Hinst in Hinst'. injection Hinst' as <-.
    rewrite Htr'.
    assert (Hskip : forall a b, wrap a = [] -> yields a = [] ->
                                wrap (a ++ b) = wrap b).
    { clear. induction a as [|x a IH]; intros b Hw Hy; [done|].
      destruct x as [[s c log vis|log]| | | | | | | | | | | |]; try done;
        simpl in *; by apply IH. }
    rewrite Hskip by done. simpl.
    apply (wrap_forward (inner inst) [QueueGet g]); [done|].
    intros a [<-|[]]. done.
  - right. rewrite Hsel. split; [done|].
    pose proof (dispatch_trace inner probe
                  (first_tuple3 (yields (generate_podcast_streaming_with inner
                                           probe None m).2)) m Hwf Hinner)
      as [(m1' & tr0' & g' & inst' & Hsel' & _)|[_ Hr']];
      [by rewrite Hsel in Hsel'|].
    by rewrite Hr'.
Qed.

Lemma wrap_progress tr rest :
  Forall progress_action tr ->
  Forall running_event (wrap tr) /\ wrap (tr ++ rest) = wrap tr ++ wrap rest.
Proof.
  induction tr as [|a tr IH]; intros H; [by split|].
  apply Forall_cons in H. destruct H as [Ha H]. destruct (IH H) as [IH1 IH2].
  destruct a as [[s [c|] log vis|log]| | | | | | | | | | | |]; try done; simpl.
  split; [|by rewrite IH2]. by constructor.
Qed.

Lemma drain_loop_progress items : forall st,
  Forall progress_action (VibeVoiceDemo.drain_loop st items).2.
Proof.
  induction items as [|it rest IH]; intros st; simpl; [constructor|].
  destruct (VibeVoiceDemo.stop_seen it); [by repeat constructor|].
  assert (Hstep : Forall progress_action (VibeVoiceDemo.drain_step st it).2).
  { unfold VibeVoiceDemo.drain_step.
    repeat match goal with |- context [if ?b then _ else _] => destruct b end;
      simpl; by repeat constructor. }
  destruct (VibeVoiceDemo.drain_step st it) as [st1 tr1]. specialize (IH st1).
  destruct (VibeVoiceDemo.drain_loop st1 rest) as [st2 tr2]. simpl in *.
  by apply Forall_app.
Qed.

(** The events of a session that reached the drain loop. *)
Lemma stream_session_events e :
  exists mid last,
    wrap (VibeVoiceDemo.stream_session e) = mid ++ [last]
    /\ Forall running_event mid
    /\ (if VibeVoiceDemo.stop_at_end e
            || negb (VibeVoiceDemo.nonempty
                       (received (VibeVoiceDemo.audio_stream e)))
        then running_event last
        else last = tuple_event None
                      (Some (VibeVoiceDemo.sample_rate,
                             concat (received (VibeVoiceDemo.audio_stream e))))
                      (LogCompleted
                         (VibeVoiceDemo.sum_len
                            (received (VibeVoiceDemo.audio_stream e)))
                         (Z.of_nat
                            (length (received (VibeVoiceDemo.audio_stream e)))))
                      false).
Proof.
  unfold VibeVoiceDemo.stream_session.
  pose proof (drain_loop_spec (VibeVoiceDemo.audio_stream e)
                (VibeVoiceDemo.initial_drain_state
                   (VibeVoiceDemo.loop_start_time e))) as H.
  pose proof (drain_loop_progress (VibeVoiceDemo.audio_stream e)
                (VibeVoiceDemo.initial_drain_state
                   (VibeVoiceDemo.loop_start_time e))) as Hp.
  destruct (VibeVoiceDemo.drain_loop _ _) as [st tr]. simpl in H, Hp.
  destruct H as (Ha & _ & _ & Hn & Hr & _ & Hd).
  specialize (Hd ltac:(done)). simpl in Ha, Hn, Hr.
  unfold drained_ok in Hd. rewrite Hr in Hd.
  set (rec := received (VibeVoiceDemo.audio_stream e)) in *.
  unfold VibeVoiceDemo.finalize. rewrite Ha, Hr, Hn. clear Ha Hr Hn.
  set (joins := Join 5%Q :: _).
  assert (Hj : Forall progress_action joins).
  { unfold joins. destruct (VibeVoiceDemo.alive_after_join e);
      by repeat constructor. }
  clearbody joins.
  assert (Hgen : forall flush last,
             Forall progress_action flush ->
             exists mid,
               wrap (tr ++ flush ++ joins ++ [Yield last])
               = mid ++ wrap [Yield last] /\ Forall running_event mid).
  { intros flush last Hf.
    exists (wrap (tr ++ flush ++ joins)). split.
    - replace (tr ++ flush ++ joins ++ [Yield last])
        with ((tr ++ flush ++ joins) ++ [Yield last])
        by (by rewrite <- !app_assoc).
      apply wrap_progress. by repeat (apply Forall_app; split).
    - apply (wrap_progress _ []). by repeat (apply Forall_app; split). }
  destruct (VibeVoiceDemo.stop_at_end e); simpl.
  { destruct (VibeVoiceDemo.nonempty (VibeVoiceDemo.pending_chunks st)).
    - edestruct Hgen as (mid & -> & Hm); [by repeat constructor|].
      by eexists _, _.
    - edestruct (Hgen []) as (mid & Hw & Hm); [by constructor|].
      rewrite Hw. by eexists _, _. }
  destruct rec as [|c cs] eqn:Hrec; simpl in *.
  { destruct (VibeVoiceDemo.nonempty (VibeVoiceDemo.pending_chunks st)).
    - edestruct Hgen as (mid & -> & Hm); [by repeat constructor|].
      by eexists _, _.
    - edestruct (Hgen []) as (mid & Hw & Hm); [by constructor|].
      rewrite Hw. by eexists _, _. }
  destruct (VibeVoiceDemo.pending_chunks st) as [|p ps] eqn:Hpend;
    cbn -[app concat].
  - destruct Hd as [Hd|Hd]; [done|done|]. rewrite Hd. cbn -[app concat].
    edestruct (Hgen []) as (mid & Hw & Hm); [by constructor|].
    rewrite Hw. eexists _, _. split; [done|]. split; [done|].
    simpl. repeat f_equal; lia.
  - edestruct Hgen as (mid & -> & Hm); [by repeat constructor|].
    eexists _, _. split; [done|]. split; [done|].
    simpl. repeat f_equal; lia.
Qed.

Lemma wrapper_events_selected probe req e m g inst :
  well_formed m ->
  (select_best_gpu probe m).2 = Ok g ->
  dict_get g (gpu_instances m) = Some inst ->
  (generate_podcast_wrapper probe req e m).2
  = start_event
    :: wrap (VibeVoiceDemo.generate_podcast_streaming inst req e).
Proof.
  intros Hwf Hsel Hinst.
  destruct (wrapper_events probe req e m Hwf)
    as [_ [(g' & inst' & Hsel' & Hinst' & ->)|[Hsel' _]]]; [|congruence].
  rewrite Hsel in Hsel'. injection Hsel' as <-.
  rewrite Hinst in Hinst'. injection Hinst' as <-.
  by rewrite (wrap_inner _ (generate_inner_actions inst req e)).
Qed.

(** A session that reaches the drain loop: every event but the last keeps
    the generate button hidden and the stop button shown; the last one shows
    the complete audio, made of the chunks received, and the generate
    button when the stop flag is clear after the final join and at least
    one chunk was received, and is one more such event otherwise. *)
Theorem wrapper_session_buttons probe req e m g inst :
  well_formed m ->
  (select_best_gpu probe m).2 = Ok g ->
  dict_get g (gpu_instances m) = Some inst ->
  starts_streaming inst req e ->
  exists mid last,
    (generate_podcast_wrapper probe req e m).2 = start_event :: mid ++ [last]
    /\ (forall ev, In ev mid -> running_event ev)
    /\ (if VibeVoiceDemo.stop_at_end e
            || negb (VibeVoiceDemo.nonempty
                       (received (VibeVoiceDemo.audio_stream e)))
        then running_event last
        else complete_audio_output last
             = CompleteVisible
                 (VibeVoiceDemo.sample_rate,
                  concat (received (VibeVoiceDemo.audio_stream e)))
             /\ audio_output last = None
             /\ streaming_status last = false
             /\ generate_btn last = true
             /\ stop_btn last = false).
Proof.
  intros Hwf Hsel Hinst Hstart.
  rewrite (wrapper_events_selected probe req e m g inst Hwf Hsel Hinst).
  rewrite (generate_streaming inst req e Hstart).
  destruct (stream_session_events e) as (mid & last & Hw & Hmid & Hlast).
  exists mid, last. split; [by rewrite <- Hw|].
  split; [by apply List.Forall_forall|].
  destruct (_ || _); [done|]. by subst last.
Qed.

Lemma wrapper_session_buttons_witness :
  exists mid last,
    (generate_podcast_wrapper (fun _ => true) req_hi env_two m_one).2
    = start_event :: mid ++ [last]
    /\ (forall ev, In ev mid -> running_event ev)
    /\ complete_audio_output last
       = CompleteVisible (VibeVoiceDemo.sample_rate, [1; 2; 3; 4; 5]).
Proof.
  destruct (wrapper_session_buttons (fun _ => true) req_hi env_two m_one 0
              demo_alice m_one_well_formed eq_refl eq_refl
              (starts_streaming_alice _ _))
    as (mid & last & H1 & H2 & H3).
  exists mid, last. split; [exact H1|]. split; [exact H2|].
  exact (proj1 H3).
Defined.

(** A session stopped at one of the four stop checks that precede the
    drain loop yields a 3-tuple, which the wrapper cannot unpack: the user
    sees the start event and then the wrapper's critical-error event. *)
Theorem wrapper_early_stop_critical_error probe req e m g inst :
  well_formed m ->
  (select_best_gpu probe m).2 = Ok g ->
  dict_get g (gpu_instances m) = Some inst ->
  stopped_early inst req e ->
  (generate_podcast_wrapper probe req e m).2 = [start_event; error_event].
Proof.
  intros Hwf Hsel Hinst (names & Hv & Hstop).
  rewrite (wrapper_events_selected probe req e m g inst Hwf Hsel Hinst).
  f_equal. unfold VibeVoiceDemo.generate_podcast_streaming, VibeVoiceDemo.body.
  rewrite Hv.
  destruct (VibeVoiceDemo.stop_after_log e); [done|].
  destruct Hstop as [Hstop|(voices & Hl & Hstop)]; [done|]. rewrite Hl.
  destruct (VibeVoiceDemo.stop_after_voices e); [done|].
  destruct (VibeVoiceDemo.stop_before_processing e); [done|].
  destruct Hstop as [Hstop|[Hstop|[Hp Hstop]]]; [done|done|].
  by rewrite Hp, Hstop.
Qed.

Lemma wrapper_early_stop_critical_error_witness :
  (generate_podcast_wrapper (fun _ => true) req_hi env_stop_early m_one).2
  = [start_event; error_event].
Proof.
  apply (wrapper_early_stop_critical_error (fun _ => true) req_hi
           env_stop_early m_one 0 demo_alice).
  - exact m_one_well_formed.
  - reflexivity.
  - reflexivity.
  - exists [lit "Alice"]. split; [reflexivity|]. left. reflexivity.
Defined.

(** A request that fails validation gives two events, the start event and
    the input error's log, and the second still hides the generate button
    and shows the stop button. *)
Theorem wrapper_input_error_events probe req e m g inst :
  well_formed m ->
  (select_best_gpu probe m).2 = Ok g ->
  dict_get g (gpu_instances m) = Some inst ->
  violates inst req ->
  exists ie,
    (generate_podcast_wrapper probe req e m).2
    = [start_event;
       {| audio_output := None; complete_audio_output := CompleteHidden;
          log_output := LogFrom (LogInputError ie);
          streaming_status := false;
          generate_btn := false; stop_btn := true |}].
Proof.
  intros Hwf Hsel Hinst Hv.
  destruct (violates_raises inst req Hv) as [ie Hie]. exists ie.
  rewrite (wrapper_events_selected probe req e m g inst Hwf Hsel Hinst).
  by rewrite (validation_failure_trace inst req e ie Hie).
Qed.

Lemma wrapper_input_error_events_witness :
  exists ie,
    (generate_podcast_wrapper (fun _ => true) req_empty env_empty m_one).2
    = [start_event;
       {| audio_output := None; complete_audio_output := CompleteHidden;
          log_output := LogFrom (LogInputError ie);
          streaming_status := false;
          generate_btn := false; stop_btn := true |}].
Proof.
  apply (wrapper_input_error_events (fun _ => true) req_empty env_empty m_one
           0 demo_alice).
  - exact m_one_well_formed.
  - reflexivity.
  - reflexivity.
  - left. reflexivity.
Defined.

(** With no device available after the health check, the wrapper gives the
    start event and one event with the dispatcher's failure log, the
    generate button hidden and the stop button shown. *)
Theorem wrapper_no_device_events probe req e m x :
  well_formed m ->
  (select_best_gpu probe m).2 = Raised x ->
  (generate_podcast_wrapper probe req e m).2
  = [start_event;
     {| audio_output := None; complete_audio_output := CompleteHidden;
        log_output := LogFrom (LogGPUFailed RuntimeError);
        streaming_status := false;
        generate_btn := false; stop_btn := true |}].
Proof.
  intros Hwf Hsel.
  destruct (wrapper_events probe req e m Hwf)
    as [_ [(g' & inst' & Hsel' & _)|[_ ->]]]; [congruence|done].
Qed.

Lemma wrapper_no_device_events_witness :
  (generate_podcast_wrapper (fun _ => false) req_hi env_two m_down).2
  = [start_event;
     {| audio_output := None; complete_audio_output := CompleteHidden;
        log_output := LogFrom (LogGPUFailed RuntimeError);
        streaming_status := false;
        generate_btn := false; stop_btn := true |}].
Proof.
  apply (wrapper_no_device_events (fun _ => false) req_hi env_two m_down
           RuntimeError).
  - exact m_down_well_formed.
  - reflexivity.
Defined.

End InterfaceProofs.

(** ** Example scripts *)

Section StripProofs.

Lemma lstrip_all_space ws : forallb is_space ws = true -> lstrip ws = [].
Proof.
  induction ws as [|c ws IH]; simpl; [done|].
  intros H. apply andb_prop in H. destruct H as [-> H]. auto.
Qed.

Lemma lstrip_nil_all_space s : lstrip s = [] -> forallb is_space s = true.
Proof.
  induction s as [|c s IH]; simpl; [done|].
  destruct (is_space c); [auto|done].
Qed.

Lemma lstrip_app l r : lstrip l <> [] -> lstrip (l ++ r) = lstrip l ++ r.
Proof.
  induction l as [|c l IH]; simpl; [done|].
  destruct (is_space c); auto.
Qed.

Lemma lstrip_idem s : lstrip (lstrip s) = lstrip s.
Proof.
  induction s as [|c s IH]; simpl; [done|].
  destruct (is_space c) eqn:E; [done|]. simpl. by rewrite E.
Qed.

Lemma rstrip_app l r : rstrip r <> [] -> rstrip (l ++ r) = l ++ rstrip r.
Proof.
  unfold rstrip. intros H. rewrite rev_app_distr, lstrip_app.
  - by rewrite rev_app_distr, rev_involutive.
  - intros E. apply H. by rewrite E.
Qed.

Lemma rstrip_idem s : rstrip (rstrip s) = rstrip s.
Proof. unfold rstrip. by rewrite rev_involutive, lstrip_idem. Qed.

Lemma rstrip_nil : rstrip [] = [].
Proof. done. Qed.

Lemma rstrip_all_space ws : forallb is_space ws = true -> rstrip ws = [].
Proof.
  intros H. unfold rstrip. rewrite lstrip_all_space; [done|].
  rewrite forallb_forall in *. intros x Hx. apply H. by apply in_rev.
Qed.

(** A string that begins with a character that is no whitespace. *)
Lemma lstrip_head c s : is_space c = false -> lstrip (c :: s) = c :: s.
Proof. intros H. simpl. by rewrite H. Qed.

Lemma lstrip_cases s :
  lstrip s = []
  \/ exists c t, lstrip s = c :: t /\ is_space c = false.
Proof.
  induction s as [|c s IH]; simpl; [by left|].
  destruct (is_space c) eqn:E; [done|]. right. by exists c, s.
Qed.

Lemma rstrip_prefix s : exists ws, s = rstrip s ++ ws /\ forallb is_space ws = true.
Proof.
  assert (H : forall t, exists ws, t = ws ++ lstrip t
                                   /\ forallb is_space ws = true).
  { induction t as [|c t IH]; simpl; [by exists []|].
    destruct (is_space c) eqn:E; [|by exists []].
    destruct IH as (ws & Ht & Hws). exists (c :: ws). simpl.
    rewrite E, Hws. split; [by rewrite <- Ht|done]. }
  destruct (H (rev s)) as (ws & Hs & Hws). exists (rev ws). split.
  - unfold rstrip. rewrite <- rev_app_distr, <- Hs. by rewrite rev_involutive.
  - rewrite forallb_forall in *. intros x Hx. apply Hws. by apply in_rev.
Qed.

(** Stripping on the left and on the right commute. *)
Lemma lstrip_rstrip s : lstrip (rstrip s) = rstrip (lstrip s).
Proof.
  induction s as [|c s IH]; [done|].
  simpl lstrip at 2. destruct (is_space c) eqn:E.
  - rewrite <- IH. clear IH.
    destruct (rstrip_prefix s) as (ws & Hs & Hws).
    destruct (rstrip s) as [|d u] eqn:Hr.
    + simpl in Hs. subst s.
      rewrite rstrip_all_space; [done|]. simpl. by rewrite E.
    + change (c :: s) with ([c] ++ s).
      rewrite rstrip_app by (by rewrite Hr). rewrite Hr. simpl. by rewrite E.
  - destruct (rstrip_prefix (c :: s)) as (ws & Hs & Hws).
    destruct (rstrip (c :: s)) as [|d u] eqn:Hr.
    + simpl in Hs. subst ws. simpl in Hws. by rewrite E in Hws.
    + injection Hs as <- _. simpl. by rewrite E.
Qed.

Lemma strip_lstrip s : strip (lstrip s) = strip s.
Proof. unfold strip. by rewrite lstrip_idem. Qed.

Lemma strip_rstrip s : strip (rstrip s) = strip s.
Proof. unfold strip. by rewrite lstrip_rstrip, rstrip_idem. Qed.

Lemma strip_idem s : strip (strip s) = strip s.
Proof. unfold strip at 2. by rewrite strip_rstrip, strip_lstrip. Qed.

Lemma nonblank_lstrip l : nonblank l = true -> lstrip l <> [].
Proof. unfold nonblank, strip. intros H E. by rewrite E in H. Qed.

Lemma nonblank_rstrip l : nonblank l = true -> rstrip l <> [].
Proof.
  unfold nonblank, strip. rewrite <- lstrip_rstrip. intros H E. by rewrite E in H.
Qed.

End StripProofs.

Section JoinProofs.

Lemma join_app sep (a b : list pystr) :
  a <> [] -> b <> [] -> join sep (a ++ b) = join sep a ++ sep :: join sep b.
Proof.
  induction a as [|l a IH]; intros Ha Hb; [done|].
  destruct a as [|l2 a].
  - simpl. by destruct b.
  - change (join sep ((l :: l2 :: a) ++ b))
      with (l ++ sep :: join sep ((l2 :: a) ++ b)).
    rewrite IH by done.
    change (join sep (l :: l2 :: a)) with (l ++ sep :: join sep (l2 :: a)).
    by rewrite <- app_assoc.
Qed.

Lemma rev_join sep (ls : list pystr) :
  rev (join sep ls) = join sep (rev (map (@rev N) ls)).
Proof.
  induction ls as [|l ls IH]; [done|].
  destruct ls as [|l2 ls]; [done|].
  change (join sep (l :: l2 :: ls)) with (l ++ sep :: join sep (l2 :: ls)).
  rewrite rev_app_distr.
  change (rev (sep :: join sep (l2 :: ls)))
    with (rev (join sep (l2 :: ls)) ++ [sep]).
  rewrite IH.
  change (map (@rev N) (l :: l2 :: ls))
    with ([rev l] ++ map (@rev N) (l2 :: ls)).
  rewrite rev_app_distr, join_app; [by rewrite <- app_assoc| |done].
  simpl. by destruct (rev (map (@rev N) ls)).
Qed.

Lemma lstrip_join sep l rest :
  lstrip l <> [] ->
  lstrip (join sep (l :: rest)) = join sep (map_hd lstrip (l :: rest)).
Proof.
  intros H. destruct rest as [|l2 rest]; [done|].
  change (join sep (l :: l2 :: rest)) with (l ++ sep :: join sep (l2 :: rest)).
  by rewrite lstrip_app.
Qed.

Lemma rstrip_join sep ls :
  Forall (fun l => rstrip l <> []) ls ->
  rstrip (join sep ls) = join sep (map_last rstrip ls).
Proof.
  intros H. unfold rstrip at 1, map_last. rewrite rev_join.
  rewrite <- map_rev. unfold pystr in *.
  assert (Hr : Forall (fun l => rstrip l <> []) (rev ls)).
  { apply List.Forall_forall. intros x Hx. apply in_rev in Hx.
    rewrite List.Forall_forall in H. auto. }
  destruct (rev ls) as [|l r]; [done|].
  apply Forall_cons in Hr. destruct Hr as [Hl _].
  change (map (@rev N) (l :: r)) with (rev l :: map (@rev N) r).
  rewrite lstrip_join.
  - rewrite rev_join. f_equal. simpl map_hd.
    f_equal. simpl. f_equal.
    rewrite map_map. rewrite <- (map_id r) at 2. apply map_ext.
    intros x. apply rev_involutive.
  - intros E. apply Hl. unfold rstrip. by rewrite E.
Qed.

Lemma map_map_hd {A B} (f : A -> A) (g : A -> B) l :
  (forall x, g (f x) = g x) -> map g (map_hd f l) = map g l.
Proof. intros H. destruct l; simpl; by rewrite ?H. Qed.

Lemma map_map_last {A B} (f : A -> A) (g : A -> B) l :
  (forall x, g (f x) = g x) -> map g (map_last f l) = map g l.
Proof.
  intros H. unfold map_last. rewrite map_rev, map_map_hd by done.
  by rewrite <- map_rev, rev_involutive.
Qed.

Lemma map_hd_in {A} (f : A -> A) l y :
  In y (map_hd f l) -> exists x, In x l /\ (y = x \/ y = f x).
Proof.
  destruct l as [|a l]; [done|]. intros [<-|Hy].
  - exists a. split; [by left|by right].
  - exists y. split; [by right|by left].
Qed.

Lemma map_last_in {A} (f : A -> A) l y :
  In y (map_last f l) -> exists x, In x l /\ (y = x \/ y = f x).
Proof.
  unfold map_last. intros Hy. apply in_rev in Hy.
  apply map_hd_in in Hy. destruct Hy as (x & Hx & Hy).
  exists x. split; [by apply in_rev|done].
Qed.

Lemma rstrip_incl s : forall x, In x (rstrip s) -> In x s.
Proof.
  intros x Hx. unfold rstrip in Hx. apply in_rev in Hx.
  apply lstrip_incl in Hx. by apply in_rev.
Qed.

Lemma filter_nonempty_strip ls :
  List.filter VibeVoiceDemo.nonempty (map strip ls)
  = map strip (List.filter nonblank ls).
Proof.
  induction ls as [|l ls IH]; [done|]. simpl. unfold nonblank at 1.
  destruct (VibeVoiceDemo.nonempty (strip l)); simpl; by rewrite IH.
Qed.

Lemma filter_idem {A} (p : A -> bool) l :
  List.filter p (List.filter p l) = List.filter p l.
Proof.
  induction l as [|a l IH]; [done|]. simpl.
  destruct (p a) eqn:E; simpl; rewrite ?E, IH; done.
Qed.

(** Stripping a joined list of non-blank lines only trims its first line
    on the left and its last line on the right. *)
Lemma strip_join ls :
  ls <> [] -> Forall (fun l => nonblank l = true) ls ->
  strip (join 10%N ls) = join 10%N (map_last rstrip (map_hd lstrip ls)).
Proof.
  intros Hne H. destruct ls as [|l rest]; [done|].
  pose proof H as H'. apply Forall_cons in H'. destruct H' as [Hl Hrest].
  unfold strip. rewrite lstrip_join by (by apply nonblank_lstrip).
  apply rstrip_join. simpl. constructor.
  - rewrite <- lstrip_rstrip. intros E.
    apply nonblank_lstrip in Hl. unfold nonblank, strip in *.
    pose proof (lstrip_rstrip l) as K. rewrite E in K.
    assert (Hx : nonblank l = true) by (by inversion H).
    unfold nonblank, strip in Hx. by rewrite <- K in Hx.
  - apply List.Forall_forall. intros x Hx.
    rewrite List.Forall_forall in Hrest. apply nonblank_rstrip. auto.
Qed.

Lemma script_lines_join ls :
  Forall (fun l => nonblank l = true) ls ->
  (forall l, In l ls -> ~ In 10%N l) ->
  script_lines (join 10%N ls) = map strip ls.
Proof.
  intros H Hnl. unfold script_lines.
  destruct ls as [|l0 rest] eqn:Hls; [done|]. rewrite <- Hls in *.
  assert (Hne : ls <> []) by (by rewrite Hls).
  rewrite strip_join by done.
  rewrite split_join.
  - rewrite map_map_last by apply strip_rstrip.
    rewrite map_map_hd by apply strip_lstrip.
    rewrite filter_nonempty_strip. f_equal.
    clear -H. induction ls as [|l ls IH]; [done|].
    apply Forall_cons in H. destruct H as [Hl H]. simpl. rewrite Hl.
    by rewrite IH.
  - unfold map_last, map_hd. rewrite Hls. simpl.
    intros E. apply (f_equal (@rev pystr)) in E. rewrite rev_involutive in E.
    simpl in E. destruct (rev rest ++ [lstrip l0]) eqn:E2; [|done].
    by destruct (rev rest).
  - intros l Hl Hin.
    apply map_last_in in Hl. destruct Hl as (x & Hx & Hl).
    apply map_hd_in in Hx. destruct Hx as (y & Hy & Hx).
    apply (Hnl y Hy).
    destruct Hl as [-> | ->]; [|apply rstrip_incl in Hin];
      (destruct Hx as [-> | ->]; [done|by apply lstrip_incl]).
Qed.

End JoinProofs.

Section ExampleProofs.

Import Examples.

Lemma script_lines_clean content :
  script_lines (clean_script content) = script_lines content.
Proof.
  unfold clean_script. fold nonblank.
  change (fun line => VibeVoiceDemo.nonempty (strip line)) with nonblank.
  rewrite script_lines_join.
  - unfold script_lines. by rewrite filter_nonempty_strip.
  - apply List.Forall_forall. intros l Hl. apply filter_In in Hl. tauto.
  - intros l Hl. apply filter_In in Hl. destruct Hl as [Hl _].
    by apply split_no_sep in Hl.
Qed.

Lemma format_script_lines_script_lines n script :
  VibeVoiceDemo.format_script_lines n script
  = format_from n 0 (script_lines script).
Proof.
  unfold VibeVoiceDemo.format_script_lines. by rewrite format_loop_spec.
Qed.

(** A character map that keeps whitespace, other characters and the
    newline apart commutes with stripping, splitting and joining. *)
Section CharMap.

Variable f : N -> N.
Hypothesis f_space : forall c, is_space (f c) = is_space c.
Hypothesis f_newline : forall c, (f c =? 10)%N = (c =? 10)%N.

Lemma lstrip_map s : lstrip (map f s) = map f (lstrip s).
Proof.
  induction s as [|c s IH]; [done|]. simpl. rewrite f_space.
  by destruct (is_space c).
Qed.

Lemma strip_map s : strip (map f s) = map f (strip s).
Proof.
  unfold strip, rstrip. by rewrite lstrip_map, <- map_rev, lstrip_map, map_rev.
Qed.

Lemma split_map s : split 10%N (map f s) = map (map f) (split 10%N s).
Proof.
  induction s as [|c s IH]; [done|]. simpl. rewrite f_newline, IH.
  destruct (c =? 10)%N; [done|]. by destruct (split 10%N s).
Qed.

Lemma join_map ls : join 10%N (map (map f) ls) = map f (join 10%N ls).
Proof.
  induction ls as [|l ls IH]; [done|]. destruct ls as [|l2 ls]; [done|].
  change (join 10%N (map (map f) (l :: l2 :: ls)))
    with (map f l ++ 10%N :: join 10%N (map (map f) (l2 :: ls))).
  rewrite IH.
  change (join 10%N (l :: l2 :: ls)) with (l ++ 10%N :: join 10%N (l2 :: ls)).
  rewrite map_app. simpl. do 2 f_equal.
  pose proof (f_newline 10%N) as H. simpl in H. by apply N.eqb_eq in H.
Qed.

Lemma nonblank_map l : nonblank (map f l) = nonblank l.
Proof. unfold nonblank. rewrite strip_map. by destruct (strip l). Qed.

Lemma clean_script_map content :
  clean_script (map f content) = map f (clean_script content).
Proof.
  unfold clean_script.
  change (fun line => VibeVoiceDemo.nonempty (strip line)) with nonblank.
  rewrite strip_map, split_map, <- join_map. f_equal.
  induction (split 10%N (strip content)) as [|l ls IH]; [done|].
  simpl. rewrite nonblank_map. destruct (nonblank l); simpl; by rewrite IH.
Qed.

End CharMap.

Lemma clean_script_replace content :
  clean_script (replace 8217%N 39%N content)
  = replace 8217%N 39%N (clean_script content).
Proof.
  apply clean_script_map; intros c;
    destruct (N.eqb_spec c 8217) as [->|Hne]; done.
Qed.

(** The cleaning of an example script is invisible to the generator: the
    script the session formats from the cleaned content, after its
    replacement of the typographic apostrophe, is the one it would format
    from the file's content itself. *)
Theorem clean_script_same_formatting n content :
  VibeVoiceDemo.formatted_script n
    (replace 8217%N 39%N (clean_script content))
  = VibeVoiceDemo.formatted_script n (replace 8217%N 39%N content)
  /\ VibeVoiceDemo.format_script_lines n (clean_script content)
     = VibeVoiceDemo.format_script_lines n content.
Proof.
  split.
  - unfold VibeVoiceDemo.formatted_script.
    rewrite <- clean_script_replace, !format_script_lines_script_lines.
    by rewrite script_lines_clean.
  - rewrite !format_script_lines_script_lines. by rewrite script_lines_clean.
Qed.

Lemma fold_max_spec x xs :
  In (fold_right Z.max x xs) (x :: xs)
  /\ forall k, In k (x :: xs) -> k <= fold_right Z.max x xs.
Proof.
  induction xs as [|y xs [IH1 IH2]]; simpl.
  - split; [by left|]. intros k [<-|[]]. lia.
  - split.
    + destruct (Z.max_spec y (fold_right Z.max x xs)) as [[_ ->]|[_ ->]].
      * destruct IH1 as [H|H]; [by left|by right; right].
      * right. by left.
    + intros k [Hk|[Hk|Hk]].
      * specialize (IH2 k ltac:(by left)). lia.
      * lia.
      * specialize (IH2 k ltac:(by right)). lia.
Qed.

Lemma fold_min_spec x xs :
  In (fold_right Z.min x xs) (x :: xs)
  /\ forall k, In k (x :: xs) -> fold_right Z.min x xs <= k.
Proof.
  induction xs as [|y xs [IH1 IH2]]; simpl.
  - split; [by left|]. intros k [<-|[]]. lia.
  - split.
    + destruct (Z.min_spec y (fold_right Z.min x xs)) as [[_ ->]|[_ ->]].
      * right. by left.
      * destruct IH1 as [H|H]; [by left|by right; right].
    + intros k [Hk|[Hk|Hk]].
      * specialize (IH2 k ltac:(by left)). lia.
      * lia.
      * specialize (IH2 k ltac:(by right)). lia.
Qed.

(** A set of integers between 1 and [n] has at most [n] elements. *)
Lemma size_bounded (s : gset Z) n :
  0 <= n -> (forall k, k ∈ s -> 1 <= k <= n) -> Z.of_nat (size s) <= n.
Proof.
  intros Hn H.
  set (l := map Z.of_nat (seq 1 (Z.to_nat n))).
  assert (Hsub : s ⊆ list_to_set l).
  { intros k Hk. apply elem_of_list_to_set. apply list_elem_of_In.
    apply in_map_iff. exists (Z.to_nat k). specialize (H k Hk).
    split; [lia|]. apply in_seq. lia. }
  apply subseteq_size in Hsub.
  assert (Hl : size (list_to_set l : gset Z) = length l).
  { apply size_list_to_set. unfold l. apply NoDup_fmap_2; [|apply NoDup_seq].
    intros a b. lia. }
  rewrite Hl in Hsub. unfold l in Hsub.
  rewrite length_map, length_seq in Hsub. lia.
Qed.

(** A set built from a list with an element is not empty. *)
Lemma size_list_to_set_pos (x : Z) xs :
  size (list_to_set (x :: xs) : gset Z) <> 0%nat.
Proof.
  intros E. apply size_empty_inv in E.
  apply (not_elem_of_empty (C:=gset Z) x). rewrite <- E.
  apply elem_of_list_to_set. by left.
Qed.

(** The number of speakers computed for a script is at least 1 and at most
    one more than the largest id its lines announce; when some line
    announces id 0 it exceeds every announced id, and otherwise it is the
    number of distinct ids, which is then at most the largest one. *)
Theorem get_num_speakers_bounds speaker_id script :
  (forall s k, speaker_id s = Some k -> 0 <= k) ->
  let n := _get_num_speakers_from_script speaker_id script in
  let ids := speaker_ids speaker_id script in
  1 <= n
  /\ (forall k, In k ids -> exists k', In k' ids /\ k <= k' /\ n <= k' + 1)
  /\ (In 0 ids -> forall k, In k ids -> k < n)
  /\ (~ In 0 ids ->
      n = Z.max 1 (Z.of_nat (size (list_to_set ids : gset Z)))
      /\ forall k, In k ids -> exists k', In k' ids /\ k <= k' /\ n <= k').
Proof.
  intros Hnn. simpl. unfold _get_num_speakers_from_script.
  assert (Hpos : forall k, In k (speaker_ids speaker_id script) -> 0 <= k).
  { intros k Hk. unfold speaker_ids in Hk. apply list_elem_of_In in Hk.
    apply list_elem_of_omap in Hk. destruct Hk as (l & _ & Hl). eauto. }
  destruct (speaker_ids speaker_id script) as [|x xs] eqn:Hids.
  { split; [lia|]. split; [by intros k []|]. split; [by intros []|].
    intros _. split; [done|by intros k []]. }
  destruct (fold_max_spec x xs) as [Hmax_in Hmax].
  destruct (fold_min_spec x xs) as [Hmin_in Hmin].
  set (mx := fold_right Z.max x xs) in *.
  set (mn := fold_right Z.min x xs) in *.
  assert (Hsize : 1 <= Z.of_nat (size (list_to_set (x :: xs) : gset Z)) <= mx
                  \/ mn = 0).
  { destruct (Z.eq_dec mn 0) as [?|Hne]; [by right|]. left.
    split.
    - pose proof (size_list_to_set_pos x xs). lia.
    - apply size_bounded.
      + specialize (Hpos mx Hmax_in). lia.
      + intros k Hk. apply elem_of_list_to_set, list_elem_of_In in Hk.
        specialize (Hmin k Hk). specialize (Hmax k Hk).
        specialize (Hpos mn Hmin_in). lia. }
  destruct (Z.eqb_spec mn 0) as [Hz|Hnz].
  - split; [specialize (Hpos mx Hmax_in); lia|].
    split; [intros k Hk; exists mx; specialize (Hmax k Hk);
            split; [done|lia]|].
    split; [intros _ k Hk; specialize (Hmax k Hk); lia|].
    intros Hn0. exfalso. apply Hn0. by rewrite <- Hz.
  - destruct Hsize as [Hsize|?]; [|done].
    split; [lia|].
    split; [intros k Hk; exists mx; specialize (Hmax k Hk);
            split; [done|lia]|].
    split.
    + intros H0. specialize (Hmin 0 H0). specialize (Hpos mn Hmin_in). lia.
    + intros _. split; [lia|].
      intros k Hk. exists mx. specialize (Hmax k Hk). split; [done|lia].
Qed.

Lemma get_num_speakers_bounds_witness :
  1 <= _get_num_speakers_from_script speaker_0_or_1 script_demo.
Proof.
  refine (proj1 (get_num_speakers_bounds speaker_0_or_1 script_demo _)).
  intros s k. unfold speaker_0_or_1.
  destruct (startswith (lit "Speaker 0:") s); [intros [= <-]; lia|].
  destruct (startswith (lit "Speaker 1:") s); [intros [= <-]; lia|].
  discriminate.
Defined.

Lemma load_loop_spec speaker_id files : forall acc n s,
  In (n, s) (load_loop speaker_id files acc) ->
  In (n, s) acc
  \/ exists f content,
       In f files
       /\ file_content f = Some content
       /\ s = clean_script content
       /\ s <> []
       /\ n = _get_num_speakers_from_script speaker_id s
       /\ forall minutes, file_minutes f = Some minutes -> minutes <= 15.
Proof.
  induction files as [|f rest IH]; intros acc n s H; [by left|].
  simpl in H.
  assert (Hrest : In (n, s) (load_loop speaker_id rest acc) ->
          In (n, s) acc
          \/ exists f0 content,
               In f0 (f :: rest)
               /\ file_content f0 = Some content
               /\ s = clean_script content
               /\ s <> []
               /\ n = _get_num_speakers_from_script speaker_id s
               /\ forall minutes, file_minutes f0 = Some minutes -> minutes <= 15).
  { intros H'. destruct (IH _ _ _ H') as [?|(f0 & c & Hf & K)]; [by left|].
    right. exists f0, c. split; [by right|done]. }
  destruct (match file_minutes f with
            | Some minutes => 15 <? minutes
            | None => false
            end) eqn:Hlong; [auto|].
  destruct (file_content f) as [content|] eqn:Hc; [|auto].
  destruct (clean_script content) as [|c0 s0] eqn:Hclean; [auto|].
  destruct (IH _ _ _ H) as [Hin|(f0 & c & Hf & K)].
  - apply in_app_or in Hin. destruct Hin as [Hin|[[= <- <-]|[]]]; [by left|].
    right. exists f, content. split; [by left|]. split; [done|].
    split; [done|]. split; [done|]. split; [done|].
    intros minutes Hm. rewrite Hm in Hlong. apply Z.ltb_ge in Hlong. lia.
  - right. exists f0, c. split; [by right|done].
Qed.

(** Every example that [load_example_scripts] keeps comes from a readable
    file whose name announces no more than 15 minutes, is that file's
    cleaned content, is not blank and has no blank line, and carries a
    number of speakers of at least 1. *)
Theorem loaded_examples_valid speaker_id dir_exists files n s :
  In (n, s) (load_example_scripts speaker_id dir_exists files) ->
  1 <= n
  /\ strip s <> []
  /\ (forall line, In line (split 10%N s) -> strip line <> [])
  /\ exists f content,
       In f files
       /\ file_content f = Some content
       /\ s = clean_script content
       /\ n = _get_num_speakers_from_script speaker_id s
       /\ forall minutes, file_minutes f = Some minutes -> minutes <= 15.
Proof.
  unfold load_example_scripts. destruct dir_exists; simpl; [|done].
  intros H. apply load_loop_spec in H.
  destruct H as [[]|(f & content & Hf & Hc & Hs & Hne & Hn & Hm)].
  assert (Hall : Forall (fun l => nonblank l = true)
                   (List.filter nonblank (split 10%N (strip content)))).
  { apply List.Forall_forall. intros l Hl. apply filter_In in Hl. tauto. }
  assert (Hnl : forall l,
             In l (List.filter nonblank (split 10%N (strip content))) ->
             ~ In 10%N l).
  { intros l Hl. apply filter_In in Hl. destruct Hl as [Hl _].
    by apply split_no_sep in Hl. }
  assert (Hs' : s = join 10%N (List.filter nonblank (split 10%N (strip content))))
    by done.
  set (ls := List.filter nonblank (split 10%N (strip content))) in *.
  assert (Hls : ls <> []) by (intros E; rewrite E in Hs'; by subst s).
  split_and!.
  - subst n. unfold _get_num_speakers_from_script.
    destruct (speaker_ids speaker_id s) as [|x xs] eqn:Hids; [lia|].
    destruct (fold_min_spec x xs) as [_ Hmin].
    destruct (fold_max_spec x xs) as [_ Hmax].
    destruct (Z.eqb_spec (fold_right Z.min x xs) 0) as [Hz|Hnz].
    + specialize (Hmin x ltac:(by left)). specialize (Hmax x ltac:(by left)).
      lia.
    + pose proof (size_list_to_set_pos x xs). lia.
  - pose proof (script_lines_join ls Hall Hnl) as K. rewrite <- Hs' in K.
    intros E. unfold script_lines in K. rewrite E in K. simpl in K.
    destruct ls; [done|]. simpl in K. by destruct (strip []).
  - rewrite Hs', split_join by done.
    intros line Hl. rewrite List.Forall_forall in Hall.
    specialize (Hall line Hl). unfold nonblank in Hall.
    by destruct (strip line).
  - by exists f, content.
Qed.

Lemma loaded_examples_valid_witness :
  exists n s,
    In (n, s) (load_example_scripts speaker_0_or_1 true files_demo)
    /\ 1 <= n /\ strip s <> [].
Proof.
  eexists _, _. split; [left; reflexivity|].
  pose proof (loaded_examples_valid speaker_0_or_1 true files_demo _ _
                (or_introl eq_refl)) as H.
  exact (conj (proj1 H) (proj1 (proj2 H))).
Defined.

End ExampleProofs.
